(** * warcdb: ingestion of WARC records into a relational store

    A shallow embedding of [warcdb/__init__.py]: the record-to-dict adapter
    ([record_as_dict], memoised with [functools.cache]), the JSON rendering
    of HTTP headers ([headers_to_json]) and of records ([record_to_json]),
    the record router ([WarcDB.__iadd__]), [WarcDB.__len__] and the
    [import] command ([import_]).

    Python state is threaded explicitly through a [World]: the content
    streams of the record objects, the memo table of [record_as_dict], the
    databases, the log of insert calls handed to the storage engine, the
    archive files, standard output and the warnings issued. *)

From Stdlib Require Import Ascii String NArith ZArith.
From stdpp Require Import gmap strings list fin_maps countable.

Set Warnings "-register-all".

(** ** Text and bytes

    A Python [str] is a sequence of code points; a code point is a number
    below 1114112 ([0x110000]), and a [str] may hold surrogate code points
    ([0xD800] to [0xDFFF]) on their own.  Literals, which are ASCII
    throughout, denote the [str] of their characters.  [bytes] are
    modelled by Rocq's [string], a sequence of characters 0..255. *)

Inductive str := Str (cps : list N).

Definition chars (s : str) : list N := match s with Str l => l end.
Definition text (l : list N) : str := Str l.

Definition str_of_bytes (bs : list Byte.byte) : str :=
  Str (List.map Byte.to_N bs).
Definition bytes_of_str (s : str) : option (list Byte.byte) :=
  mapM Byte.of_N (chars s).

Declare Scope str_scope.
Delimit Scope str_scope with str.
Bind Scope str_scope with str.
String Notation str str_of_bytes bytes_of_str : str_scope.
Open Scope str_scope.

Abbreviation bytes := string.

#[global] Instance str_eq_dec : EqDecision str.
Proof. solve_decision. Defined.

#[global] Instance str_countable : Countable str.
Proof. refine (inj_countable' chars Str _). by intros []. Defined.

(** [a + b] on [str] *)
Definition str_app (a b : str) : str := Str (chars a ++ chars b).

(** A code point Python can hold. *)
Definition code_point (c : N) : Prop := (c < 1114112)%N.

Definition high_surrogate (c : N) : bool := ((55296 <=? c) && (c <=? 56319))%N.
Definition low_surrogate (c : N) : bool := ((56320 <=? c) && (c <=? 57343))%N.

(** No high surrogate stands immediately before a low surrogate. *)
Fixpoint no_surrogate_pair (l : list N) : Prop :=
  match l with
  | c :: (c' :: _) as rest =>
      ¬ (high_surrogate c = true ∧ low_surrogate c' = true) ∧
      no_surrogate_pair rest
  | _ => True
  end.

(** ** JSON values and [json.dumps]

    [dumps] follows CPython's encoder with its defaults
    ([ensure_ascii=True], separators [", "] and [": "]). *)

Inductive json :=
  | JNull
  | JString (s : str)
  | JArray (items : list json)
  | JObject (members : list (str * json)).

Definition dq : N := 34.          (* the double quote *)
Definition backslash : N := 92.

Definition hex_digit (n : N) : N :=
  (if n <? 10 then 48 + n else 87 + n)%N.

(* '\\u{0:04x}'.format(n), for n below 0x10000 *)
Definition u_escape (n : N) : list N :=
  [backslash; 117%N;
   hex_digit (n / 4096 mod 16); hex_digit (n / 256 mod 16);
   hex_digit (n / 16 mod 16); hex_digit (n mod 16)]%N.

(* ESCAPE_ASCII / ESCAPE_DCT and [replace] of json.encoder: the seven short
   escapes; \uXXXX (lower-case hex) for every other character outside
   ' '..'~' below 0x10000; a surrogate pair of two such escapes above. *)
Definition escape_char (c : N) : list N :=
  if (c =? 34)%N then [backslash; dq]
  else if (c =? 92)%N then [backslash; backslash]
  else if (c =? 8)%N then [backslash; 98%N]
  else if (c =? 12)%N then [backslash; 102%N]
  else if (c =? 10)%N then [backslash; 110%N]
  else if (c =? 13)%N then [backslash; 114%N]
  else if (c =? 9)%N then [backslash; 116%N]
  else if ((c <? 32) || (126 <? c))%N then
    if (c <? 65536)%N then u_escape c
    else
      let n := (c - 65536)%N in
      u_escape (N.lor 55296 (N.land (N.shiftr n 10) 1023)) ++
      u_escape (N.lor 56320 (N.land n 1023))
  else [c].

Definition escape_chars (l : list N) : list N :=
  flat_map escape_char l.

Definition encode_string (s : str) : list N :=
  dq :: escape_chars (chars s) ++ [dq].

(* sep.join(parts) *)
Fixpoint join (sep : list N) (parts : list (list N)) : list N :=
  match parts with
  | [] => []
  | [p] => p
  | p :: ps => p ++ sep ++ join sep ps
  end.

Fixpoint dumps_chars (v : json) : list N :=
  match v with
  | JNull => chars "null"
  | JString s => encode_string s
  | JArray items =>
      chars "[" ++ join (chars ", ") (map dumps_chars items) ++ chars "]"
  | JObject members =>
      chars "{" ++
      join (chars ", ")
           (map (fun kv => encode_string (fst kv) ++ chars ": " ++
                           dumps_chars (snd kv)) members) ++
      chars "}"
  end.

Definition dumps (v : json) : str := text (dumps_chars v).

(** ** JSON decoding ([json.loads], restricted to null, strings, arrays
    and objects) *)

Definition is_ws (c : N) : bool :=
  ((c =? 32) || (c =? 9) || (c =? 10) || (c =? 13))%N.

Fixpoint skip_ws (s : list N) : list N :=
  match s with
  | c :: rest => if is_ws c then skip_ws rest else s
  | [] => []
  end.

Definition hex_value (c : N) : option N :=
  if ((48 <=? c) && (c <=? 57))%N then Some (c - 48)%N
  else if ((97 <=? c) && (c <=? 102))%N then Some (c - 87)%N
  else if ((65 <=? c) && (c <=? 70))%N then Some (c - 55)%N
  else None.

Definition decode_uXXXX (a b c d : N) : option N :=
  match hex_value a, hex_value b, hex_value c, hex_value d with
  | Some x, Some y, Some z, Some w => Some (((x * 16 + y) * 16 + z) * 16 + w)%N
  | _, _, _, _ => None
  end.

(* BACKSLASH table of json.decoder *)
Definition unescape (e : N) : option N :=
  if (e =? 34)%N then Some 34%N
  else if (e =? 92)%N then Some 92%N
  else if (e =? 47)%N then Some 47%N
  else if (e =? 98)%N then Some 8%N
  else if (e =? 102)%N then Some 12%N
  else if (e =? 110)%N then Some 10%N
  else if (e =? 114)%N then Some 13%N
  else if (e =? 116)%N then Some 9%N
  else None.

(* scanstring, called just after the opening quote; strict mode: a raw
   control character ends the scan with an error.  A \uXXXX escape of a
   high surrogate that is followed by the \uXXXX escape of a low surrogate
   is joined with it into one code point above 0xFFFF; any other escape
   following it is scanned on its own. *)
Fixpoint scanstring (s : list N) : option (list N * list N) :=
  match s with
  | [] => None
  | c :: rest =>
      if (c =? 34)%N then Some ([], rest)
      else if (c =? 92)%N then
        match rest with
        | [] => None
        | e :: rest' =>
            if (e =? 117)%N then
              match rest' with
              | h1 :: h2 :: h3 :: h4 :: rest'' =>
                  match decode_uXXXX h1 h2 h3 h4 with
                  | Some uni =>
                      let alone :=
                        match scanstring rest'' with
                        | Some (cs, tl) => Some (uni :: cs, tl)
                        | None => None
                        end in
                      if high_surrogate uni then
                        match rest'' with
                        | b :: u :: k1 :: k2 :: k3 :: k4 :: rest3 =>
                            if ((b =? 92) && (u =? 117))%N then
                              match decode_uXXXX k1 k2 k3 k4 with
                              | Some uni2 =>
                                  if low_surrogate uni2 then
                                    match scanstring rest3 with
                                    | Some (cs, tl) =>
                                        Some ((65536 +
                                               N.lor (N.shiftl (uni - 55296) 10)
                                                     (uni2 - 56320))%N :: cs, tl)
                                    | None => None
                                    end
                                  else alone
                              | None => None
                              end
                            else alone
                        | _ => alone
                        end
                      else alone
                  | None => None
                  end
              | _ => None
              end
            else
              match unescape e with
              | Some ch =>
                  match scanstring rest' with
                  | Some (cs, tl) => Some (ch :: cs, tl)
                  | None => None
                  end
              | None => None
              end
        end
      else if (c <? 32)%N then None
      else
        match scanstring rest with
        | Some (cs, tl) => Some (c :: cs, tl)
        | None => None
        end
  end.

(* The recursive-descent scanner; [fuel] bounds the number of nested
   calls, and [loads] supplies more than the text can use. *)
Fixpoint parse_value (fuel : nat) (s : list N) : option (json * list N) :=
  match fuel with
  | O => None
  | S fuel =>
      match skip_ws s with
      | c :: rest =>
          if (c =? 34)%N then
            match scanstring rest with
            | Some (cs, tl) => Some (JString (text cs), tl)
            | None => None
            end
          else if (c =? 91)%N then          (* [ *)
            match skip_ws rest with
            | c' :: rest' =>
                if (c' =? 93)%N then Some (JArray [], rest')
                else match parse_items fuel rest with
                     | Some (items, tl) => Some (JArray items, tl)
                     | None => None
                     end
            | [] => None
            end
          else if (c =? 123)%N then         (* { *)
            match skip_ws rest with
            | c' :: rest' =>
                if (c' =? 125)%N then Some (JObject [], rest')
                else match parse_members fuel rest with
                     | Some (members, tl) => Some (JObject members, tl)
                     | None => None
                     end
            | [] => None
            end
          else if (c =? 110)%N then         (* null *)
            match rest with
            | u :: l1 :: l2 :: tl =>
                if ((u =? 117) && (l1 =? 108) && (l2 =? 108))%N
                then Some (JNull, tl) else None
            | _ => None
            end
          else None
      | [] => None
      end
  end
with parse_items (fuel : nat) (s : list N) : option (list json * list N) :=
  match fuel with
  | O => None
  | S fuel =>
      match parse_value fuel s with
      | Some (v, tl) =>
          match skip_ws tl with
          | c :: tl' =>
              if (c =? 44)%N then           (* , *)
                match parse_items fuel tl' with
                | Some (vs, tl'') => Some (v :: vs, tl'')
                | None => None
                end
              else if (c =? 93)%N then Some ([v], tl')
              else None
          | [] => None
          end
      | None => None
      end
  end
with parse_members (fuel : nat) (s : list N)
    : option (list (str * json) * list N) :=
  match fuel with
  | O => None
  | S fuel =>
      match skip_ws s with
      | q :: rest =>
          if (q =? 34)%N then
            match scanstring rest with
            | Some (key, tl) =>
                match skip_ws tl with
                | c :: tl' =>
                    if (c =? 58)%N then     (* : *)
                      match parse_value fuel tl' with
                      | Some (v, tl'') =>
                          match skip_ws tl'' with
                          | d :: tl3 =>
                              if (d =? 44)%N then
                                match parse_members fuel tl3 with
                                | Some (ms, tl4) => Some ((text key, v) :: ms, tl4)
                                | None => None
                                end
                              else if (d =? 125)%N
                                   then Some ([(text key, v)], tl3)
                              else None
                          | [] => None
                          end
                      | None => None
                      end
                    else None
                | [] => None
                end
            | None => None
            end
          else None
      | [] => None
      end
  end.

Definition loads (s : str) : option json :=
  match parse_value (S (length (chars s))) (chars s) with
  | Some (v, tl) => match skip_ws tl with [] => Some v | _ => None end
  | None => None
  end.


(** ** Rows, headers and records *)

(** The Python values a row holds: [None], a [str], or [bytes]. *)
Inductive value :=
  | VNone
  | VStr (s : str)
  | VBytes (b : bytes).

#[global] Instance value_eq_dec : EqDecision value.
Proof. solve_decision. Defined.

(** A row is a Python [dict] from column name to value.  Rows are only
    ever looked up by key here, so the insertion order of the [dict] is not
    kept. *)
Abbreviation Row := (gmap str value).

(** [warcio.StatusAndHeaders]: a status line and an ordered list of
    (name, value) pairs. *)
Record StatusAndHeaders := {
  statusline : str;
  headers : list (str * str);
  protocol : str
}.

(** [warcio.recordloader.ArcWarcRecord].  [rec_id] is the identity of the
    object: records are compared and hashed as plain Python objects, so two
    records are equal exactly when they are the same object.  The content
    stream is mutable and lives in the [World], keyed by [rec_id]. *)
Record ArcWarcRecord := {
  rec_id : nat;
  rec_type : str;
  rec_headers : StatusAndHeaders;
  http_headers : option StatusAndHeaders
}.

#[global] Instance StatusAndHeaders_eq_dec : EqDecision StatusAndHeaders.
Proof. solve_decision. Defined.

#[global] Instance ArcWarcRecord_eq_dec : EqDecision ArcWarcRecord.
Proof. solve_decision. Defined.

#[global] Instance StatusAndHeaders_countable : Countable StatusAndHeaders.
Proof.
  refine (inj_countable'
    (fun h => (statusline h, headers h, protocol h))
    (fun t => {| statusline := t.1.1; headers := t.1.2; protocol := t.2 |}) _).
  by intros [].
Defined.

#[global] Instance ArcWarcRecord_countable : Countable ArcWarcRecord.
Proof.
  refine (inj_countable'
    (fun r => (rec_id r, rec_type r, rec_headers r, http_headers r))
    (fun t => {| rec_id := t.1.1.1; rec_type := t.1.1.2;
                 rec_headers := t.1.2; http_headers := t.2 |}) _).
  by intros [].
Defined.

(** The arguments of one call of [record_as_dict] after [self]: the
    positional ones, and the keyword ones in the order they were written. *)
Record CallArgs := {
  positional : list bool;
  keywords : list (str * bool)
}.

#[global] Instance CallArgs_eq_dec : EqDecision CallArgs.
Proof. solve_decision. Defined.

#[global] Instance CallArgs_countable : Countable CallArgs.
Proof.
  refine (inj_countable'
    (fun a => (positional a, keywords a))
    (fun t => {| positional := t.1; keywords := t.2 |}) _).
  by intros [].
Defined.

Definition kwargs (kws : list (str * bool)) : CallArgs :=
  {| positional := []; keywords := kws |}.

(** ** The storage engine's insert call *)

Inductive pytype := PyInt | PyStr | PyDatetime.

(** One call [db.table(name).insert(row, pk=.., foreign_keys=.., alter=..,
    ignore=.., columns=..)] on the database opened at [ic_db]. *)
Record InsertCall := {
  ic_db : str;
  ic_table : str;
  ic_row : Row;
  ic_pk : str;
  ic_foreign_keys : list (str * str * str);
  ic_alter : bool;
  ic_ignore : bool;
  ic_columns : list (str * pytype)
}.

(** A table is the list of the rows the engine accepted, each as it was
    handed over, in insertion order; a column a row does not mention is
    NULL there.  A database maps table names to tables. *)
Abbreviation Table := (list Row).
Abbreviation Database := (gmap str Table).

(** A record as the archive parser finds it in a file, before
    [ArchiveIterator] turns it into an object. *)
Record RawRecord := {
  raw_type : str;
  raw_headers : StatusAndHeaders;
  raw_http_headers : option StatusAndHeaders;
  raw_payload : bytes
}.

(** ** The world *)

Record World := {
  w_streams : gmap nat bytes;                     (* unread bytes of each content stream *)
  w_cache : gmap (ArcWarcRecord * CallArgs) Row;  (* memo table of record_as_dict *)
  w_dbs : gmap str Database;                      (* database files by path *)
  w_log : list InsertCall;                        (* insert calls made so far *)
  w_files : gmap str (list RawRecord);            (* archive files by path *)
  w_next : nat;                                   (* next fresh object identity *)
  w_stdout : list ArcWarcRecord;                  (* records printed *)
  w_warnings : list str                           (* warnings issued *)
}.

Definition set_streams (f : gmap nat bytes → gmap nat bytes) (σ : World) : World :=
  {| w_streams := f (w_streams σ); w_cache := w_cache σ; w_dbs := w_dbs σ;
     w_log := w_log σ; w_files := w_files σ; w_next := w_next σ;
     w_stdout := w_stdout σ; w_warnings := w_warnings σ |}.

Definition set_cache (f : gmap (ArcWarcRecord * CallArgs) Row →
                          gmap (ArcWarcRecord * CallArgs) Row) (σ : World) : World :=
  {| w_streams := w_streams σ; w_cache := f (w_cache σ); w_dbs := w_dbs σ;
     w_log := w_log σ; w_files := w_files σ; w_next := w_next σ;
     w_stdout := w_stdout σ; w_warnings := w_warnings σ |}.

Definition set_dbs (f : gmap str Database → gmap str Database) (σ : World) : World :=
  {| w_streams := w_streams σ; w_cache := w_cache σ; w_dbs := f (w_dbs σ);
     w_log := w_log σ; w_files := w_files σ; w_next := w_next σ;
     w_stdout := w_stdout σ; w_warnings := w_warnings σ |}.

Definition set_log (f : list InsertCall → list InsertCall) (σ : World) : World :=
  {| w_streams := w_streams σ; w_cache := w_cache σ; w_dbs := w_dbs σ;
     w_log := f (w_log σ); w_files := w_files σ; w_next := w_next σ;
     w_stdout := w_stdout σ; w_warnings := w_warnings σ |}.

Definition set_next (f : nat → nat) (σ : World) : World :=
  {| w_streams := w_streams σ; w_cache := w_cache σ; w_dbs := w_dbs σ;
     w_log := w_log σ; w_files := w_files σ; w_next := f (w_next σ);
     w_stdout := w_stdout σ; w_warnings := w_warnings σ |}.

Definition set_stdout (f : list ArcWarcRecord → list ArcWarcRecord) (σ : World) : World :=
  {| w_streams := w_streams σ; w_cache := w_cache σ; w_dbs := w_dbs σ;
     w_log := w_log σ; w_files := w_files σ; w_next := w_next σ;
     w_stdout := f (w_stdout σ); w_warnings := w_warnings σ |}.

Definition set_warnings (f : list str → list str) (σ : World) : World :=
  {| w_streams := w_streams σ; w_cache := w_cache σ; w_dbs := w_dbs σ;
     w_log := w_log σ; w_files := w_files σ; w_next := w_next σ;
     w_stdout := w_stdout σ; w_warnings := f (w_warnings σ) |}.

(** ** Exceptions and the state-and-exception monad *)

(** [AlterError] is the storage engine's; it names the table and the
    column of the foreign-key reference it could not resolve. *)
Inductive exn :=
  | ValueError (msg : str)
  | TypeError (msg : str)
  | FileNotFoundError (path : str)
  | OperationalError (msg : str)
  | IntegrityError (msg : str)
  | AlterError (other_table other_column : str).

Inductive outcome (A : Type) :=
  | Return (a : A)
  | Raise (e : exn).
Arguments Return {A} a.
Arguments Raise {A} e.

(** A Python computation: from the world before to an outcome and the world
    after.  A raised exception keeps the effects made before it. *)
Definition M (A : Type) : Type := World → outcome A * World.

#[global] Instance M_ret : MRet M := fun A a σ => (Return a, σ).
#[global] Instance M_bind : MBind M := fun A B f m σ =>
  match m σ with
  | (Return a, σ') => f a σ'
  | (Raise e, σ') => (Raise e, σ')
  end.

Definition raise {A} (e : exn) : M A := fun σ => (Raise e, σ).
Definition modify (f : World → World) : M unit := fun σ => (Return tt, f σ).

(** ** [headers_to_json] and [record_as_dict] *)

(** [dumps([{'header': h, 'value': v} for h, v in self.headers])] *)
Definition headers_to_json (self : StatusAndHeaders) : str :=
  dumps (JArray (map (fun hv => JObject [("header", JString hv.1);
                                         ("value", JString hv.2)])
                     (headers self))).

(** [dict(pairs)]: a later pair replaces an earlier one with the same key. *)
Definition dict_of_pairs (pairs : list (str * str)) : Row :=
  foldl (fun d kv => <[kv.1 := VStr kv.2]> d) ∅ pairs.

(** [ret.update(d)]: the entries of [d] win. *)
Definition dict_update (ret d : Row) : Row := d ∪ ret.

(** [self.content_stream().read()]: hands out what is left of the stream
    and leaves it empty; reading a drained stream gives [b''], as file-like
    objects do. *)
Definition content_stream_read (self : ArcWarcRecord) : M bytes := fun σ =>
  (Return (default EmptyString (w_streams σ !! rec_id self)),
   set_streams (<[rec_id self := EmptyString]>) σ).

(** The truth value of a [warcio.StatusAndHeaders] object, which the test
    [if self.http_headers:] asks for.  The class is warcio's, not this
    repository's; it defines [__bool__] as
    [bool(self.statusline or self.headers)]: an envelope with an empty
    status line and no header is false. *)
Definition StatusAndHeaders_bool (h : StatusAndHeaders) : bool :=
  negb (bool_decide (statusline h = "")) || negb (bool_decide (headers h = [])).

(** The body of [record_as_dict], run on a cache miss.  The test
    [if self.http_headers:] fails for [None] and otherwise asks the object
    for its truth value. *)
Definition record_as_dict_body (self : ArcWarcRecord)
    (with_http_headers with_payload : bool) : M Row :=
  let ret : Row := ∅ in
  let ret := dict_update ret (dict_of_pairs (headers (rec_headers self))) in
  let ret :=
    if with_http_headers then
      match http_headers self with
      | Some h =>
          if StatusAndHeaders_bool h
          then <["http_headers" := VStr (headers_to_json h)]> ret
          else <["http_headers" := VNone]> ret
      | None => <["http_headers" := VNone]> ret
      end
    else ret in
  if with_payload then
    payload ← content_stream_read self;
    mret (<["payload" := VBytes payload]> ret)
  else mret ret.

(** Binding of the call's arguments to the parameters
    [(with_http_headers=False, with_payload=False)]; [None] is Python's
    [TypeError] (too many positional arguments, an unknown keyword, or a
    parameter given twice). *)
Fixpoint bind_keywords (kws : list (str * bool)) (h p : option bool)
    : option (bool * bool) :=
  match kws with
  | [] => Some (default false h, default false p)
  | (k, v) :: rest =>
      if decide (k = "with_http_headers") then
        match h with None => bind_keywords rest (Some v) p | Some _ => None end
      else if decide (k = "with_payload") then
        match p with None => bind_keywords rest h (Some v) | Some _ => None end
      else None
  end.

Definition bind_args (a : CallArgs) : option (bool * bool) :=
  match positional a with
  | [] => bind_keywords (keywords a) None None
  | [h] => bind_keywords (keywords a) (Some h) None
  | [h; p] => bind_keywords (keywords a) (Some h) (Some p)
  | _ => None
  end.

(** [@cache def record_as_dict(self, with_http_headers=False,
    with_payload=False)].  [functools.cache] builds its key from the call
    as written: the positional arguments, then the keyword arguments in
    call order.  It looks the key up before the function runs, and stores
    the result only when the function returns. *)
Definition record_as_dict (self : ArcWarcRecord) (args : CallArgs) : M Row :=
  fun σ =>
    match w_cache σ !! (self, args) with
    | Some row => (Return row, σ)
    | None =>
        match bind_args args with
        | None => (Raise (TypeError "record_as_dict: bad arguments"), σ)
        | Some (with_http_headers, with_payload) =>
            (row ← record_as_dict_body self with_http_headers with_payload;
             modify (set_cache <[(self, args) := row]>);;
             mret row) σ
        end
    end.

(** ** The storage engine *)

(** Two rows conflict when they have the same value in the primary-key
    column; a row without a value there (NULL) conflicts with none. *)
Definition pk_conflict (pk : str) (row : Row) (rows : Table) : bool :=
  match row !! pk with
  | None | Some VNone => false
  | Some v => existsb (fun row' => bool_decide (row' !! pk = Some v)) rows
  end.

(** The first of the foreign keys [(column, other_table, other_column)]
    whose [other_table] is not a table of [db]. *)
Definition dangling_reference (db : Database)
    (foreign_keys : list (str * str * str)) : option (str * str * str) :=
  head (filter (fun fk => db !! fk.1.2 = None) foreign_keys).

(** Modelled from the spec: [sqlite_utils] is an external collaborator, so
    [Table.insert] follows the insert contract of the specification, and the
    rejection of a row that the specification lets the store make
    ([StoreInsertError], which propagates) is the one the engine makes for
    the calls of this program.  A table that does not exist is created on
    first use, and the engine refuses to create it, with [AlterError], when
    one of the foreign keys names a table that does not exist; nothing is
    written then.  Otherwise the row is added to the table (columns are
    added as new fields appear) unless a row with the same primary-key value
    is already there, in which case [ignore=True] leaves the table as it is
    and [ignore=False] is an error.  Once the table exists, foreign keys are
    declarations only.  Every call is logged, accepted or not.  Not
    modelled: what a column's type makes of a value inside the engine (rows
    are kept as handed over), tables whose foreign-key target column is
    missing (every table this program creates has the column
    WARC-Record-ID), and failures of the engine's resources. *)
Definition table_insert (c : InsertCall) : M unit := fun σ =>
  let db : Database := default ∅ (w_dbs σ !! ic_db c) in
  let σ1 := set_log (fun l => l ++ [c]) σ in
  match db !! ic_table c with
  | None =>
      match dangling_reference db (ic_foreign_keys c) with
      | Some fk => (Raise (AlterError fk.1.2 fk.2), σ1)
      | None =>
          (Return tt, set_dbs <[ic_db c := <[ic_table c := [ic_row c]]> db]> σ1)
      end
  | Some rows =>
      if pk_conflict (ic_pk c) (ic_row c) rows then
        if ic_ignore c then (Return tt, σ1)
        else (Raise (IntegrityError "UNIQUE constraint failed"), σ1)
      else
        (Return tt,
         set_dbs <[ic_db c := <[ic_table c := rows ++ [ic_row c]]> db]> σ1)
  end.

(** ** [WarcDB] *)

Record WarcDB := {
  _batch_size : Z;
  _records_table : str;
  _db : str                   (* the database file the connection is open on *)
}.

(** The object [WarcDB(path, batch_size=..)] builds. *)
Definition opened (path : str) (batch_size : option Z) : WarcDB :=
  {| _batch_size := default 1000%Z batch_size;
     _records_table := "records";
     _db := path |}.

(** [WarcDB(path, batch_size=.., records_table=..)].  [batch_size] is
    taken out of the keyword arguments with [pop]; [records_table] is read
    with [get] and stays among them, so it is passed on to
    [sqlite_utils.Database], which has no such parameter: a call that
    names a records table raises [TypeError] and builds no store. *)
Definition __init__ (path : str) (batch_size : option Z)
    (records_table : option str) : M WarcDB :=
  match records_table with
  | Some _ =>
      raise (TypeError "__init__() got an unexpected keyword argument 'records_table'")
  | None => mret (opened path batch_size)
  end.

(** [self.records.count]: the number of rows of the records table; counting
    a table that does not exist is an SQL error. *)
Definition __len__ (self : WarcDB) : M nat := fun σ =>
  match default ∅ (w_dbs σ !! _db self) !! _records_table self with
  | Some rows => (Return (length rows), σ)
  | None => (Raise (OperationalError "no such table"), σ)
  end.

Definition col_type_conversions : list (str * pytype) :=
  [("Content-Length", PyInt); ("payload", PyStr); ("WARC-Date", PyDatetime)].

Definition insert_call (self : WarcDB) (table : str) (row : Row)
    (foreign_keys : list (str * str * str)) : InsertCall :=
  {| ic_db := _db self; ic_table := table; ic_row := row;
     ic_pk := "WARC-Record-ID"; ic_foreign_keys := foreign_keys;
     ic_alter := true; ic_ignore := true;
     ic_columns := col_type_conversions |}.

(** The message of the [ValueError] for record type [t]. *)
Definition unsupported_message (t : str) : str :=
  str_app "Record type <"
    (str_app t
       (str_app "> is not supported"
                "Only [warcinfo, request, response, metadata, resource] are.")).

Definition __iadd__ (self : WarcDB) (r : ArcWarcRecord) : M WarcDB :=
  if decide (rec_type r = "warcinfo") then
    row ← record_as_dict r (kwargs [("with_payload", true)]);
    table_insert (insert_call self "warcinfo" row []);;
    mret self
  else if decide (rec_type r = "request") then
    row ← record_as_dict r (kwargs [("with_payload", true);
                                    ("with_http_headers", true)]);
    table_insert (insert_call self "request" row
      [("WARC-Warcinfo-ID", "warcinfo", "WARC-Record-ID")]);;
    mret self
  else if decide (rec_type r = "response") then
    row ← record_as_dict r (kwargs [("with_payload", true);
                                    ("with_http_headers", true)]);
    table_insert (insert_call self "response" row
      [("WARC-Warcinfo-ID", "warcinfo", "WARC-Record-ID");
       ("WARC-Concurrent-To", "request", "WARC-Record-ID")]);;
    mret self
  else if decide (rec_type r = "metadata") then
    row ← record_as_dict r (kwargs [("with_payload", true)]);
    table_insert (insert_call self "metadata" row
      [("WARC-Warcinfo-ID", "warcinfo", "WARC-Record-ID");
       ("WARC-Concurrent-To", "response", "WARC-Record-ID")]);;
    mret self
  else if decide (rec_type r = "resource") then
    row ← record_as_dict r (kwargs [("with_payload", true)]);
    table_insert (insert_call self "resource" row
      [("WARC-Warcinfo-ID", "warcinfo", "WARC-Record-ID");
       ("WARC-Concurrent-To", "metadata", "WARC-Record-ID")]);;
    mret self
  else
    raise (ValueError (unsupported_message (rec_type r))).

(** ** The [import] command *)

Inductive pyobj :=
  | PyNone
  | PyInteger (n : Z).

(** [open(f, 'rb')] followed by the archive parser: the records of the file,
    or [FileNotFoundError]. *)
Definition open_archive (f : str) : M (list RawRecord) := fun σ =>
  match w_files σ !! f with
  | Some raws => (Return raws, σ)
  | None => (Raise (FileNotFoundError f), σ)
  end.

(** [ArchiveIterator] makes a new record object, with its content stream
    unread, for every record it finds. *)
Definition mk_record (n : nat) (raw : RawRecord) : ArcWarcRecord :=
  {| rec_id := n; rec_type := raw_type raw; rec_headers := raw_headers raw;
     http_headers := raw_http_headers raw |}.

Definition ArchiveIterator_next (raw : RawRecord) : M ArcWarcRecord := fun σ =>
  (Return (mk_record (w_next σ) raw),
   set_next S (set_streams <[w_next σ := raw_payload raw]> σ)).

Definition print (r : ArcWarcRecord) : M unit :=
  modify (set_stdout (fun out => out ++ [r])).

Definition warn (msg : str) : M unit :=
  modify (set_warnings (fun ws => ws ++ [msg])).

(** The generator [to_import] and the loop [for r in to_import(): db += r],
    fused: each record is made, printed, and added before the next one is
    read; [db += r] rebinds [db] to what [__iadd__] returns. *)
Fixpoint import_records (db : WarcDB) (raws : list RawRecord) : M WarcDB :=
  match raws with
  | [] => mret db
  | raw :: rest =>
      record ← ArchiveIterator_next raw;
      print record;;
      db' ← __iadd__ db record;
      import_records db' rest
  end.

Fixpoint import_files (db : WarcDB) (warc_path : list str) : M WarcDB :=
  match warc_path with
  | [] => mret db
  | f :: fs =>
      raws ← open_archive f;
      db' ← import_records db raws;
      import_files db' fs
  end.

Definition import_ (db_path : str) (warc_path : list str)
    (batch_size : Z) : M pyobj :=
  db ← __init__ db_path (Some batch_size) None;
  (if bool_decide (batch_size ≠ 0%Z)
   then warn "--batch-size has been temporarily disabled"
   else mret tt);;
  import_files db warc_path;;
  mret PyNone.


(** ** Auxiliary definitions used in the statements *)

Definition empty_world : World :=
  {| w_streams := ∅; w_cache := ∅; w_dbs := ∅; w_log := []; w_files := ∅;
     w_next := 0; w_stdout := []; w_warnings := [] |}.

(** The table [t] of the database at [path], if it exists. *)
Definition lookup_table (σ : World) (path t : str) : option Table :=
  default ∅ (w_dbs σ !! path) !! t.

Definition supported_types : list str :=
  ["warcinfo"; "request"; "response"; "metadata"; "resource"].

(** The dispatch table as the specification gives it: for each record type
    whether the row carries [http_headers], and the foreign-key edges. *)
Definition dispatch_http (t : str) : bool :=
  bool_decide (t = "request" ∨ t = "response").

Definition dispatch_edges (t : str) : list (str * str * str) :=
  if decide (t = "warcinfo") then []
  else if decide (t = "request") then
    [("WARC-Warcinfo-ID", "warcinfo", "WARC-Record-ID")]
  else if decide (t = "response") then
    [("WARC-Warcinfo-ID", "warcinfo", "WARC-Record-ID");
     ("WARC-Concurrent-To", "request", "WARC-Record-ID")]
  else if decide (t = "metadata") then
    [("WARC-Warcinfo-ID", "warcinfo", "WARC-Record-ID");
     ("WARC-Concurrent-To", "response", "WARC-Record-ID")]
  else if decide (t = "resource") then
    [("WARC-Warcinfo-ID", "warcinfo", "WARC-Record-ID");
     ("WARC-Concurrent-To", "metadata", "WARC-Record-ID")]
  else [].

(** The call [__iadd__] makes of [record_as_dict] for a record of type [t]. *)
Definition dispatch_args (t : str) : CallArgs :=
  if dispatch_http t
  then kwargs [("with_payload", true); ("with_http_headers", true)]
  else kwargs [("with_payload", true)].

(** The row [record_as_dict] builds for [self] when the stream read (if any)
    gives [payload]. *)
Definition row_of (self : ArcWarcRecord) (with_http_headers : bool)
    (payload : option bytes) : Row :=
  let ret := dict_update ∅ (dict_of_pairs (headers (rec_headers self))) in
  let ret :=
    if with_http_headers then
      <["http_headers" :=
          match http_headers self with
          | Some h =>
              if StatusAndHeaders_bool h then VStr (headers_to_json h)
              else VNone
          | None => VNone
          end]> ret
    else ret in
  match payload with
  | Some b => <["payload" := VBytes b]> ret
  | None => ret
  end.

(** Every memoised row was built by [record_as_dict] for its key.  This
    holds in [empty_world] and is kept by every operation. *)
Definition cache_sound (σ : World) : Prop :=
  ∀ r a row, w_cache σ !! (r, a) = Some row →
    ∃ h p payload, bind_args a = Some (h, p) ∧
      row = row_of r h (if p then Some payload else None).

(** [for r in rs: db += r] *)
Fixpoint add_all (db : WarcDB) (rs : list ArcWarcRecord) : M WarcDB :=
  match rs with
  | [] => mret db
  | r :: rest => db' ← __iadd__ db r; add_all db' rest
  end.

(** What [record_as_dict] and reads of content streams leave alone. *)
Definition store_frame (σ σ' : World) : Prop :=
  w_dbs σ' = w_dbs σ ∧ w_log σ' = w_log σ ∧ w_files σ' = w_files σ ∧
  w_next σ' = w_next σ ∧ w_stdout σ' = w_stdout σ ∧
  w_warnings σ' = w_warnings σ.

(** The world once the generator has made and printed the record for [raw]. *)
Definition after_yield (raw : RawRecord) (σ : World) : World :=
  set_stdout (fun out => out ++ [mk_record (w_next σ) raw])
    (set_next S (set_streams <[w_next σ := raw_payload raw]> σ)).

(** The world [import_] starts its loop in: the warning, if any, is out. *)
Definition after_warning (batch_size : Z) (σ : World) : World :=
  if bool_decide (batch_size ≠ 0%Z)
  then set_warnings (fun ws => ws ++ ["--batch-size has been temporarily disabled"]) σ
  else σ.

(** Sample data for the examples. *)
Definition sample_headers (id : str) : StatusAndHeaders :=
  {| statusline := "WARC/1.0";
     headers := [("WARC-Type", "warcinfo"); ("WARC-Record-ID", id)];
     protocol := "WARC/1.0" |}.

Definition sample_record (n : nat) (t id : str) : ArcWarcRecord :=
  {| rec_id := n; rec_type := t; rec_headers := sample_headers id;
     http_headers := None |}.


Definition sample_raw (t id : str) (payload : bytes) : RawRecord :=
  {| raw_type := t; raw_headers := sample_headers id;
     raw_http_headers := None; raw_payload := payload |}.

Definition sample_world (raws : list RawRecord) : World :=
  {| w_streams := ∅; w_cache := ∅; w_dbs := ∅; w_log := [];
     w_files := {["a.warc" := raws]}; w_next := 0; w_stdout := [];
     w_warnings := [] |}.

(** The value [dict(pairs)] keeps for key [k]: that of its last occurrence. *)
Fixpoint last_value (k : str) (pairs : list (str * str)) : option str :=
  match pairs with
  | [] => None
  | (k', v) :: rest =>
      match last_value k rest with
      | Some v' => Some v'
      | None => if decide (k' = k) then Some v else None
      end
  end.

(** The record carries a WARC-Record-ID header, as the WARC format and the
    data model of the specification require. *)
Definition has_record_id (r : ArcWarcRecord) : Prop :=
  is_Some (last_value "WARC-Record-ID" (headers (rec_headers r))).

Definition raw_has_record_id (raw : RawRecord) : Prop :=
  is_Some (last_value "WARC-Record-ID" (headers (raw_headers raw))).

(** Table [t] of the database at [path] holds a row whose WARC-Record-ID is [id]. *)
Definition present (σ : World) (path t id : str) : Prop :=
  ∃ row, row ∈ default [] (lookup_table σ path t) ∧
         row !! "WARC-Record-ID" = Some (VStr id).

(** [r'] is the same archive record as [r], read again: the same object, or
    a new object the parser made from the same bytes. *)
Definition same_record (r r' : ArcWarcRecord) : Prop :=
  rec_type r' = rec_type r ∧
  headers (rec_headers r') = headers (rec_headers r).

(** Every archive named exists and holds only records of supported types
    that carry a WARC-Record-ID. *)
Definition archives_ok (σ : World) (warc_path : list str) : Prop :=
  Forall (fun f => ∃ raws, w_files σ !! f = Some raws ∧
            Forall (fun raw => raw_type raw ∈ supported_types ∧
                               raw_has_record_id raw) raws) warc_path.

(** The reading of the adapter under which every header pair of the record
    appears in the row. *)
Definition keeps_every_header : Prop :=
  ∀ r a σ row σ',
    cache_sound σ → record_as_dict r a σ = (Return row, σ') →
    ∀ k v, (k, v) ∈ headers (rec_headers r) → row !! k = Some (VStr v).

(** The reading of the memoisation under which two calls with the same
    record and the same flags share one conversion, however the flags are
    written in the call. *)
Definition memoised_per_flags : Prop :=
  ∀ r a1 a2 flags σ row σ1,
    bind_args a1 = Some flags → bind_args a2 = Some flags →
    record_as_dict r a1 σ = (Return row, σ1) →
    record_as_dict r a2 σ1 = (Return row, σ1).

Definition repeated_headers_record : ArcWarcRecord :=
  {| rec_id := 0; rec_type := "response";
     rec_headers :=
       {| statusline := "WARC/1.0";
          headers := [("WARC-Record-ID", "<urn:uuid:5>");
                      ("WARC-Concurrent-To", "<urn:uuid:3>");
                      ("WARC-Concurrent-To", "<urn:uuid:4>")];
          protocol := "WARC/1.0" |};
     http_headers := None |}.

(** A world holding one unread record object with content ["abc"]. *)
Definition one_stream_world : World :=
  {| w_streams := {[0 := "abc"%string]}; w_cache := ∅; w_dbs := ∅; w_log := [];
     w_files := ∅; w_next := 1; w_stdout := []; w_warnings := [] |}.

(** Every archive named exists and holds only records of supported types. *)
Definition archives_supported (σ : World) (warc_path : list str) : Prop :=
  Forall (fun f => ∃ raws, w_files σ !! f = Some raws ∧
            Forall (fun raw => raw_type raw ∈ supported_types) raws) warc_path.

(** The records of the archives, files in the order given, records in file
    order. *)
Definition all_records (σ : World) (warc_path : list str) : list RawRecord :=
  flat_map (fun f => default [] (w_files σ !! f)) warc_path.

(** The reading of the driver under which it returns the number of records
    it processed. *)
Definition import_returns_count : Prop :=
  ∀ db_path warc_path batch_size σ,
    archives_supported σ warc_path →
    ∃ σ', import_ db_path warc_path batch_size σ
          = (Return (PyInteger (Z.of_nat (length (all_records σ warc_path)))), σ').

(** The reading of the batch-size option under which the warning is issued
    for every value. *)
Definition import_always_warns : Prop :=
  ∀ db_path warc_path batch_size σ,
    w_warnings (import_ db_path warc_path batch_size σ).2
    = w_warnings σ ++ ["--batch-size has been temporarily disabled"].

(** The exception an outcome carries, if any. *)
Definition raised {A} (o : outcome A) : option exn :=
  match o with
  | Return _ => None
  | Raise e => Some e
  end.

(** ** Decoding a stored [http_headers] value

    [[(d['header'], d['value']) for d in json.loads(s)]]: a JSON object
    becomes a [dict], so of two members with the same key the later wins. *)
Fixpoint dict_get (members : list (str * json)) (k : str) : option json :=
  match members with
  | [] => None
  | (k', v) :: rest =>
      match dict_get rest k with
      | Some v' => Some v'
      | None => if decide (k' = k) then Some v else None
      end
  end.

Definition decode_pair (item : json) : option (str * str) :=
  match item with
  | JObject members =>
      match dict_get members "header", dict_get members "value" with
      | Some (JString h), Some (JString v) => Some (h, v)
      | _, _ => None
      end
  | _ => None
  end.

Definition decode_headers (s : str) : option (list (str * str)) :=
  match loads s with
  | Some (JArray items) => mapM decode_pair items
  | _ => None
  end.

(** The JSON object [headers_to_json] writes for one header pair. *)
Definition header_object (hv : str * str) : json :=
  JObject [("header", JString hv.1); ("value", JString hv.2)].

(** The text [dumps] writes between the brackets for a list of header
    objects. *)
Definition items_chars (hvs : list (str * str)) : list N :=
  join (chars ", ") (map dumps_chars (map header_object hvs)).

(** The request of the specification's example, with HTTP headers
    User-Agent: x and Accept: */*. *)
Definition sample_request : ArcWarcRecord :=
  {| rec_id := 0; rec_type := "request";
     rec_headers :=
       {| statusline := "WARC/1.0";
          headers := [("WARC-Type", "request");
                      ("WARC-Record-ID", "<urn:uuid:7>")];
          protocol := "WARC/1.0" |};
     http_headers :=
       Some {| statusline := "GET / HTTP/1.1";
               headers := [("User-Agent", "x"); ("Accept", "*/*")];
               protocol := "HTTP/1.1" |} |}.

(** An archive with a record of an unsupported type between two supported
    ones. *)
Definition mixed_archive : list RawRecord :=
  [sample_raw "warcinfo" "<urn:uuid:1>" "software: x";
   sample_raw "revisit" "<urn:uuid:2>" "";
   sample_raw "request" "<urn:uuid:3>" "GET / HTTP/1.1"].

Definition clean_archive : list RawRecord :=
  [sample_raw "warcinfo" "<urn:uuid:1>" "software: x";
   sample_raw "request" "<urn:uuid:3>" "GET / HTTP/1.1"].

(** ** Further definitions: accessors, JSON of a record, invariants *)

(** The accessors of [WarcDB]: [db] is the connection, [table] a handle on
    a table of it (the database path and the table name), and [records],
    [http_headers] and [payloads] the handles of the tables so named. *)
Module Accessors.

Definition db (self : WarcDB) : str := _db self.

Definition table (self : WarcDB) (table_name : str) : str * str :=
  (db self, table_name).

Definition records (self : WarcDB) : str * str :=
  table self (_records_table self).

Definition http_headers (self : WarcDB) : str * str :=
  table self "http_headers".

Definition payloads (self : WarcDB) : str * str :=
  table self "payloads".

End Accessors.

(** The table a handle points to. *)
Definition handle_table (σ : World) (handle : str * str) : option Table :=
  lookup_table σ handle.1 handle.2.

(** Every table of [σ] is still there in [σ'], with the same rows in the
    same order and possibly more after them. *)
Definition tables_grow (σ σ' : World) : Prop :=
  ∀ path t rows, lookup_table σ path t = Some rows →
    ∃ added, lookup_table σ' path t = Some (rows ++ added).

(** The keys of [dict(pairs)] in the order Python keeps them: each key at
    the place of its first occurrence. *)
Fixpoint dict_keys (pairs : list (str * str)) : list str :=
  match pairs with
  | [] => []
  | (k, _) :: rest => k :: filter (fun k' => k' ≠ k) (dict_keys rest)
  end.

(** The items of a row that [record_as_dict] built for [self], in the
    insertion order of the Python [dict]: the header names, then
    http_headers and payload where they are keys of their own. *)
Definition key_order (self : ArcWarcRecord) : list str :=
  let ks := dict_keys (headers (rec_headers self)) in
  ks ++ filter (fun k => k ∉ ks) ["http_headers"; "payload"].

Definition row_items (self : ArcWarcRecord) (row : Row) : list (str * value) :=
  omap (fun k => pair k <$> row !! k) (key_order self).

(** What [json.dumps] makes of a value of a row; [bytes] are not JSON
    serializable. *)
Definition json_of_value (v : value) : option json :=
  match v with
  | VNone => Some JNull
  | VStr s => Some (JString s)
  | VBytes _ => None
  end.

(** [dumps(self.as_dict())] *)
Definition record_to_json (self : ArcWarcRecord) : M str :=
  row ← record_as_dict self (kwargs []);
  match mapM (fun kv => pair kv.1 <$> json_of_value kv.2) (row_items self row) with
  | Some members => mret (dumps (JObject members))
  | None => raise (TypeError "Object of type bytes is not JSON serializable")
  end.

(** No memo entry is about an object that [ArchiveIterator] has yet to
    make. *)
Definition ids_fresh (σ : World) : Prop :=
  ∀ r a, is_Some (w_cache σ !! (r, a)) → rec_id r < w_next σ.

(** The insert call [__iadd__] makes for a record an import has just read
    from an archive: the row has the header fields, the HTTP headers where
    the type has them, and the whole payload.  (A row does not depend on
    the identity of the record object, so identity 0 stands for any.) *)
Definition import_call (db : WarcDB) (raw : RawRecord) : InsertCall :=
  insert_call db (raw_type raw)
    (row_of (mk_record 0 raw) (dispatch_http (raw_type raw))
            (Some (raw_payload raw)))
    (dispatch_edges (raw_type raw)).

(** The printable ASCII characters, space to tilde. *)
Definition printable (c : N) : Prop :=
  (32 ≤ c ≤ 126)%N.

Definition printableb (c : N) : bool :=
  ((32 <=? c) && (c <=? 126))%N.

(** A JSON object member whose value is a string. *)
Definition string_member (kv : str * str) : str * json :=
  (kv.1, JString kv.2).

(** The text [dumps] writes between the braces for members with string
    values. *)
Definition members_chars (kvs : list (str * str)) : list N :=
  join (chars ", ")
       (map (fun kv => encode_string kv.1 ++ chars ": " ++ encode_string kv.2) kvs).

(** The items of [dict(pairs)] in Python's order: each key once, at the
    place of its first occurrence, with the value of its last. *)
Definition dict_items (pairs : list (str * str)) : list (str * str) :=
  omap (fun k => pair k <$> last_value k pairs) (dict_keys pairs).

(** Every supported record of the archives named carries a
    WARC-Record-ID (archives that are missing, and records of other types,
    are not constrained). *)
Definition archives_identified (σ : World) (warc_path : list str) : Prop :=
  Forall (fun f => ∀ raws, w_files σ !! f = Some raws →
            Forall (fun raw => raw_type raw ∈ supported_types →
                               raw_has_record_id raw) raws) warc_path.

(** Everything present in [σ] is present in [σ']. *)
Definition presence_kept (σ σ' : World) : Prop :=
  ∀ path t id, present σ path t id → present σ' path t id.


(** The foreign key, if any, on which the engine refuses an insert into
    table [t] of the database at [path] for a record of type [t]: none
    when the table exists, and otherwise the first edge of the dispatch
    table whose referenced table does not exist. *)
Definition unmet_reference (σ : World) (path t : str) : option (str * str * str) :=
  match lookup_table σ path t with
  | Some _ => None
  | None => dangling_reference (default ∅ (w_dbs σ !! path)) (dispatch_edges t)
  end.

(** The reading of the router under which every record of a supported type
    is added and the store object returned. *)
Definition iadd_always_returns : Prop :=
  ∀ self r σ, rec_type r ∈ supported_types →
    ∃ σ', __iadd__ self r σ = (Return self, σ').

(** Two archives: a warcinfo and a request record in the first, a response
    record in the second. *)
Definition two_file_world : World :=
  {| w_streams := ∅; w_cache := ∅; w_dbs := ∅; w_log := [];
     w_files := {["a.warc" := clean_archive;
                  "b.warc" := [sample_raw "response" "<urn:uuid:4>" "HTTP/1.1 200 OK"]]};
     w_next := 0; w_stdout := []; w_warnings := [] |}.

(** Every number from [n] on, [fuel] of them, passes the test [P]. *)
Fixpoint all_from (fuel : nat) (n : N) (P : N → bool) : bool :=
  match fuel with
  | O => true
  | S fuel => P n && all_from fuel (N.succ n) P
  end.

(** The text [s] begins with the \uXXXX escape of a low surrogate (or with
    a \u that no four hex digits follow). *)
Definition starts_low (s : list N) : bool :=
  match s with
  | b :: u :: k1 :: k2 :: k3 :: k4 :: _ =>
      ((b =? 92) && (u =? 117))%N &&
      match decode_uXXXX k1 k2 k3 k4 with
      | Some uni2 => low_surrogate uni2
      | None => true
      end
  | _ => false
  end.

(** A [str] that [json.loads] gives back as [json.dumps] got it: its code
    points are code points, and no high surrogate stands immediately before
    a low surrogate (the decoder joins such a pair into one code point).
    Text decoded from bytes holds no surrogate at all. *)
Definition round_trips (s : str) : Prop :=
  Forall code_point (chars s) ∧ no_surrogate_pair (chars s).

(** Every name and value of the header pairs is given back by
    [json.loads] as [json.dumps] got it. *)
Definition pairs_round_trip (hvs : list (str * str)) : Prop :=
  Forall (fun hv => round_trips hv.1 ∧ round_trips hv.2) hvs.

(** The reading of the adapter under which the row of every record that
    has an HTTP envelope carries the serialisation of the envelope. *)
Definition serialises_every_envelope : Prop :=
  ∀ r a p σ row σ' e,
    cache_sound σ → bind_args a = Some (true, p) →
    http_headers r = Some e →
    record_as_dict r a σ = (Return row, σ') →
    row !! "http_headers" = Some (VStr (headers_to_json e)).

(** A response whose HTTP envelope has an empty status line and no header. *)
Definition empty_envelope_record : ArcWarcRecord :=
  {| rec_id := 0; rec_type := "response";
     rec_headers := sample_headers "<urn:uuid:6>";
     http_headers := Some {| statusline := ""; headers := []; protocol := "" |} |}.

(** The reading of the round trip under which it holds of every request
    record that has an HTTP envelope: the http_headers value of the row
    handed to the store decodes to the header pairs of the envelope. *)
Definition stored_headers_round_trip : Prop :=
  ∀ self r e σ,
    cache_sound σ → rec_type r = "request" → http_headers r = Some e →
    ∃ row s,
      w_log (__iadd__ self r σ).2 = w_log σ ++
        [insert_call self "request" row
           [("WARC-Warcinfo-ID", "warcinfo", "WARC-Record-ID")]] ∧
      row !! "http_headers" = Some (VStr s) ∧
      decode_headers s = Some (headers e).

(** A request with one HTTP header whose value is the two surrogate code
    points [0xD83D] and [0xDE00]. *)
Definition surrogate_request : ArcWarcRecord :=
  {| rec_id := 0; rec_type := "request";
     rec_headers := sample_headers "<urn:uuid:8>";
     http_headers :=
       Some {| statusline := "GET / HTTP/1.1";
               headers := [("X-Note", Str [55357%N; 56832%N])];
               protocol := "HTTP/1.1" |} |}.

(** The world after a warcinfo record has been added to the database
    a.warcdb of the empty world. *)
Definition warcinfo_world : World :=
  (__iadd__ (opened "a.warcdb" None)
            (sample_record 0 "warcinfo" "<urn:uuid:1>") empty_world).2.
(** * Properties *)

Ltac run := unfold mbind, M_bind, mret, M_ret, modify, raise in *.

Lemma record_as_dict_hit r a σ row :
  w_cache σ !! (r, a) = Some row → record_as_dict r a σ = (Return row, σ).
Proof. intros H. unfold record_as_dict. by rewrite H. Qed.

Lemma record_as_dict_miss r a σ h p :
  w_cache σ !! (r, a) = None → bind_args a = Some (h, p) →
  let payload := default ""%string (w_streams σ !! rec_id r) in
  let row := row_of r h (if p then Some payload else None) in
  record_as_dict r a σ =
    (Return row,
     set_cache <[(r, a) := row]>
       (if p then set_streams <[rec_id r := ""%string]> σ else σ)).
Proof.
  intros Hc Hb. unfold record_as_dict. rewrite Hc, Hb.
  unfold record_as_dict_body, row_of, content_stream_read. run.
  destruct p, h; destruct (http_headers r) as [e|];
    try destruct (StatusAndHeaders_bool e); reflexivity.
Qed.

Lemma store_frame_refl σ : store_frame σ σ.
Proof. by repeat split. Qed.

Lemma bind_args_dispatch t :
  bind_args (dispatch_args t) = Some (dispatch_http t, true).
Proof. unfold dispatch_args. by destruct (dispatch_http t). Qed.

(** [record_as_dict] returns a row whenever the call binds, touching only
    the memo table and the streams. *)
Lemma record_as_dict_returns r a σ h p :
  bind_args a = Some (h, p) →
  ∃ row σ', record_as_dict r a σ = (Return row, σ') ∧ store_frame σ σ' ∧
    w_cache σ' !! (r, a) = Some row ∧ w_cache σ ⊆ w_cache σ'.
Proof.
  intros Hb. destruct (w_cache σ !! (r, a)) as [row|] eqn:Hc.
  - exists row, σ. rewrite (record_as_dict_hit _ _ _ _ Hc).
    split_and!; [done | apply store_frame_refl | done | done].
  - eexists _, _. rewrite (record_as_dict_miss _ _ _ _ _ Hc Hb).
    split_and!; [done | by destruct p | by simpl; rewrite lookup_insert_eq |].
    destruct p; simpl; by apply insert_subseteq.
Qed.

(** In a world with a sound memo table the row is the one the body builds. *)
Lemma record_as_dict_sound r a σ h p :
  cache_sound σ → bind_args a = Some (h, p) →
  ∃ payload σ',
    record_as_dict r a σ =
      (Return (row_of r h (if p then Some payload else None)), σ') ∧
    store_frame σ σ' ∧ cache_sound σ' ∧ w_cache σ ⊆ w_cache σ'.
Proof.
  intros Hs Hb. destruct (w_cache σ !! (r, a)) as [row|] eqn:Hc.
  - destruct (Hs _ _ _ Hc) as (h' & p' & payload & Hb' & ->).
    rewrite Hb in Hb'. injection Hb' as <- <-.
    exists payload, σ. rewrite (record_as_dict_hit _ _ _ _ Hc).
    split_and!; [done | apply store_frame_refl | done | done].
  - eexists _, _. rewrite (record_as_dict_miss _ _ _ _ _ Hc Hb).
    split_and!; [done | by destruct p | |].
    + intros r' a' row' Hl.
      assert (w_cache (if p then set_streams <[rec_id r := ""%string]> σ else σ)
              = w_cache σ) as Hw by (by destruct p).
      simpl in Hl. rewrite Hw in Hl.
      apply lookup_insert_Some in Hl as [[[= <- <-] <-] | [_ Hl]]; [| by apply Hs].
      exists h, p, (default ""%string (w_streams σ !! rec_id r)). by split.
    + destruct p; simpl; by apply insert_subseteq.
Qed.

Lemma iadd_supported self r :
  rec_type r ∈ supported_types →
  __iadd__ self r =
    (row ← record_as_dict r (dispatch_args (rec_type r));
     table_insert (insert_call self (rec_type r) row
                     (dispatch_edges (rec_type r)));;
     mret self).
Proof.
  unfold supported_types. rewrite !elem_of_cons, elem_of_nil.
  unfold __iadd__. intros [H | [H | [H | [H | [H | []]]]]]; rewrite H; reflexivity.
Qed.

Lemma iadd_unsupported self r :
  rec_type r ∉ supported_types →
  __iadd__ self r =
    raise (ValueError (unsupported_message (rec_type r))).
Proof.
  unfold supported_types. rewrite !not_elem_of_cons. intros (? & ? & ? & ? & ? & _).
  unfold __iadd__. by repeat case_decide.
Qed.

(** The effect of one insert-or-ignore call on the world: the call is
    logged; the engine refuses it when the table has to be created and a
    foreign key names a table that does not exist, and nothing is written
    then; otherwise the row is appended unless it conflicts. *)
Lemma table_insert_ignore c σ :
  ic_ignore c = true →
  ∃ o σ', table_insert c σ = (o, σ') ∧
    w_log σ' = w_log σ ++ [c] ∧
    w_cache σ' = w_cache σ ∧ w_streams σ' = w_streams σ ∧
    w_files σ' = w_files σ ∧ w_next σ' = w_next σ ∧
    w_stdout σ' = w_stdout σ ∧ w_warnings σ' = w_warnings σ ∧
    (∀ path t, path ≠ ic_db c ∨ t ≠ ic_table c →
       lookup_table σ' path t = lookup_table σ path t) ∧
    match lookup_table σ (ic_db c) (ic_table c) with
    | None =>
        match dangling_reference (default ∅ (w_dbs σ !! ic_db c))
                                 (ic_foreign_keys c) with
        | Some fk => o = Raise (AlterError fk.1.2 fk.2) ∧ w_dbs σ' = w_dbs σ
        | None =>
            o = Return tt ∧
            lookup_table σ' (ic_db c) (ic_table c) = Some [ic_row c]
        end
    | Some rows =>
        o = Return tt ∧
        if pk_conflict (ic_pk c) (ic_row c) rows
        then w_dbs σ' = w_dbs σ
        else lookup_table σ' (ic_db c) (ic_table c) = Some (rows ++ [ic_row c])
    end.
Proof.
  intros Hi. unfold table_insert, lookup_table. rewrite Hi.
  assert (∀ rows' : Table,
    let σ2 := set_dbs <[ic_db c := <[ic_table c := rows']>
                          (default ∅ (w_dbs σ !! ic_db c))]>
                (set_log (fun l => l ++ [c]) σ) in
    (∀ path t, path ≠ ic_db c ∨ t ≠ ic_table c →
       default ∅ (w_dbs σ2 !! path) !! t = default ∅ (w_dbs σ !! path) !! t) ∧
    default ∅ (w_dbs σ2 !! ic_db c) !! ic_table c = Some rows') as Hset.
  { intros rows'. simpl. split.
    - intros path t Hne. destruct (decide (path = ic_db c)) as [-> | Hp].
      + rewrite lookup_insert_eq. simpl. destruct Hne as [? | Ht]; [done |].
        by rewrite lookup_insert_ne.
      + by rewrite lookup_insert_ne.
    - rewrite lookup_insert_eq. simpl. by rewrite lookup_insert_eq. }
  destruct (default ∅ (w_dbs σ !! ic_db c) !! ic_table c) as [rows |] eqn:Ht.
  - destruct (pk_conflict _ _ _) eqn:Hc.
    + eexists _, _. split; [reflexivity |]. simpl. by split_and!.
    + eexists _, _. split; [reflexivity |].
      destruct (Hset (rows ++ [ic_row c])) as [Ho Hd]. simpl in *. by split_and!.
  - destruct (dangling_reference _ _) as [fk |] eqn:Hfk.
    + eexists _, _. split; [reflexivity |]. simpl. by split_and!.
    + eexists _, _. split; [reflexivity |].
      destruct (Hset [ic_row c]) as [Ho Hd]. simpl in *. by split_and!.
Qed.

Lemma pk_conflict_nil pk row : pk_conflict pk row [] = false.
Proof. unfold pk_conflict. by destruct (row !! pk) as [[] |]. Qed.

(** What [__iadd__] does with a record of a supported type. *)
Lemma iadd_supported_effect self r σ :
  rec_type r ∈ supported_types →
  ∃ row o σ',
    __iadd__ self r σ = (o, σ') ∧
    w_log σ' = w_log σ ++
      [insert_call self (rec_type r) row (dispatch_edges (rec_type r))] ∧
    (∀ path t, path ≠ _db self ∨ t ≠ rec_type r →
       lookup_table σ' path t = lookup_table σ path t) ∧
    match unmet_reference σ (_db self) (rec_type r) with
    | Some fk => o = Raise (AlterError fk.1.2 fk.2) ∧ w_dbs σ' = w_dbs σ
    | None =>
        o = Return self ∧
        let rows := default [] (lookup_table σ (_db self) (rec_type r)) in
        if pk_conflict "WARC-Record-ID" row rows
        then w_dbs σ' = w_dbs σ
        else lookup_table σ' (_db self) (rec_type r) = Some (rows ++ [row])
    end ∧
    w_cache σ' !! (r, dispatch_args (rec_type r)) = Some row ∧
    w_cache σ ⊆ w_cache σ' ∧
    (w_files σ' = w_files σ ∧ w_next σ' = w_next σ ∧
     w_stdout σ' = w_stdout σ ∧ w_warnings σ' = w_warnings σ) ∧
    (cache_sound σ →
       cache_sound σ' ∧
       ∃ payload, row = row_of r (dispatch_http (rec_type r)) (Some payload)).
Proof.
  intros Hsup. rewrite (iadd_supported _ _ Hsup).
  destruct (record_as_dict_returns r _ σ _ _ (bind_args_dispatch (rec_type r)))
    as (row & σ1 & Hrun & (Hdbs & Hlog & Hfiles & Hnext & Hout & Hwarn) & Hhit & Hsub).
  destruct (table_insert_ignore
              (insert_call self (rec_type r) row (dispatch_edges (rec_type r))) σ1 eq_refl)
    as (o & σ2 & Hins & Hlog2 & Hc2 & _ & Hf2 & Hn2 & Ho2 & Hw2 & Hother & Hdest).
  assert (∀ path t, lookup_table σ1 path t = lookup_table σ path t) as Heq.
  { intros. unfold lookup_table. by rewrite Hdbs. }
  exists row, (match o with Return _ => Return self | Raise e => Raise e end), σ2.
  run. rewrite Hrun, Hins. simpl in *.
  split_and!.
  - by destruct o.
  - by rewrite Hlog2, Hlog.
  - intros path t Hne. by rewrite Hother, Heq.
  - unfold unmet_reference. rewrite Heq, Hdbs in Hdest.
    destruct (lookup_table σ (_db self) (rec_type r)) as [rows |].
    + destruct Hdest as [-> Hdest]. split; [done |]. simpl.
      destruct (pk_conflict _ _ _); [by rewrite Hdest | done].
    + destruct (dangling_reference _ _) as [fk |].
      * destruct Hdest as [-> Hdest]. by rewrite Hdest.
      * destruct Hdest as [-> Hdest]. split; [done |]. simpl.
        by rewrite pk_conflict_nil.
  - by rewrite Hc2.
  - by rewrite Hc2.
  - congruence.
  - congruence.
  - congruence.
  - congruence.
  - intros Hs.
    destruct (record_as_dict_sound r _ σ _ _ Hs (bind_args_dispatch (rec_type r)))
      as (payload & σ1' & Hrun' & _ & Hs1 & _).
    rewrite Hrun in Hrun'. injection Hrun' as -> <-.
    split; [| by exists payload].
    intros r' a' row' Hl. rewrite Hc2 in Hl. by apply Hs1.
Qed.

(** C1 (as amended).  For a record of one of the five supported types,
    [__iadd__] makes exactly one insert call: into the table named after
    the record type, on the primary key WARC-Record-ID, with
    ignore-on-conflict and the foreign-key edges of the dispatch table.
    Every other table of every database is left as it was.  The call
    returns the store object it was given, and the destination table gains
    at most one row, unless the engine refuses the insert: that
    happens when the destination table does not exist yet and one of the
    edges names a table that does not exist either, and then the engine's
    [AlterError] propagates and the destination table is still missing. *)
Theorem iadd_routes_supported (self : WarcDB) (r : ArcWarcRecord) (σ : World) :
  rec_type r ∈ supported_types →
  ∃ row o σ',
    __iadd__ self r σ = (o, σ') ∧
    w_log σ' = w_log σ ++
      [{| ic_db := _db self; ic_table := rec_type r; ic_row := row;
          ic_pk := "WARC-Record-ID";
          ic_foreign_keys := dispatch_edges (rec_type r);
          ic_alter := true; ic_ignore := true;
          ic_columns := col_type_conversions |}] ∧
    (∀ path t, path ≠ _db self ∨ t ≠ rec_type r →
       lookup_table σ' path t = lookup_table σ path t) ∧
    match unmet_reference σ (_db self) (rec_type r) with
    | Some fk =>
        o = Raise (AlterError fk.1.2 fk.2) ∧
        lookup_table σ (_db self) (rec_type r) = None ∧
        lookup_table σ' (_db self) (rec_type r) = None
    | None =>
        o = Return self ∧
        let rows := default [] (lookup_table σ (_db self) (rec_type r)) in
        if pk_conflict "WARC-Record-ID" row rows
        then lookup_table σ' (_db self) (rec_type r)
             = lookup_table σ (_db self) (rec_type r)
        else ∃ stored,
               lookup_table σ' (_db self) (rec_type r) = Some (rows ++ [stored])
    end.
Proof.
  intros Hsup.
  destruct (iadd_supported_effect self r σ Hsup)
    as (row & o & σ' & Hrun & Hlog & Hother & Hdest & _).
  exists row, o, σ'. split_and!; try done.
  unfold unmet_reference in *.
  destruct (lookup_table σ (_db self) (rec_type r)) as [rows |] eqn:Ht.
  - destruct Hdest as [-> Hdest]. split; [done |]. simpl in *.
    destruct (pk_conflict _ _ _); [| by exists row].
    unfold lookup_table in *. by rewrite Hdest.
  - destruct (dangling_reference _ _) as [fk |].
    + destruct Hdest as [-> Hdest]. split_and!; [done | done |].
      unfold lookup_table in *. by rewrite Hdest.
    + destruct Hdest as [-> Hdest]. split; [done |]. simpl in *.
      rewrite pk_conflict_nil in *. by exists row.
Qed.

Lemma iadd_routes_supported_witness :
  rec_type (sample_record 0 "warcinfo" "<urn:uuid:1>") ∈ supported_types ∧
  ∃ stored σ',
    __iadd__ (opened "a.warcdb" None)
             (sample_record 0 "warcinfo" "<urn:uuid:1>") empty_world
      = (Return (opened "a.warcdb" None), σ') ∧
    lookup_table σ' "a.warcdb" "warcinfo" = Some [stored].
Proof.
  assert (rec_type (sample_record 0 "warcinfo" "<urn:uuid:1>") ∈ supported_types)
    as Hsup by (unfold supported_types; simpl; apply list_elem_of_here).
  split; [exact Hsup |].
  destruct (iadd_routes_supported (opened "a.warcdb" None)
              (sample_record 0 "warcinfo" "<urn:uuid:1>") empty_world Hsup)
    as (row & o & σ' & Hrun & Hlog & Hother & Hdest).
  change (unmet_reference empty_world (_db (opened "a.warcdb" None))
            (rec_type (sample_record 0 "warcinfo" "<urn:uuid:1>")))
    with (@None (str * str * str)) in Hdest.
  destruct Hdest as [-> Hdest].
  simpl in Hdest. unfold lookup_table in Hdest at 1. simpl in Hdest.
  rewrite lookup_empty in Hdest. simpl in Hdest.
  rewrite pk_conflict_nil in Hdest. destruct Hdest as [stored Hstored].
  exists stored, σ'. split; [exact Hrun | exact Hstored].
Defined.

(** C1, counterexample.  A request record added to a database that has no
    table yet is not stored and the store is not returned: the engine
    cannot create the request table, whose foreign key names the missing
    warcinfo table, and its [AlterError] propagates. *)
Lemma iadd_request_before_warcinfo_raises : ¬ iadd_always_returns.
Proof.
  intros H.
  destruct (H (opened "a.warcdb" None) (sample_record 0 "request" "<urn:uuid:3>")
              empty_world) as (σ' & Hrun).
  { unfold supported_types. simpl. apply list_elem_of_further, list_elem_of_here. }
  apply (f_equal fst) in Hrun. vm_compute in Hrun. discriminate Hrun.
Qed.

(** ** The import loop *)

Lemma import_records_cons db raw rest σ :
  import_records db (raw :: rest) σ =
    match __iadd__ db (mk_record (w_next σ) raw) (after_yield raw σ) with
    | (Return db', σ') => import_records db' rest σ'
    | (Raise e, σ') => (Raise e, σ')
    end.
Proof. reflexivity. Qed.

Lemma import_records_app db pre post σ :
  import_records db (pre ++ post) σ =
    match import_records db pre σ with
    | (Return db', σ') => import_records db' post σ'
    | (Raise e, σ') => (Raise e, σ')
    end.
Proof.
  revert db σ. induction pre as [| raw pre IH]; intros db σ; [done |].
  rewrite <- app_comm_cons, !import_records_cons.
  destruct (__iadd__ _ _ _) as [[db' | e] σ']; [apply IH | done].
Qed.

Lemma import_files_cons db f fs σ :
  import_files db (f :: fs) σ =
    match w_files σ !! f with
    | Some raws =>
        match import_records db raws σ with
        | (Return db', σ') => import_files db' fs σ'
        | (Raise e, σ') => (Raise e, σ')
        end
    | None => (Raise (FileNotFoundError f), σ)
    end.
Proof.
  simpl. run. unfold open_archive. by destruct (w_files σ !! f).
Qed.

Lemma import_files_app db fs1 fs2 σ :
  import_files db (fs1 ++ fs2) σ =
    match import_files db fs1 σ with
    | (Return db', σ') => import_files db' fs2 σ'
    | (Raise e, σ') => (Raise e, σ')
    end.
Proof.
  revert db σ. induction fs1 as [| f fs1 IH]; intros db σ; [done |].
  rewrite <- app_comm_cons, !import_files_cons.
  destruct (w_files σ !! f); [| done].
  destruct (import_records _ _ _) as [[db' | e] σ']; [apply IH | done].
Qed.

Lemma import_unfold db_path warc_path batch_size σ :
  import_ db_path warc_path batch_size σ =
    match import_files (opened db_path (Some batch_size)) warc_path
            (after_warning batch_size σ) with
    | (Return _, σ') => (Return PyNone, σ')
    | (Raise e, σ') => (Raise e, σ')
    end.
Proof.
  unfold import_, __init__, after_warning. run. unfold warn. run.
  by destruct (bool_decide _).
Qed.

(** C3.  A record whose type is not one of the five supported ones makes
    [__iadd__] raise [ValueError] before anything is converted or inserted:
    the world after the failed call is the world before it.  The import
    loop does not catch the error: the run ends at that record with the
    store as the records before it left it, and neither the records after
    it nor the files after its file are read. *)
Theorem iadd_rejects_unsupported (self : WarcDB) (r : ArcWarcRecord) (σ : World) :
  rec_type r ∉ supported_types →
  __iadd__ self r σ = (Raise (ValueError (unsupported_message (rec_type r))), σ) ∧
  (∀ pre post (raw : RawRecord) db db1 σ0 σ1,
     raw_type raw = rec_type r →
     import_records db pre σ0 = (Return db1, σ1) →
     import_records db (pre ++ raw :: post) σ0 =
       (Raise (ValueError (unsupported_message (rec_type r))), after_yield raw σ1)) ∧
  (∀ db_path batch_size fs1 f fs2 pre post (raw : RawRecord) db1 db2 σ0 σ1 σ2,
     raw_type raw = rec_type r →
     import_files (opened db_path (Some batch_size)) fs1
                  (after_warning batch_size σ0) = (Return db1, σ1) →
     w_files σ1 !! f = Some (pre ++ raw :: post) →
     import_records db1 pre σ1 = (Return db2, σ2) →
     import_ db_path (fs1 ++ f :: fs2) batch_size σ0 =
       (Raise (ValueError (unsupported_message (rec_type r))), after_yield raw σ2)).
Proof.
  intros Hun.
  assert (∀ pre post (raw : RawRecord) db db1 σ0 σ1,
     raw_type raw = rec_type r →
     import_records db pre σ0 = (Return db1, σ1) →
     import_records db (pre ++ raw :: post) σ0 =
       (Raise (ValueError (unsupported_message (rec_type r))), after_yield raw σ1))
    as Hloop.
  { intros pre post raw db db1 σ0 σ1 Ht Hpre.
    rewrite import_records_app, Hpre, import_records_cons.
    rewrite iadd_unsupported by (simpl; by rewrite Ht).
    unfold raise. simpl. by rewrite Ht. }
  split_and!.
  - by rewrite iadd_unsupported.
  - exact Hloop.
  - intros db_path bs fs1 f fs2 pre post raw db1 db2 σ0 σ1 σ2 Ht Hfs Hf Hpre.
    rewrite import_unfold, import_files_app, Hfs, import_files_cons, Hf.
    by rewrite (Hloop _ _ _ _ _ _ _ Ht Hpre).
Qed.

Lemma iadd_rejects_unsupported_witness :
  (rec_type (sample_record 0 "revisit" "<urn:uuid:9>") ∉ supported_types) ∧
  __iadd__ (opened "a.warcdb" None)
           (sample_record 0 "revisit" "<urn:uuid:9>") empty_world
    = (Raise (ValueError (unsupported_message "revisit")), empty_world).
Proof.
  assert (rec_type (sample_record 0 "revisit" "<urn:uuid:9>") ∉ supported_types)
    as Hun by (unfold supported_types; simpl; rewrite !not_elem_of_cons;
               split_and!; try discriminate; apply not_elem_of_nil).
  split; [exact Hun |].
  exact (proj1 (iadd_rejects_unsupported (opened "a.warcdb" None)
                  (sample_record 0 "revisit" "<urn:uuid:9>") empty_world Hun)).
Defined.

(** ** Runs of [db += r] *)

(** Whatever the records are, a run of [db += r] only issues insert calls
    for the five record-type tables of its own database, and leaves every
    other table alone. *)
Lemma add_all_tables self rs σ :
  ∃ calls,
    w_log (add_all self rs σ).2 = w_log σ ++ calls ∧
    Forall (fun c => ic_db c = _db self ∧ ic_table c ∈ supported_types) calls ∧
    (∀ path t, t ∉ supported_types →
       lookup_table (add_all self rs σ).2 path t = lookup_table σ path t).
Proof.
  revert σ. induction rs as [| r rs IH]; intros σ.
  - exists []. simpl. by rewrite app_nil_r.
  - simpl. run.
    destruct (decide (rec_type r ∈ supported_types)) as [Hsup | Hun].
    + destruct (iadd_supported_effect self r σ Hsup)
        as (row & o & σ1 & Hrun & Hlog & Hother & Hdest & _).
      rewrite Hrun.
      assert (o = Return self ∨ ∃ e, o = Raise e) as [-> | [e ->]].
      { destruct (unmet_reference _ _ _); destruct Hdest as [-> _]; eauto. }
      * destruct (IH σ1) as (calls & Hlog' & Hall & Hkeep).
        exists (insert_call self (rec_type r) row (dispatch_edges (rec_type r)) :: calls).
        split_and!.
        -- by rewrite Hlog', Hlog, <- app_assoc.
        -- by constructor.
        -- intros path t Ht. rewrite Hkeep by done. apply Hother.
           right. by intros ->.
      * exists [insert_call self (rec_type r) row (dispatch_edges (rec_type r))].
        simpl. split_and!; [done | by apply Forall_cons_2 |].
        intros path t Ht. apply Hother. right. by intros ->.
    + rewrite (iadd_unsupported _ _ Hun). unfold raise. simpl.
      exists []. by rewrite app_nil_r.
Qed.

(** C10.  [__iadd__] never inserts into the table named records: every
    insert call of a run of [db += r] goes to one of the five record-type
    tables, the table records of every database is what it was before, and
    so [len(db)], the row count of the records table, gives the same answer
    after the run as before it, however many records were added. *)
Theorem iadd_leaves_len (self : WarcDB) (rs : list ArcWarcRecord) (σ : World) :
  _records_table self = "records" →
  (∃ calls,
     w_log (add_all self rs σ).2 = w_log σ ++ calls ∧
     Forall (fun c => ic_table c ≠ "records" ∧ ic_table c ∈ supported_types) calls) ∧
  (∀ path, lookup_table (add_all self rs σ).2 path "records"
           = lookup_table σ path "records") ∧
  (__len__ self (add_all self rs σ).2).1 = (__len__ self σ).1 ∧
  (∀ r, (__len__ self (__iadd__ self r σ).2).1 = (__len__ self σ).1).
Proof.
  intros Hrec.
  assert ("records" ∉ supported_types) as Hnot.
  { unfold supported_types. rewrite !not_elem_of_cons.
    split_and!; try discriminate. apply not_elem_of_nil. }
  assert (∀ σ1 σ2, lookup_table σ2 (_db self) "records"
                   = lookup_table σ1 (_db self) "records" →
                   (__len__ self σ2).1 = (__len__ self σ1).1) as Hlen.
  { intros σ1 σ2 Heq. unfold __len__. rewrite Hrec.
    unfold lookup_table in Heq. rewrite Heq.
    by destruct (default ∅ (w_dbs σ1 !! _db self) !! "records"). }
  destruct (add_all_tables self rs σ) as (calls & Hlog & Hall & Hkeep).
  split_and!.
  - exists calls. split; [done |].
    eapply List.Forall_impl; [| exact Hall]. intros c [_ Hc]. split; [| done].
    intros Heq. by rewrite Heq in Hc.
  - intros path. by apply Hkeep.
  - apply Hlen. by apply Hkeep.
  - intros r. apply Hlen.
    destruct (add_all_tables self [r] σ) as (_ & _ & _ & Hk).
    specialize (Hk (_db self) "records" Hnot). simpl in Hk. run.
    by destruct (__iadd__ self r σ) as [[|] ?].
Qed.

Lemma iadd_leaves_len_witness :
  _records_table (opened "a.warcdb" None) = "records" ∧
  (__len__ (opened "a.warcdb" None)
     (add_all (opened "a.warcdb" None)
        [sample_record 0 "warcinfo" "<urn:uuid:1>";
         sample_record 1 "request" "<urn:uuid:2>"] empty_world).2).1
  = (__len__ (opened "a.warcdb" None) empty_world).1.
Proof.
  split; [reflexivity |].
  exact (proj1 (proj2 (proj2
    (iadd_leaves_len (opened "a.warcdb" None)
       [sample_record 0 "warcinfo" "<urn:uuid:1>";
        sample_record 1 "request" "<urn:uuid:2>"] empty_world eq_refl)))).
Defined.

(** ** Rows and their keys *)

Lemma foldl_insert_lookup (pairs : list (str * str)) (d : Row) k :
  foldl (fun d kv => <[kv.1 := VStr kv.2]> d) d pairs !! k =
    match last_value k pairs with
    | Some v => Some (VStr v)
    | None => d !! k
    end.
Proof.
  revert d. induction pairs as [| [k' v] pairs IH]; intros d; [done |].
  simpl. rewrite IH. destruct (last_value k pairs); [done |].
  case_decide as Hk.
  - subst. by rewrite lookup_insert_eq.
  - by rewrite lookup_insert_ne.
Qed.

Lemma dict_of_pairs_lookup pairs k :
  dict_of_pairs pairs !! k = VStr <$> last_value k pairs.
Proof.
  unfold dict_of_pairs. rewrite foldl_insert_lookup.
  by destruct (last_value k pairs).
Qed.

Lemma last_value_app_fresh k v pre post :
  k ∉ post.*1 → last_value k (pre ++ (k, v) :: post) = Some v.
Proof.
  intros Hfresh.
  assert (last_value k post = None) as Hpost.
  { induction post as [| [k' v'] post IH]; [done |].
    simpl in *. apply not_elem_of_cons in Hfresh as [Hne Hfresh].
    rewrite (IH Hfresh). case_decide; [congruence | done]. }
  induction pre as [| [k' v'] pre IH]; simpl.
  - rewrite Hpost. by case_decide.
  - by rewrite IH.
Qed.

Lemma last_value_elem k v pairs :
  last_value k pairs = Some v → (k, v) ∈ pairs.
Proof.
  induction pairs as [| [k' v'] pairs IH]; [done |]. simpl.
  destruct (last_value k pairs).
  - intros [= ->]. right. by apply IH.
  - case_decide; [| done]. intros [= ->]. subst. left.
Qed.

(** The keys [record_as_dict] adds itself do not disturb the header keys. *)
Lemma row_of_lookup r h payload k :
  (h = true → k ≠ "http_headers") →
  (is_Some payload → k ≠ "payload") →
  row_of r h payload !! k = VStr <$> last_value k (headers (rec_headers r)).
Proof.
  intros Hh Hp. unfold row_of, dict_update.
  assert (∀ A (d : gmap str A), d ∪ ∅ = d) as Hu
    by (intros; apply (right_id ∅ (∪))).
  rewrite Hu.
  destruct payload as [b |].
  - rewrite lookup_insert_ne by (apply not_eq_sym, Hp; eauto).
    destruct h.
    + rewrite lookup_insert_ne by (apply not_eq_sym; auto).
      apply dict_of_pairs_lookup.
    + apply dict_of_pairs_lookup.
  - destruct h.
    + rewrite lookup_insert_ne by (apply not_eq_sym; auto).
      apply dict_of_pairs_lookup.
    + apply dict_of_pairs_lookup.
Qed.

Lemma row_of_record_id r h payload :
  row_of r h payload !! "WARC-Record-ID"
  = VStr <$> last_value "WARC-Record-ID" (headers (rec_headers r)).
Proof. by apply row_of_lookup. Qed.

Lemma pk_conflict_present σ path t id row :
  present σ path t id → row !! "WARC-Record-ID" = Some (VStr id) →
  pk_conflict "WARC-Record-ID" row (default [] (lookup_table σ path t)) = true.
Proof.
  intros (row' & Hin & Hid) Hrow. unfold pk_conflict. rewrite Hrow.
  apply existsb_exists. exists row'. split; [by apply list_elem_of_In |].
  by apply bool_decide_eq_true.
Qed.

(** ** Idempotence of insert-or-ignore *)

(** The outcome of [__iadd__] on a supported record: the store object, or
    the engine's [AlterError]. *)
Lemma iadd_supported_outcome self r σ :
  rec_type r ∈ supported_types →
  (__iadd__ self r σ).1 =
    match unmet_reference σ (_db self) (rec_type r) with
    | Some fk => Raise (AlterError fk.1.2 fk.2)
    | None => Return self
    end.
Proof.
  intros Hsup.
  destruct (iadd_supported_effect self r σ Hsup)
    as (row & o & σ' & Hrun & _ & _ & Hdest & _).
  rewrite Hrun. simpl.
  by destruct (unmet_reference _ _ _); destruct Hdest as [-> _].
Qed.

(** Rows are never removed: what is present stays present. *)
Lemma iadd_present_mono self r σ path t id :
  present σ path t id → present (__iadd__ self r σ).2 path t id.
Proof.
  intros Hp.
  destruct (decide (rec_type r ∈ supported_types)) as [Hsup | Hun].
  - destruct (iadd_supported_effect self r σ Hsup)
      as (row & o & σ' & Hrun & _ & Hother & Hdest & _).
    rewrite Hrun. simpl in *.
    destruct (decide (path = _db self ∧ t = rec_type r)) as [[-> ->] | Hne].
    + destruct (unmet_reference _ _ _).
      { destruct Hdest as [_ Hdest]. unfold present, lookup_table in *.
        by rewrite Hdest. }
      destruct Hdest as [_ Hdest]. destruct (pk_conflict _ _ _).
      * unfold present, lookup_table in *. by rewrite Hdest.
      * destruct Hp as (row' & Hin & Hid). exists row'. rewrite Hdest. simpl.
        split; [| done]. apply elem_of_app. by left.
    + unfold present. rewrite Hother; [done |].
      destruct (decide (path = _db self)) as [-> |]; [right | left]; [| done].
      intros ->. by apply Hne.
  - rewrite (iadd_unsupported _ _ Hun). by unfold raise.
Qed.

(** After a [db += r] that the engine accepted, the record's identifier is
    in the table of its type. *)
Lemma iadd_makes_present self r σ id σ' :
  cache_sound σ → rec_type r ∈ supported_types →
  last_value "WARC-Record-ID" (headers (rec_headers r)) = Some id →
  __iadd__ self r σ = (Return self, σ') →
  present σ' (_db self) (rec_type r) id.
Proof.
  intros Hs Hsup Hid Hret.
  destruct (iadd_supported_effect self r σ Hsup)
    as (row & o & σ1 & Hrun & _ & _ & Hdest & _ & _ & _ & Hsound).
  destruct (Hsound Hs) as (_ & payload & ->).
  rewrite Hrun in Hret. injection Hret as -> ->.
  destruct (unmet_reference _ _ _); [by destruct Hdest |].
  destruct Hdest as [_ Hdest]. simpl in *.
  pose proof (row_of_record_id r (dispatch_http (rec_type r)) (Some payload)) as Hrow.
  rewrite Hid in Hrow. simpl in Hrow.
  destruct (pk_conflict _ _ _) eqn:Hc.
  - unfold pk_conflict in Hc. rewrite Hrow in Hc.
    apply existsb_exists in Hc as (row' & Hin & Heq).
    apply bool_decide_eq_true in Heq.
    exists row'. unfold lookup_table in *. rewrite Hdest.
    split; [by apply list_elem_of_In | done].
  - eexists. rewrite Hdest. simpl. split; [| exact Hrow].
    apply elem_of_app. right. apply list_elem_of_here.
Qed.

Lemma present_table σ path t id :
  present σ path t id → is_Some (lookup_table σ path t).
Proof.
  intros (row & Hin & _). destruct (lookup_table σ path t); [done |].
  simpl in Hin. by apply elem_of_nil in Hin.
Qed.

(** Adding a record whose identifier is already in its table changes no
    database and raises nothing. *)
Lemma iadd_present_noop self r σ id :
  cache_sound σ → rec_type r ∈ supported_types →
  last_value "WARC-Record-ID" (headers (rec_headers r)) = Some id →
  present σ (_db self) (rec_type r) id →
  ∃ σ', __iadd__ self r σ = (Return self, σ') ∧ w_dbs σ' = w_dbs σ ∧
        cache_sound σ'.
Proof.
  intros Hs Hsup Hid Hp.
  destruct (iadd_supported_effect self r σ Hsup)
    as (row & o & σ' & Hrun & _ & _ & Hdest & _ & _ & _ & Hsound).
  destruct (Hsound Hs) as (Hs' & payload & ->).
  exists σ'.
  pose proof (row_of_record_id r (dispatch_http (rec_type r)) (Some payload)) as Hrow.
  rewrite Hid in Hrow. simpl in *.
  unfold unmet_reference in Hdest.
  destruct (present_table _ _ _ _ Hp) as [rows Hrows]. rewrite Hrows in Hdest.
  destruct Hdest as [-> Hdest]. simpl in Hdest.
  pose proof (pk_conflict_present _ _ _ _ _ Hp Hrow) as Hc.
  rewrite Hrows in Hc. simpl in Hc. rewrite Hc in Hdest. by split_and!.
Qed.

(** A failed addition leaves every database as it was. *)
Lemma iadd_raise_dbs self r σ e σ' :
  __iadd__ self r σ = (Raise e, σ') → w_dbs σ' = w_dbs σ.
Proof.
  intros Hrun. destruct (decide (rec_type r ∈ supported_types)) as [Hsup | Hun].
  - destruct (iadd_supported_effect self r σ Hsup)
      as (row & o & σ1 & Hrun1 & _ & _ & Hdest & _).
    rewrite Hrun in Hrun1. injection Hrun1 as <- <-.
    destruct (unmet_reference _ _ _); by destruct Hdest.
  - rewrite (iadd_unsupported _ _ Hun) in Hrun. unfold raise in Hrun.
    by injection Hrun as _ <-.
Qed.

(** An addition that failed fails in the same way, and again without
    effect on any database, whenever the databases are the same and the
    record is of the same type. *)
Lemma iadd_raises_again self r r2 σ σ2 e σ' :
  __iadd__ self r σ = (Raise e, σ') →
  rec_type r2 = rec_type r → w_dbs σ2 = w_dbs σ →
  w_dbs σ' = w_dbs σ ∧
  (__iadd__ self r2 σ2).1 = Raise e ∧
  w_dbs (__iadd__ self r2 σ2).2 = w_dbs σ2.
Proof.
  intros Hrun Ht Hd.
  destruct (decide (rec_type r ∈ supported_types)) as [Hsup | Hun].
  - assert (rec_type r2 ∈ supported_types) as Hsup2 by (by rewrite Ht).
    assert (unmet_reference σ2 (_db self) (rec_type r2)
            = unmet_reference σ (_db self) (rec_type r)) as Hu
      by (unfold unmet_reference, lookup_table; by rewrite Ht, Hd).
    pose proof (iadd_supported_outcome self r2 σ2 Hsup2) as Ho2.
    destruct (iadd_supported_effect self r σ Hsup)
      as (row & o & σ1 & Hrun1 & _ & _ & Hdest & _).
    destruct (iadd_supported_effect self r2 σ2 Hsup2)
      as (row2 & o2 & σ3 & Hrun2 & _ & _ & Hdest2 & _).
    rewrite Hrun in Hrun1. injection Hrun1 as <- <-.
    rewrite Hrun2 in *. simpl in *. rewrite Hu in *.
    destruct (unmet_reference σ (_db self) (rec_type r)) as [fk |].
    + destruct Hdest as [-> Hdest]. by destruct Hdest2 as [_ Hdest2].
    + by destruct Hdest.
  - assert (rec_type r2 ∉ supported_types) as Hun2 by (by rewrite Ht).
    rewrite (iadd_unsupported _ _ Hun) in Hrun.
    rewrite (iadd_unsupported _ _ Hun2). unfold raise in *.
    injection Hrun as <- <-. simpl. by rewrite Ht.
Qed.

Lemma iadd_sound self r σ :
  cache_sound σ → cache_sound (__iadd__ self r σ).2.
Proof.
  intros Hs. destruct (decide (rec_type r ∈ supported_types)) as [Hsup | Hun].
  - destruct (iadd_supported_effect self r σ Hsup)
      as (row & o & σ' & Hrun & _ & _ & _ & _ & _ & _ & Hsound).
    rewrite Hrun. by apply Hsound.
  - rewrite (iadd_unsupported _ _ Hun). by unfold raise.
Qed.

(** The soundness of the memo table is an invariant of the program: the
    adapter, the import loop and the import command all keep it. *)
Lemma record_as_dict_keeps_sound r a σ :
  cache_sound σ → cache_sound (record_as_dict r a σ).2.
Proof.
  intros Hs. destruct (bind_args a) as [[h p] |] eqn:Hb.
  - destruct (record_as_dict_sound r a σ h p Hs Hb) as (payload & σ' & Hrun & _ & Hs' & _).
    by rewrite Hrun.
  - unfold record_as_dict. rewrite Hb. by destruct (w_cache σ !! (r, a)).
Qed.

Lemma import_records_sound db raws σ :
  cache_sound σ → cache_sound (import_records db raws σ).2.
Proof.
  revert db σ. induction raws as [| raw raws IH]; intros db σ Hs; [done |].
  rewrite import_records_cons.
  pose proof (iadd_sound db (mk_record (w_next σ) raw) (after_yield raw σ) Hs) as Hs'.
  destruct (__iadd__ db _ _) as [[db' | e] σ']; [by apply IH | done].
Qed.

Lemma import_files_sound db fs σ :
  cache_sound σ → cache_sound (import_files db fs σ).2.
Proof.
  revert db σ. induction fs as [| f fs IH]; intros db σ Hs; [done |].
  rewrite import_files_cons. destruct (w_files σ !! f) as [raws |]; [| done].
  pose proof (import_records_sound db raws σ Hs) as Hs'.
  destruct (import_records db raws σ) as [[db' | e] σ']; [by apply IH | done].
Qed.

Lemma import_sound db_path warc_path batch_size σ :
  cache_sound σ → cache_sound (import_ db_path warc_path batch_size σ).2.
Proof.
  intros Hs. rewrite import_unfold.
  pose proof (import_files_sound (opened db_path (Some batch_size)) warc_path
                (after_warning batch_size σ)) as Hs'.
  destruct (import_files _ _ _) as [[db' | e] σ']; apply Hs';
    unfold after_warning; by case_bool_decide.
Qed.

Lemma after_yield_sound raw σ : cache_sound σ → cache_sound (after_yield raw σ).
Proof. done. Qed.

Lemma after_yield_present raw σ path t id :
  present (after_yield raw σ) path t id ↔ present σ path t id.
Proof. done. Qed.

Lemma iadd_files self r σ : w_files (__iadd__ self r σ).2 = w_files σ.
Proof.
  destruct (decide (rec_type r ∈ supported_types)) as [Hsup | Hun].
  - destruct (iadd_supported_effect self r σ Hsup)
      as (row & o & σ' & Hrun & _ & _ & _ & _ & _ & (Hf & _) & _).
    by rewrite Hrun.
  - rewrite (iadd_unsupported _ _ Hun). by unfold raise.
Qed.

Lemma after_warning_frame bs σ :
  w_cache (after_warning bs σ) = w_cache σ ∧
  w_dbs (after_warning bs σ) = w_dbs σ ∧
  w_files (after_warning bs σ) = w_files σ ∧
  w_log (after_warning bs σ) = w_log σ ∧
  w_stdout (after_warning bs σ) = w_stdout σ ∧
  w_next (after_warning bs σ) = w_next σ.
Proof. unfold after_warning. by case_bool_decide. Qed.

(** ** The store object and the warnings *)

(** The warnings are written and never read. *)
Lemma record_as_dict_warnings f r a σ :
  record_as_dict r a (set_warnings f σ) =
    ((record_as_dict r a σ).1, set_warnings f (record_as_dict r a σ).2).
Proof.
  unfold record_as_dict. simpl.
  destruct (w_cache σ !! (r, a)); [done |].
  destruct (bind_args a) as [[h p] |]; [| done].
  unfold record_as_dict_body, content_stream_read. run.
  by destruct p.
Qed.

Lemma table_insert_warnings f c σ :
  table_insert c (set_warnings f σ) =
    ((table_insert c σ).1, set_warnings f (table_insert c σ).2).
Proof.
  unfold table_insert. simpl.
  destruct (default ∅ (w_dbs σ !! ic_db c) !! ic_table c).
  - destruct (pk_conflict _ _ _); [| done]. by destruct (ic_ignore c).
  - by destruct (dangling_reference _ _).
Qed.

Lemma iadd_warnings f self r σ :
  __iadd__ self r (set_warnings f σ) =
    ((__iadd__ self r σ).1, set_warnings f (__iadd__ self r σ).2).
Proof.
  destruct (decide (rec_type r ∈ supported_types)) as [Hsup | Hun].
  - rewrite (iadd_supported _ _ Hsup). run. rewrite record_as_dict_warnings.
    destruct (record_as_dict r _ σ) as [[row | e] σ1]; [| done]. simpl.
    rewrite table_insert_warnings.
    by destruct (table_insert _ σ1) as [[[] | e] σ2].
  - by rewrite (iadd_unsupported _ _ Hun).
Qed.

Lemma import_records_warnings f db raws σ :
  import_records db raws (set_warnings f σ) =
    ((import_records db raws σ).1, set_warnings f (import_records db raws σ).2).
Proof.
  revert db σ. induction raws as [| raw raws IH]; intros db σ; [done |].
  rewrite !import_records_cons.
  change (after_yield raw (set_warnings f σ)) with (set_warnings f (after_yield raw σ)).
  change (w_next (set_warnings f σ)) with (w_next σ).
  rewrite iadd_warnings.
  destruct (__iadd__ db _ (after_yield raw σ)) as [[db' | e] σ1]; [| done].
  simpl. apply IH.
Qed.

Lemma import_files_warnings f db fs σ :
  import_files db fs (set_warnings f σ) =
    ((import_files db fs σ).1, set_warnings f (import_files db fs σ).2).
Proof.
  revert db σ. induction fs as [| file fs IH]; intros db σ; [done |].
  rewrite !import_files_cons. simpl.
  destruct (w_files σ !! file) as [raws |]; [| done].
  rewrite import_records_warnings.
  destruct (import_records db raws σ) as [[db' | e] σ1]; [| done].
  simpl. apply IH.
Qed.

(** [__iadd__] reads only the database of the store object it is given. *)
Lemma iadd_same_db d1 d2 r σ :
  _db d1 = _db d2 →
  __iadd__ d1 r σ =
    match __iadd__ d2 r σ with
    | (Return _, σ') => (Return d1, σ')
    | (Raise e, σ') => (Raise e, σ')
    end.
Proof.
  intros Hdb. destruct (decide (rec_type r ∈ supported_types)) as [Hsup | Hun].
  - rewrite !(iadd_supported _ _ Hsup). run.
    destruct (record_as_dict r _ σ) as [[row | e] σ1]; [| done].
    unfold insert_call. rewrite Hdb.
    by destruct (table_insert _ σ1) as [[[] | e] σ2].
  - by rewrite !(iadd_unsupported _ _ Hun).
Qed.

Lemma iadd_returns_self self r σ db' σ' :
  __iadd__ self r σ = (Return db', σ') → db' = self.
Proof.
  destruct (decide (rec_type r ∈ supported_types)) as [Hsup | Hun].
  - pose proof (iadd_supported_outcome self r σ Hsup) as Ho.
    intros Hrun. rewrite Hrun in Ho. simpl in Ho.
    destruct (unmet_reference _ _ _); [done |]. by injection Ho.
  - by rewrite (iadd_unsupported _ _ Hun).
Qed.

Lemma import_records_same_db d1 d2 raws σ :
  _db d1 = _db d2 →
  raised (import_records d1 raws σ).1 = raised (import_records d2 raws σ).1 ∧
  (import_records d1 raws σ).2 = (import_records d2 raws σ).2.
Proof.
  intros Hdb. revert σ. induction raws as [| raw raws IH]; intros σ; [done |].
  rewrite !import_records_cons, (iadd_same_db d1 d2 _ _ Hdb).
  destruct (__iadd__ d2 _ _) as [[db' | e] σ1] eqn:Hrun; [| done].
  apply iadd_returns_self in Hrun as ->. apply IH.
Qed.

Lemma import_records_returns_self db raws σ db' σ' :
  import_records db raws σ = (Return db', σ') → db' = db.
Proof.
  revert σ. induction raws as [| raw raws IH]; intros σ.
  - by intros [= <- _].
  - rewrite import_records_cons.
    destruct (__iadd__ db _ _) as [[db1 | e] σ1] eqn:Hrun; [| done].
    apply iadd_returns_self in Hrun as ->. apply IH.
Qed.

Lemma import_files_same_db d1 d2 fs σ :
  _db d1 = _db d2 →
  raised (import_files d1 fs σ).1 = raised (import_files d2 fs σ).1 ∧
  (import_files d1 fs σ).2 = (import_files d2 fs σ).2.
Proof.
  intros Hdb. revert σ. induction fs as [| file fs IH]; intros σ; [done |].
  rewrite !import_files_cons.
  destruct (w_files σ !! file) as [raws |]; [| done].
  destruct (import_records_same_db d1 d2 raws σ Hdb) as [Hr Hw].
  destruct (import_records d1 raws σ) as [[db1 | e1] σ1] eqn:H1;
    destruct (import_records d2 raws σ) as [[db2 | e2] σ2] eqn:H2;
    simpl in *; try discriminate.
  - subst. apply import_records_returns_self in H1 as ->.
    apply import_records_returns_self in H2 as ->. apply IH.
  - by subst.
Qed.

Lemma import_files_keeps_warnings db fs σ :
  w_warnings (import_files db fs σ).2 = w_warnings σ.
Proof.
  pose proof (import_files_warnings (fun _ => w_warnings σ) db fs σ) as H.
  assert (set_warnings (fun _ => w_warnings σ) σ = σ) as Hid by (by destruct σ).
  rewrite Hid in H. apply (f_equal (fun x => w_warnings x.2)) in H. done.
Qed.

(** ** Relations every step of an import keeps *)

Section import_invariant.

Variable R : World → World → Prop.
Variable path0 : str.
Hypothesis R_refl : ∀ σ, R σ σ.
Hypothesis R_trans : ∀ σ1 σ2 σ3, R σ1 σ2 → R σ2 σ3 → R σ1 σ3.
Hypothesis R_yield : ∀ raw σ, R σ (after_yield raw σ).
Hypothesis R_warning : ∀ bs σ, R σ (after_warning bs σ).
Hypothesis R_iadd : ∀ self r σ, _db self = path0 → R σ (__iadd__ self r σ).2.

Lemma add_all_rel self rs σ : _db self = path0 → R σ (add_all self rs σ).2.
Proof using R_refl R_trans R_iadd.
  intros Hdb. revert σ. induction rs as [| r rs IH]; intros σ; [apply R_refl |].
  simpl. run. pose proof (R_iadd self r σ Hdb) as Hstep.
  destruct (__iadd__ self r σ) as [[db' | e] σ'] eqn:Hrun; [| done].
  apply iadd_returns_self in Hrun as ->.
  eapply R_trans; [exact Hstep | apply IH].
Qed.

Lemma import_records_rel db raws σ :
  _db db = path0 → R σ (import_records db raws σ).2.
Proof using R_refl R_trans R_yield R_iadd.
  intros Hdb. revert σ. induction raws as [| raw raws IH]; intros σ; [apply R_refl |].
  rewrite import_records_cons.
  pose proof (R_iadd db (mk_record (w_next σ) raw) (after_yield raw σ) Hdb) as Hstep.
  destruct (__iadd__ db _ _) as [[db' | e] σ'] eqn:Hrun.
  - apply iadd_returns_self in Hrun as ->.
    eapply R_trans; [apply R_yield |]. eapply R_trans; [exact Hstep | apply IH].
  - eapply R_trans; [apply R_yield | exact Hstep].
Qed.

Lemma import_files_rel db fs σ :
  _db db = path0 → R σ (import_files db fs σ).2.
Proof using R_refl R_trans R_yield R_iadd.
  intros Hdb. revert σ. induction fs as [| f fs IH]; intros σ; [apply R_refl |].
  rewrite import_files_cons. destruct (w_files σ !! f) as [raws |]; [| apply R_refl].
  pose proof (import_records_rel db raws σ Hdb) as Hstep.
  destruct (import_records db raws σ) as [[db' | e] σ'] eqn:Hrun; [| done].
  apply import_records_returns_self in Hrun as ->.
  eapply R_trans; [exact Hstep | apply IH].
Qed.

Lemma import_rel warc_path batch_size σ :
  R σ (import_ path0 warc_path batch_size σ).2.
Proof using R_refl R_trans R_yield R_warning R_iadd.
  rewrite import_unfold.
  pose proof (import_files_rel (opened path0 (Some batch_size)) warc_path
                (after_warning batch_size σ) eq_refl) as Hstep.
  destruct (import_files _ _ _) as [[db' | e] σ'];
    (eapply R_trans; [apply R_warning | exact Hstep]).
Qed.

End import_invariant.

(** ** Passing over the same records again *)

Lemma import_records_presence_kept db raws σ :
  presence_kept σ (import_records db raws σ).2.
Proof.
  apply (import_records_rel presence_kept (_db db)).
  - by intros σ0 path t id.
  - intros σ1 σ2 σ3 H12 H23 path t id Hp. by apply H23, H12.
  - intros raw σ0 path t id Hp. by apply after_yield_present.
  - intros self r σ0 _ path t id Hp. by apply iadd_present_mono.
  - done.
Qed.

Lemma import_files_presence_kept db fs σ :
  presence_kept σ (import_files db fs σ).2.
Proof.
  apply (import_files_rel presence_kept (_db db)).
  - by intros σ0 path t id.
  - intros σ1 σ2 σ3 H12 H23 path t id Hp. by apply H23, H12.
  - intros raw σ0 path t id Hp. by apply after_yield_present.
  - intros self r σ0 _ path t id Hp. by apply iadd_present_mono.
  - done.
Qed.

Lemma add_all_presence_kept self rs σ :
  presence_kept σ (add_all self rs σ).2.
Proof.
  apply (add_all_rel presence_kept (_db self)).
  - by intros σ0 path t id.
  - intros σ1 σ2 σ3 H12 H23 path t id Hp. by apply H23, H12.
  - intros self' r σ0 _ path t id Hp. by apply iadd_present_mono.
  - done.
Qed.

Lemma import_records_keeps_files db raws σ :
  w_files (import_records db raws σ).2 = w_files σ.
Proof.
  apply (import_records_rel (fun σ1 σ2 => w_files σ2 = w_files σ1) (_db db)).
  - done.
  - intros σ1 σ2 σ3 H12 H23. by rewrite H23.
  - done.
  - intros self r σ0 _. apply iadd_files.
  - done.
Qed.

Lemma import_files_keeps_files db fs σ :
  w_files (import_files db fs σ).2 = w_files σ.
Proof.
  apply (import_files_rel (fun σ1 σ2 => w_files σ2 = w_files σ1) (_db db)).
  - done.
  - intros σ1 σ2 σ3 H12 H23. by rewrite H23.
  - done.
  - intros self r σ0 _. apply iadd_files.
  - done.
Qed.

Lemma presence_same_dbs σ σ' path t id :
  w_dbs σ' = w_dbs σ → present σ path t id → present σ' path t id.
Proof. intros Hd. unfold present, lookup_table. by rewrite Hd. Qed.

(** A second run of [for r in rs: db += r] over the same records (the
    same objects, or new objects for the same archive records), started
    with the databases the first run left, ends as the first did and
    changes no database. *)
Lemma add_all_again self rs rs2 σ σ2 :
  cache_sound σ → cache_sound σ2 →
  Forall (fun r => rec_type r ∈ supported_types → has_record_id r) rs →
  Forall2 same_record rs rs2 →
  w_dbs σ2 = w_dbs (add_all self rs σ).2 →
  (add_all self rs2 σ2).1 = (add_all self rs σ).1 ∧
  w_dbs (add_all self rs2 σ2).2 = w_dbs σ2 ∧
  cache_sound (add_all self rs2 σ2).2.
Proof.
  intros Hs Hs2 Hall Hsame. revert σ σ2 Hs Hs2 Hall.
  induction Hsame as [| r r2 rs rs2 [Ht Hh] Hsame IH]; intros σ σ2 Hs Hs2 Hall Hd;
    [done |].
  apply Forall_cons_1 in Hall as [Hid Hall].
  simpl in *. run.
  pose proof (iadd_sound self r σ Hs) as Hs'.
  destruct (__iadd__ self r σ) as [[db' | e] σa] eqn:Hrun; simpl in *.
  - apply iadd_returns_self in Hrun as Hself. subst db'.
    assert (rec_type r ∈ supported_types) as Hsup.
    { destruct (decide (rec_type r ∈ supported_types)) as [| Hun]; [done |].
      by rewrite (iadd_unsupported _ _ Hun) in Hrun. }
    destruct (Hid Hsup) as [id Hidv].
    pose proof (iadd_makes_present self r σ id σa Hs Hsup Hidv Hrun) as Hp.
    destruct (iadd_present_noop self r2 σ2 id Hs2) as (σb & Hrun2 & Hdbs & Hsb).
    { by rewrite Ht. }
    { by rewrite Hh. }
    { rewrite Ht. apply (presence_same_dbs _ _ _ _ _ Hd).
      by apply add_all_presence_kept. }
    rewrite Hrun2.
    destruct (IH σa σb Hs' Hsb Hall) as (Ho & Hd' & Hs3); [congruence |].
    split_and!; [done | congruence | done].
  - pose proof (iadd_raise_dbs self r σ e σa Hrun) as Hda'.
    destruct (iadd_raises_again self r r2 σ σ2 e σa Hrun Ht) as (Hda & Ho & Hd2);
      [congruence |].
    pose proof (iadd_sound self r2 σ2 Hs2) as Hs2'.
    destruct (__iadd__ self r2 σ2) as [[db' | e'] σb]; simpl in *; [done |].
    by injection Ho as ->.
Qed.

(** The same for the records of an archive, read anew, from any world that
    has kept what the first pass stored and, if the first pass failed, has
    the databases it left. *)
Lemma import_records_again db raws σ σ2 :
  cache_sound σ → cache_sound σ2 →
  Forall (fun raw => raw_type raw ∈ supported_types → raw_has_record_id raw) raws →
  presence_kept (import_records db raws σ).2 σ2 →
  (raised (import_records db raws σ).1 ≠ None →
   w_dbs σ2 = w_dbs (import_records db raws σ).2) →
  (import_records db raws σ2).1 = (import_records db raws σ).1 ∧
  w_dbs (import_records db raws σ2).2 = w_dbs σ2 ∧
  w_files (import_records db raws σ2).2 = w_files σ2 ∧
  cache_sound (import_records db raws σ2).2.
Proof.
  intros Hs Hs2 Hall. revert σ σ2 Hs Hs2.
  induction Hall as [| raw raws Hid Hall IH]; intros σ σ2 Hs Hs2 Hk Hd; [done |].
  rewrite !import_records_cons. rewrite import_records_cons in Hk, Hd.
  set (r := mk_record (w_next σ) raw) in *.
  set (r2 := mk_record (w_next σ2) raw) in *.
  pose proof (iadd_sound db r (after_yield raw σ) Hs) as Hs'.
  pose proof (iadd_files db r2 (after_yield raw σ2)) as Hfiles.
  destruct (__iadd__ db r (after_yield raw σ)) as [[db' | e] σa] eqn:Hrun;
    simpl in *.
  - apply iadd_returns_self in Hrun as Hself. subst db'.
    assert (raw_type raw ∈ supported_types) as Hsup.
    { destruct (decide (raw_type raw ∈ supported_types)) as [| Hun]; [done |].
      by rewrite (iadd_unsupported db r Hun) in Hrun. }
    destruct (Hid Hsup) as [id Hidv].
    pose proof (iadd_makes_present db r (after_yield raw σ) id σa Hs Hsup Hidv Hrun)
      as Hp.
    destruct (iadd_present_noop db r2 (after_yield raw σ2) id Hs2 Hsup Hidv)
      as (σb & Hrun2 & Hdbs & Hsb).
    { apply after_yield_present. apply Hk. by apply import_records_presence_kept. }
    rewrite Hrun2 in *. simpl in *.
    destruct (IH σa σb Hs' Hsb) as (Ho & Hd' & Hf & Hsnd).
    { intros path t id' Hp'. apply (presence_same_dbs σ2); [done |]. by apply Hk. }
    { intros Hr. rewrite Hdbs. by apply Hd. }
    split_and!; [done | congruence | congruence | done].
  - pose proof (iadd_raise_dbs db r (after_yield raw σ) e σa Hrun) as Hda'.
    specialize (Hd ltac:(done)).
    destruct (iadd_raises_again db r r2 (after_yield raw σ) (after_yield raw σ2)
                e σa Hrun eq_refl) as (Hda & Ho & Hd2); [simpl in *; congruence |].
    pose proof (iadd_sound db r2 (after_yield raw σ2) Hs2) as Hs2'.
    destruct (__iadd__ db r2 (after_yield raw σ2)) as [[db' | e'] σb];
      simpl in *; [done |].
    injection Ho as ->. by split_and!.
Qed.

Lemma import_files_again db fs σ σ2 :
  cache_sound σ → cache_sound σ2 → w_files σ2 = w_files σ →
  archives_identified σ fs →
  presence_kept (import_files db fs σ).2 σ2 →
  (raised (import_files db fs σ).1 ≠ None →
   w_dbs σ2 = w_dbs (import_files db fs σ).2) →
  (import_files db fs σ2).1 = (import_files db fs σ).1 ∧
  w_dbs (import_files db fs σ2).2 = w_dbs σ2.
Proof.
  intros Hs Hs2 Hfiles Hall. revert σ σ2 Hs Hs2 Hfiles Hall.
  induction fs as [| f fs IH]; intros σ σ2 Hs Hs2 Hfiles Hall Hk Hd; [done |].
  apply Forall_cons_1 in Hall as [Hf Hall].
  rewrite !import_files_cons, Hfiles in *.
  destruct (w_files σ !! f) as [raws |] eqn:Hfile; [| done].
  pose proof (import_records_sound db raws σ Hs) as Hs'.
  pose proof (import_records_keeps_files db raws σ) as Hkeep.
  destruct (import_records db raws σ) as [[db' | e] σa] eqn:Hrun; simpl in *.
  - apply import_records_returns_self in Hrun as Hself. subst db'.
    destruct (import_records_again db raws σ σ2 Hs Hs2 (Hf raws eq_refl))
      as (Ho & Hd2 & Hf2 & Hsb).
    { rewrite Hrun. simpl. intros path t id Hp. apply Hk.
      pose proof (import_files_presence_kept db fs σa) as Hmono. by apply Hmono. }
    { by rewrite Hrun. }
    rewrite Hrun in Ho. simpl in Ho.
    destruct (import_records db raws σ2) as [[db'' | e] σb]; simpl in *; [| done].
    injection Ho as ->.
    destruct (IH σa σb Hs' Hsb) as (Ho' & Hd').
    + congruence.
    + unfold archives_identified. by rewrite Hkeep.
    + intros path t id Hp. apply (presence_same_dbs σ2); [done |]. by apply Hk.
    + intros Hr. rewrite Hd2. by apply Hd.
    + split; [done | congruence].
  - destruct (import_records_again db raws σ σ2 Hs Hs2 (Hf raws eq_refl))
      as (Ho & Hd2 & _).
    { by rewrite Hrun. }
    { rewrite Hrun. simpl. intros _. by apply Hd. }
    rewrite Hrun in Ho. simpl in Ho.
    destruct (import_records db raws σ2) as [[db'' | e'] σb]; simpl in *; [done |].
    by injection Ho as ->.
Qed.

(** A second run of the import command over the same archives ends as the
    first did and changes no database. *)
Lemma import_again db_path warc_path batch_size batch_size' σ :
  cache_sound σ →
  archives_identified σ warc_path →
  (import_ db_path warc_path batch_size'
     (import_ db_path warc_path batch_size σ).2).1
  = (import_ db_path warc_path batch_size σ).1 ∧
  w_dbs (import_ db_path warc_path batch_size'
           (import_ db_path warc_path batch_size σ).2).2
  = w_dbs (import_ db_path warc_path batch_size σ).2.
Proof.
  intros Hs Hid.
  set (d := opened db_path (Some batch_size)).
  set (d' := opened db_path (Some batch_size')).
  set (σ0 := after_warning batch_size σ).
  assert (cache_sound σ0) as Hs0.
  { intros r a row. unfold σ0.
    destruct (after_warning_frame batch_size σ) as (-> & _). apply Hs. }
  assert (w_files σ0 = w_files σ) as Hf0
    by (unfold σ0; by destruct (after_warning_frame batch_size σ) as (_ & _ & -> & _)).
  assert ((import_ db_path warc_path batch_size σ).2 = (import_files d warc_path σ0).2)
    as Hfirst.
  { rewrite import_unfold. fold d σ0. by destruct (import_files d warc_path σ0) as [[] ?]. }
  rewrite Hfirst.
  set (σ1 := (import_files d warc_path σ0).2).
  set (σ2 := after_warning batch_size' σ1).
  destruct (after_warning_frame batch_size' σ1) as (Hc2 & Hd2 & Hf2 & _).
  fold σ2 in Hc2, Hd2, Hf2.
  destruct (import_files_again d warc_path σ0 σ2 Hs0) as [Ho Hdbs].
  - intros r a row. rewrite Hc2. by apply import_files_sound.
  - rewrite Hf2. apply import_files_keeps_files.
  - unfold archives_identified. by rewrite Hf0.
  - intros path t id Hp. by apply (presence_same_dbs σ1).
  - done.
  - destruct (import_files_same_db d' d warc_path σ2 eq_refl) as [Hr Hw].
    rewrite (import_unfold db_path warc_path batch_size' σ1).
    rewrite (import_unfold db_path warc_path batch_size σ).
    fold d d' σ0 σ2. fold σ1 in Ho.
    destruct (import_files d' warc_path σ2) as [o2' σ3'].
    destruct (import_files d warc_path σ2) as [o2 σ3].
    destruct (import_files d warc_path σ0) as [o1 σ1'].
    simpl in *. subst.
    split.
    + destruct o2', o1; simpl in *; try discriminate; try done.
      by injection Hr as ->.
    + destruct o2'; simpl; congruence.
Qed.

Lemma add_all_sound self rs σ :
  cache_sound σ → cache_sound (add_all self rs σ).2.
Proof.
  revert σ. induction rs as [| r rs IH]; intros σ Hs; [done |].
  simpl. run. pose proof (iadd_sound self r σ Hs) as Hs'.
  destruct (__iadd__ self r σ) as [[db' | e] σ'] eqn:Hrun; [| done].
  apply iadd_returns_self in Hrun as ->. by apply IH.
Qed.

Lemma archives_ok_identified σ warc_path :
  archives_ok σ warc_path → archives_identified σ warc_path.
Proof.
  intros Hok. eapply List.Forall_impl; [| exact Hok].
  intros f (raws & Hraws & Hall) raws' Hraws'.
  rewrite Hraws in Hraws'. injection Hraws' as <-.
  eapply List.Forall_impl; [| exact Hall]. by intros raw [_ ?] _.
Qed.

(** C2.  In any store whose memo table is sound, ingesting a sequence of
    supported records, each carrying a WARC-Record-ID, and then ingesting
    the same records again (the same objects, or the same archive parsed
    anew) leaves every database exactly as the first pass left it: every
    table has the same rows, none duplicated, none overwritten.  The second
    pass ends as the first did: it raises nothing if the first pass raised
    nothing, and stops with the same error, at the same record, if the
    engine refused a record of the first pass.  The same holds for two runs
    of the import command over the same archives, and a single record whose
    identifier is already in its table is added without error and without
    effect on any table. *)
Theorem ingest_twice_same_rows (self : WarcDB) (rs rs2 : list ArcWarcRecord)
    (σ : World) :
  cache_sound σ →
  Forall (fun r => rec_type r ∈ supported_types ∧ has_record_id r) rs →
  Forall2 same_record rs rs2 →
  ((add_all self rs2 (add_all self rs σ).2).1 = (add_all self rs σ).1 ∧
   w_dbs (add_all self rs2 (add_all self rs σ).2).2
   = w_dbs (add_all self rs σ).2) ∧
  (∀ db_path warc_path bs bs',
     archives_ok σ warc_path →
     (import_ db_path warc_path bs' (import_ db_path warc_path bs σ).2).1
     = (import_ db_path warc_path bs σ).1 ∧
     w_dbs (import_ db_path warc_path bs' (import_ db_path warc_path bs σ).2).2
     = w_dbs (import_ db_path warc_path bs σ).2) ∧
  (∀ r id,
     rec_type r ∈ supported_types →
     last_value "WARC-Record-ID" (headers (rec_headers r)) = Some id →
     present σ (_db self) (rec_type r) id →
     ∃ σ', __iadd__ self r σ = (Return self, σ') ∧ w_dbs σ' = w_dbs σ).
Proof.
  intros Hs Hall Hsame. split; [| split].
  - destruct (add_all_again self rs rs2 σ (add_all self rs σ).2 Hs) as (Ho & Hd & _).
    + by apply add_all_sound.
    + eapply List.Forall_impl; [| exact Hall]. by intros r [_ ?] _.
    + done.
    + done.
    + done.
  - intros db_path warc_path bs bs' Hok.
    apply import_again; [done | by apply archives_ok_identified].
  - intros r id Hsup Hid Hp.
    destruct (iadd_present_noop self r σ id Hs Hsup Hid Hp) as (σ' & Hrun & Hdbs & _).
    by exists σ'.
Qed.
(** ** The record-to-dict adapter *)

Lemma empty_world_sound : cache_sound empty_world.
Proof. intros r a row Hl. simpl in Hl. by rewrite lookup_empty in Hl. Qed.

(** Every row [record_as_dict] returns in a sound world is one its body
    builds for the flags the call binds. *)
Lemma record_as_dict_inv r a σ row σ' :
  cache_sound σ → record_as_dict r a σ = (Return row, σ') →
  ∃ h p payload, bind_args a = Some (h, p) ∧
    row = row_of r h (if p then Some payload else None).
Proof.
  intros Hs Hrun. destruct (bind_args a) as [[h p] |] eqn:Hb.
  - destruct (record_as_dict_sound r a σ h p Hs Hb) as (payload & σ1 & Hrun1 & _).
    rewrite Hrun in Hrun1. injection Hrun1 as -> _. by exists h, p, payload.
  - unfold record_as_dict in Hrun.
    destruct (w_cache σ !! (r, a)) as [row' |] eqn:Hc.
    + destruct (Hs _ _ _ Hc) as (h & p & _ & Hb' & _). congruence.
    + by rewrite Hb in Hrun.
Qed.

(** C4 (as amended).  The row maps every header name of the record to the
    value of the last header of that name: a header field that no later
    header of the same name follows is in the row verbatim, unless its name
    is http_headers or payload and the call asks for that key, which the
    adapter then sets itself. *)
Theorem as_dict_keeps_last_headers (r : ArcWarcRecord) (a : CallArgs)
    (σ σ' : World) (row : Row) :
  cache_sound σ →
  record_as_dict r a σ = (Return row, σ') →
  ∃ h p, bind_args a = Some (h, p) ∧
    ∀ pre k v post,
      headers (rec_headers r) = pre ++ (k, v) :: post →
      k ∉ post.*1 →
      (h = true → k ≠ "http_headers") →
      (p = true → k ≠ "payload") →
      row !! k = Some (VStr v).
Proof.
  intros Hs Hrun.
  destruct (record_as_dict_inv r a σ row σ' Hs Hrun) as (h & p & payload & Hb & ->).
  exists h, p. split; [done |].
  intros pre k v post Hh Hfresh Hk1 Hk2.
  rewrite row_of_lookup.
  - by rewrite Hh, last_value_app_fresh.
  - done.
  - destruct p; [auto | by intros [? ?]].
Qed.

Lemma as_dict_keeps_last_headers_witness :
  cache_sound empty_world ∧
  ∃ row σ',
    record_as_dict repeated_headers_record (kwargs []) empty_world = (Return row, σ') ∧
    row !! "WARC-Concurrent-To" = Some (VStr "<urn:uuid:4>").
Proof.
  split; [exact empty_world_sound |].
  eexists _, _. split; [reflexivity |].
  destruct (as_dict_keeps_last_headers repeated_headers_record (kwargs []) empty_world
              _ _ empty_world_sound eq_refl) as (h & p & Hb & Hrow).
  injection Hb as <- <-.
  apply (Hrow [("WARC-Record-ID", "<urn:uuid:5>");
               ("WARC-Concurrent-To", "<urn:uuid:3>")]
              "WARC-Concurrent-To" "<urn:uuid:4>" []).
  - reflexivity.
  - apply not_elem_of_nil.
  - discriminate.
  - discriminate.
Defined.

(** C4, counterexample.  A record with two WARC-Concurrent-To headers: the
    row keeps only the second value, so the first header field is not in
    the row. *)
Lemma as_dict_drops_repeated_header : ¬ keeps_every_header.
Proof.
  intros H.
  specialize (H repeated_headers_record (kwargs []) empty_world _ _
                empty_world_sound eq_refl
                "WARC-Concurrent-To" "<urn:uuid:3>").
  assert (("WARC-Concurrent-To", "<urn:uuid:3>")
          ∈ headers (rec_headers repeated_headers_record)) as Hin.
  { simpl. apply list_elem_of_further, list_elem_of_here. }
  specialize (H Hin). vm_compute in H. discriminate H.
Qed.

(** ** Memoisation *)

Lemma record_as_dict_cache_mono r a σ : w_cache σ ⊆ w_cache (record_as_dict r a σ).2.
Proof.
  destruct (bind_args a) as [[h p] |] eqn:Hb.
  - destruct (record_as_dict_returns r a σ h p Hb) as (row & σ' & Hrun & _ & _ & Hsub).
    by rewrite Hrun.
  - unfold record_as_dict. rewrite Hb. by destruct (w_cache σ !! (r, a)).
Qed.

Lemma iadd_cache_mono self r σ : w_cache σ ⊆ w_cache (__iadd__ self r σ).2.
Proof.
  destruct (decide (rec_type r ∈ supported_types)) as [Hsup | Hun].
  - destruct (iadd_supported_effect self r σ Hsup)
      as (row & o & σ' & Hrun & _ & _ & _ & _ & Hsub & _).
    by rewrite Hrun.
  - rewrite (iadd_unsupported _ _ Hun). by unfold raise.
Qed.

(** C7 (as amended).  Once a call of [record_as_dict] has returned a row,
    the row is in the memo table under the record and the arguments as they
    were written in the call; no later call of the adapter or of [__iadd__]
    removes or replaces a memo entry; and every later call on the same
    record with the same arguments returns that row and leaves the world,
    the content stream included, untouched. *)
Theorem as_dict_memoised_per_call (r : ArcWarcRecord) (a : CallArgs)
    (σ σ1 : World) (row : Row) :
  record_as_dict r a σ = (Return row, σ1) →
  w_cache σ1 !! (r, a) = Some row ∧
  (∀ σ2, w_cache σ1 ⊆ w_cache σ2 → record_as_dict r a σ2 = (Return row, σ2)) ∧
  (∀ σ2 r' a', w_cache σ2 ⊆ w_cache (record_as_dict r' a' σ2).2) ∧
  (∀ σ2 self r', w_cache σ2 ⊆ w_cache (__iadd__ self r' σ2).2).
Proof.
  intros Hrun.
  assert (w_cache σ1 !! (r, a) = Some row) as Hhit.
  { unfold record_as_dict in Hrun.
    destruct (w_cache σ !! (r, a)) as [row' |] eqn:Hc.
    - by injection Hrun as -> ->.
    - destruct (bind_args a) as [[h p] |] eqn:Hb; [| done].
      pose proof (record_as_dict_miss r a σ h p Hc Hb) as Hm.
      unfold record_as_dict in Hm. rewrite Hc, Hb in Hm. simpl in Hm.
      rewrite Hm in Hrun. injection Hrun as <- <-. simpl.
      by rewrite lookup_insert_eq. }
  split_and!.
  - done.
  - intros σ2 Hsub. apply record_as_dict_hit.
    by eapply lookup_weaken.
  - intros. apply record_as_dict_cache_mono.
  - intros. apply iadd_cache_mono.
Qed.

Lemma as_dict_memoised_per_call_witness :
  ∃ row σ1,
    record_as_dict (sample_record 0 "warcinfo" "<urn:uuid:1>")
      (kwargs [("with_payload", true)]) one_stream_world = (Return row, σ1) ∧
    row !! "payload" = Some (VBytes "abc") ∧
    record_as_dict (sample_record 0 "warcinfo" "<urn:uuid:1>")
      (kwargs [("with_payload", true)]) σ1 = (Return row, σ1).
Proof.
  eexists _, _. split; [reflexivity |]. split; [reflexivity |].
  exact (proj1 (proj2
    (as_dict_memoised_per_call (sample_record 0 "warcinfo" "<urn:uuid:1>")
       (kwargs [("with_payload", true)]) one_stream_world _ _ eq_refl)) _
    (reflexivity _)).
Defined.

(** C7, counterexample.  The same record and the same flags, written once
    as [as_dict(with_payload=True)] and once as [as_dict(False, True)]: the
    second call misses the memo table, reads the drained stream again and
    returns a row with an empty payload instead of the first row. *)
Lemma as_dict_not_memoised_per_flags : ¬ memoised_per_flags.
Proof.
  intros H.
  specialize (H (sample_record 0 "warcinfo" "<urn:uuid:1>")
                (kwargs [("with_payload", true)])
                {| positional := [false; true]; keywords := [] |}
                (false, true) one_stream_world _ _ eq_refl eq_refl eq_refl).
  apply (f_equal (fun x => match x.1 with
                           | Return row => row !! "payload"
                           | Raise _ => None
                           end)) in H.
  vm_compute in H. discriminate H.
Qed.

(** ** The import command *)

Lemma unmet_reference_dbs σ σ' path t :
  w_dbs σ' = w_dbs σ → unmet_reference σ' path t = unmet_reference σ path t.
Proof. intros Hd. unfold unmet_reference, lookup_table. by rewrite Hd. Qed.

(** A pass over supported records handles them in order until the end, or
    until the engine refuses one. *)
Lemma import_records_trace db raws σ :
  Forall (fun raw => raw_type raw ∈ supported_types) raws →
  ∃ handled o σ' calls printed,
    import_records db raws σ = (o, σ') ∧
    w_log σ' = w_log σ ++ calls ∧
    Forall2 (fun raw c => ic_db c = _db db ∧ ic_table c = raw_type raw)
            handled calls ∧
    w_stdout σ' = w_stdout σ ++ printed ∧
    Forall2 (fun raw r => ∃ n, r = mk_record n raw) handled printed ∧
    w_files σ' = w_files σ ∧ w_warnings σ' = w_warnings σ ∧
    ((o = Return db ∧ handled = raws) ∨
     (∃ pre raw post fk,
        raws = pre ++ raw :: post ∧ handled = pre ++ [raw] ∧
        o = Raise (AlterError fk.1.2 fk.2) ∧
        unmet_reference σ' (_db db) (raw_type raw) = Some fk)).
Proof.
  intros Hall. revert σ.
  induction Hall as [| raw raws Hsup Hall IH]; intros σ.
  - exists [], (Return db), σ, [], []. rewrite !app_nil_r.
    split_and!; [done | done | constructor | done | constructor | done | done |].
    by left.
  - rewrite import_records_cons.
    destruct (iadd_supported_effect db (mk_record (w_next σ) raw)
                (after_yield raw σ) Hsup)
      as (row & o1 & σ1 & Hrun & Hlog & _ & Hdest & _ & _ & (Hf & _ & Hout & Hw) & _).
    rewrite Hrun. simpl in Hdest.
    destruct (unmet_reference (after_yield raw σ) (_db db) (raw_type raw))
      as [fk |] eqn:Hu.
    + destruct Hdest as [-> Hdbs].
      eexists [raw], _, σ1, [_], [mk_record (w_next σ) raw]. split_and!.
      * done.
      * exact Hlog.
      * by apply Forall2_cons_2.
      * exact Hout.
      * apply Forall2_cons_2; [by eexists | done].
      * exact Hf.
      * exact Hw.
      * right. exists [], raw, raws, fk. split_and!; try done.
        by rewrite (unmet_reference_dbs _ _ _ _ Hdbs).
    + destruct Hdest as [-> _].
      destruct (IH σ1) as (handled & o & σ' & calls & printed & Hrun' & Hlog' &
                           Hcalls & Hout' & Hprinted & Hf' & Hw' & Hend).
      eexists (raw :: handled), o, σ', (_ :: calls), (_ :: printed). split_and!.
      * done.
      * rewrite Hlog', Hlog. simpl. by rewrite <- app_assoc.
      * by constructor.
      * rewrite Hout', Hout. simpl. by rewrite <- app_assoc.
      * constructor; [by eexists | done].
      * by rewrite Hf', Hf.
      * by rewrite Hw', Hw.
      * destruct Hend as [[-> ->] | (pre & raw' & post & fk & -> & -> & -> & Hu')].
        -- by left.
        -- right. by exists (raw :: pre), raw', post, fk.
Qed.

Lemma import_files_trace db warc_path σ :
  archives_supported σ warc_path →
  ∃ handled o σ' calls printed,
    import_files db warc_path σ = (o, σ') ∧
    w_log σ' = w_log σ ++ calls ∧
    Forall2 (fun raw c => ic_db c = _db db ∧ ic_table c = raw_type raw)
            handled calls ∧
    w_stdout σ' = w_stdout σ ++ printed ∧
    Forall2 (fun raw r => ∃ n, r = mk_record n raw) handled printed ∧
    w_files σ' = w_files σ ∧ w_warnings σ' = w_warnings σ ∧
    ((o = Return db ∧ handled = all_records σ warc_path) ∨
     (∃ pre raw post fk,
        all_records σ warc_path = pre ++ raw :: post ∧ handled = pre ++ [raw] ∧
        o = Raise (AlterError fk.1.2 fk.2) ∧
        unmet_reference σ' (_db db) (raw_type raw) = Some fk)).
Proof.
  intros Hok. revert σ Hok.
  induction warc_path as [| f fs IH]; intros σ Hok.
  - exists [], (Return db), σ, [], []. rewrite !app_nil_r.
    split_and!; [done | done | constructor | done | constructor | done | done |].
    by left.
  - apply Forall_cons_1 in Hok as [(raws & Hf & Hraws) Hok].
    rewrite import_files_cons, Hf.
    assert (all_records σ (f :: fs) = raws ++ all_records σ fs) as ->
      by (unfold all_records; simpl; by rewrite Hf).
    destruct (import_records_trace db raws σ Hraws)
      as (handled1 & o1 & σ1 & calls1 & printed1 & Hrun1 & Hlog1 & Hcalls1 &
          Hout1 & Hpr1 & Hf1 & Hw1 & Hend1).
    rewrite Hrun1.
    destruct Hend1 as [[-> ->] | (pre & raw & post & fk & -> & -> & -> & Hu)].
    + destruct (IH σ1) as (handled & o & σ' & calls & printed & Hrun' & Hlog' &
                           Hcalls & Hout' & Hprinted & Hf' & Hw' & Hend).
      { unfold archives_supported. by rewrite Hf1. }
      assert (all_records σ1 fs = all_records σ fs) as Hall
        by (unfold all_records; by rewrite Hf1).
      rewrite Hall in *.
      exists (raws ++ handled), o, σ', (calls1 ++ calls), (printed1 ++ printed).
      split_and!.
      * done.
      * by rewrite Hlog', Hlog1, <- app_assoc.
      * by apply Forall2_app.
      * by rewrite Hout', Hout1, <- app_assoc.
      * by apply Forall2_app.
      * congruence.
      * congruence.
      * destruct Hend as [[-> ->] | (pre & raw & post & fk & -> & -> & -> & Hu)].
        -- by left.
        -- right. exists (raws ++ pre), raw, post, fk.
           by rewrite <- !app_assoc.
    + exists (pre ++ [raw]), (Raise (AlterError fk.1.2 fk.2)), σ1, calls1, printed1.
      split_and!; try done.
      right. exists pre, raw, (post ++ all_records σ fs), fk.
      by rewrite <- app_assoc.
Qed.

Lemma add_all_app self pre post σ :
  add_all self (pre ++ post) σ =
    match add_all self pre σ with
    | (Return db', σ') => add_all db' post σ'
    | (Raise e, σ') => (Raise e, σ')
    end.
Proof.
  revert self σ. induction pre as [| r pre IH]; intros self σ; [done |].
  simpl. run. destruct (__iadd__ self r σ) as [[db' | e] σ']; [apply IH | done].
Qed.

(** ** Tables only grow *)

Lemma tables_grow_refl σ : tables_grow σ σ.
Proof. intros path t rows H. exists []. by rewrite app_nil_r. Qed.

Lemma tables_grow_trans σ1 σ2 σ3 :
  tables_grow σ1 σ2 → tables_grow σ2 σ3 → tables_grow σ1 σ3.
Proof.
  intros H12 H23 path t rows H.
  destruct (H12 _ _ _ H) as [added1 H1]. destruct (H23 _ _ _ H1) as [added2 H2].
  exists (added1 ++ added2). by rewrite app_assoc.
Qed.

Lemma iadd_tables_grow self r σ : tables_grow σ (__iadd__ self r σ).2.
Proof.
  destruct (decide (rec_type r ∈ supported_types)) as [Hsup | Hun].
  - destruct (iadd_supported_effect self r σ Hsup)
      as (row & o & σ' & Hrun & _ & Hother & Hdest & _).
    rewrite Hrun. simpl in *. intros path t rows Hrows.
    destruct (decide (path = _db self ∧ t = rec_type r)) as [[-> ->] | Hne].
    + unfold unmet_reference in Hdest. rewrite Hrows in Hdest.
      destruct Hdest as [_ Hdest]. simpl in Hdest. destruct (pk_conflict _ _ _).
      * exists []. unfold lookup_table in *. by rewrite Hdest, app_nil_r.
      * by exists [row].
    + exists []. rewrite app_nil_r, Hother; [done |].
      destruct (decide (path = _db self)) as [-> | ?];
      [right; intros ->; by apply Hne | by left].
  - rewrite (iadd_unsupported _ _ Hun). apply tables_grow_refl.
Qed.

Lemma after_warning_lookup bs σ path t :
  lookup_table (after_warning bs σ) path t = lookup_table σ path t.
Proof.
  unfold lookup_table. by destruct (after_warning_frame bs σ) as (_ & -> & _).
Qed.

Lemma after_warning_tables_grow bs σ : tables_grow σ (after_warning bs σ).
Proof.
  intros path t rows H. exists []. by rewrite app_nil_r, after_warning_lookup.
Qed.

(** X1.  Ingestion never removes, changes or reorders a stored row: after
    [db += r], after a run of such additions and after the import command,
    every table that existed holds its old rows first, in their old order,
    followed by whatever was added, whatever the outcome.  Nothing is rolled
    back when a run fails: a run of additions, and likewise the import loop
    over the records of an archive, that raises at some record ends with
    the databases exactly as the records before that one left them. *)
Theorem ingestion_only_appends (σ : World) :
  (∀ self r, tables_grow σ (__iadd__ self r σ).2) ∧
  (∀ self rs, tables_grow σ (add_all self rs σ).2) ∧
  (∀ db_path warc_path batch_size,
     tables_grow σ (import_ db_path warc_path batch_size σ).2) ∧
  (∀ self pre r post σ1 e σ2,
     add_all self pre σ = (Return self, σ1) →
     __iadd__ self r σ1 = (Raise e, σ2) →
     add_all self (pre ++ r :: post) σ = (Raise e, σ2) ∧
     w_dbs σ2 = w_dbs σ1) ∧
  (∀ db pre raw post σ1 e σ2,
     import_records db pre σ = (Return db, σ1) →
     __iadd__ db (mk_record (w_next σ1) raw) (after_yield raw σ1) = (Raise e, σ2) →
     import_records db (pre ++ raw :: post) σ = (Raise e, σ2) ∧
     w_dbs σ2 = w_dbs σ1).
Proof.
  split_and!.
  - intros. apply iadd_tables_grow.
  - intros. apply (add_all_rel tables_grow (_db self));
      [apply tables_grow_refl | apply tables_grow_trans
      | intros; apply iadd_tables_grow | done].
  - intros. apply import_rel.
    + apply tables_grow_refl.
    + apply tables_grow_trans.
    + intros raw σ0. exact (tables_grow_refl σ0).
    + apply after_warning_tables_grow.
    + intros. apply iadd_tables_grow.
  - intros self pre r post σ1 e σ2 Hpre Hr.
    split; [| by apply (iadd_raise_dbs self r σ1 e σ2)].
    rewrite add_all_app, Hpre. simpl. run. by rewrite Hr.
  - intros db pre raw post σ1 e σ2 Hpre Hr.
    split; [| by apply (iadd_raise_dbs _ _ _ _ _ Hr)].
    by rewrite import_records_app, Hpre, import_records_cons, Hr.
Qed.

Lemma ingestion_only_appends_witness :
  (add_all (opened "a.warcdb" None)
     [sample_record 0 "warcinfo" "<urn:uuid:1>";
      sample_record 1 "revisit" "<urn:uuid:2>"; sample_request] empty_world).1
  = Raise (ValueError (unsupported_message "revisit")) ∧
  w_dbs (add_all (opened "a.warcdb" None)
           [sample_record 0 "warcinfo" "<urn:uuid:1>";
            sample_record 1 "revisit" "<urn:uuid:2>"; sample_request] empty_world).2
  = w_dbs (add_all (opened "a.warcdb" None)
             [sample_record 0 "warcinfo" "<urn:uuid:1>"] empty_world).2.
Proof.
  set (d := opened "a.warcdb" None).
  set (w := sample_record 0 "warcinfo" "<urn:uuid:1>").
  set (v := sample_record 1 "revisit" "<urn:uuid:2>").
  assert ((add_all d [w] empty_world).1 = Return d) as Hpre
    by (vm_compute; reflexivity).
  assert ((__iadd__ d v (add_all d [w] empty_world).2).1
          = Raise (ValueError (unsupported_message "revisit"))) as Hr
    by (vm_compute; reflexivity).
  destruct (proj1 (proj2 (proj2 (proj2 (ingestion_only_appends empty_world))))
              d [w] v [sample_request] (add_all d [w] empty_world).2
              (ValueError (unsupported_message "revisit"))
              (__iadd__ d v (add_all d [w] empty_world).2).2) as [Hrun Hdbs].
  - rewrite <- Hpre. apply surjective_pairing.
  - rewrite <- Hr. apply surjective_pairing.
  - change ([w] ++ v :: [sample_request]) with [w; v; sample_request] in Hrun.
    rewrite Hrun. split; [reflexivity | exact Hdbs].
Defined.

(** ** What an import may write *)

Lemma iadd_frame self r σ path t :
  path ≠ _db self ∨ t ∉ supported_types →
  lookup_table (__iadd__ self r σ).2 path t = lookup_table σ path t.
Proof.
  intros Hne. destruct (decide (rec_type r ∈ supported_types)) as [Hsup | Hun].
  - destruct (iadd_supported_effect self r σ Hsup)
      as (row & o & σ' & Hrun & _ & Hother & _).
    rewrite Hrun. apply Hother. destruct Hne as [? | Ht]; [by left | right].
    by intros ->.
  - by rewrite (iadd_unsupported _ _ Hun).
Qed.

(** X2.  The import command writes only to the five record-type tables of
    the database it is given: every table of every other database, and every
    other table of that database, is after the run what it was before,
    whatever the archives hold and however the run ends.  In particular the
    tables behind the accessors [http_headers] and [payloads] are never
    written, and neither is the one behind [records]. *)
Theorem import_writes_only_type_tables (db_path : str)
    (warc_path : list str) (batch_size : Z) (σ : World) :
  let σ' := (import_ db_path warc_path batch_size σ).2 in
  let self := opened db_path (Some batch_size) in
  (∀ path t, path ≠ db_path ∨ t ∉ supported_types →
     lookup_table σ' path t = lookup_table σ path t) ∧
  handle_table σ' (Accessors.http_headers self)
  = handle_table σ (Accessors.http_headers self) ∧
  handle_table σ' (Accessors.payloads self)
  = handle_table σ (Accessors.payloads self) ∧
  handle_table σ' (Accessors.records self)
  = handle_table σ (Accessors.records self).
Proof.
  intros σ' self.
  assert (∀ path t, path ≠ db_path ∨ t ∉ supported_types →
            lookup_table σ' path t = lookup_table σ path t) as Hframe.
  { intros path t Hne. unfold σ'.
    apply (import_rel
             (fun σ1 σ2 => lookup_table σ2 path t = lookup_table σ1 path t) db_path).
    - done.
    - intros σ1 σ2 σ3 H12 H23. by rewrite H23.
    - done.
    - intros. apply after_warning_lookup.
    - intros self0 r σ0 Hdb. apply iadd_frame. by rewrite Hdb. }
  assert (∀ t, t ∈ ["http_headers"; "payloads"; "records"] → t ∉ supported_types)
    as Hnot.
  { intros t Ht Hsup. unfold supported_types in Hsup.
    rewrite !elem_of_cons, elem_of_nil in Ht.
    rewrite !elem_of_cons, elem_of_nil in Hsup.
    destruct Ht as [-> | [-> | [-> | []]]];
      destruct Hsup as [? | [? | [? | [? | [? | []]]]]]; discriminate. }
  split_and!; [exact Hframe | | |]; apply Hframe; right; apply Hnot; simpl.
  - apply list_elem_of_here.
  - apply list_elem_of_further, list_elem_of_here.
  - do 2 apply list_elem_of_further. apply list_elem_of_here.
Qed.

(** C8 (as amended).  Given archives that exist and hold only records of
    supported types, the import command prints and adds the records one by
    one, files in the order given and records in file order: one insert
    call per record, into the table of its type in the database named.  It
    goes through every record of every file and returns [None], not a
    count, unless the engine refuses an insert; the run then ends at that
    record with the engine's [AlterError], the records after it unread.  In
    a database that already has the five record-type tables no insert is
    refused. *)
Theorem import_processes_all_in_order (db_path : str) (warc_path : list str)
    (batch_size : Z) (σ : World) :
  archives_supported σ warc_path →
  ∃ handled o σ' calls printed,
    import_ db_path warc_path batch_size σ = (o, σ') ∧
    w_log σ' = w_log σ ++ calls ∧
    Forall2 (fun raw c => ic_db c = db_path ∧ ic_table c = raw_type raw)
            handled calls ∧
    w_stdout σ' = w_stdout σ ++ printed ∧
    Forall2 (fun raw r => ∃ n, r = mk_record n raw) handled printed ∧
    ((o = Return PyNone ∧ handled = all_records σ warc_path) ∨
     (∃ pre raw post fk,
        all_records σ warc_path = pre ++ raw :: post ∧ handled = pre ++ [raw] ∧
        o = Raise (AlterError fk.1.2 fk.2) ∧
        unmet_reference σ' db_path (raw_type raw) = Some fk)) ∧
    ((∀ t, t ∈ supported_types → is_Some (lookup_table σ db_path t)) →
     o = Return PyNone).
Proof.
  intros Hok. rewrite import_unfold.
  destruct (after_warning_frame batch_size σ) as (_ & _ & Hf & Hl & Ho & _).
  destruct (import_files_trace (opened db_path (Some batch_size)) warc_path
              (after_warning batch_size σ))
    as (handled & o & σ' & calls & printed & Hrun & Hlog & Hcalls & Hout & Hpr &
        _ & _ & Hend).
  { unfold archives_supported. by rewrite Hf. }
  assert (all_records (after_warning batch_size σ) warc_path
          = all_records σ warc_path) as Hall
    by (unfold all_records; by rewrite Hf).
  rewrite Hall in *.
  assert (tables_grow σ σ') as Hgrow.
  { eapply tables_grow_trans; [apply (after_warning_tables_grow batch_size) |].
    replace σ' with (import_files (opened db_path (Some batch_size)) warc_path
                       (after_warning batch_size σ)).2 by (by rewrite Hrun).
    apply (import_files_rel tables_grow db_path);
      [apply tables_grow_refl | apply tables_grow_trans
      | intros raw σ0; exact (tables_grow_refl σ0)
      | intros; apply iadd_tables_grow | done]. }
  exists handled,
    (match o with Return _ => Return PyNone | Raise e => Raise e end), σ', calls, printed.
  rewrite Hrun. simpl in *.
  destruct Hend as [[-> ->] | (pre & raw & post & fk & Hsplit & -> & -> & Hu)].
  - split_and!; [done | congruence | done | congruence | done | by left | done].
  - split_and!; [done | congruence | done | congruence | done | |].
    + right. by exists pre, raw, post, fk.
    + intros Htables. exfalso.
      assert (raw_type raw ∈ supported_types) as Hsup.
      { assert (Forall (fun raw => raw_type raw ∈ supported_types)
                  (all_records σ warc_path)) as Hrec.
        { clear -Hok. induction Hok as [| f fs (raws & Hf & Hraws) Hok IH];
            [constructor |].
          unfold all_records in *. simpl. rewrite Hf. simpl.
          by apply Forall_app. }
        rewrite Hsplit in Hrec. apply Forall_app in Hrec as [_ Hrec].
        by apply Forall_cons_1 in Hrec as [? _]. }
      destruct (Htables _ Hsup) as [rows Hrows].
      destruct (Hgrow _ _ _ Hrows) as [added Hrows'].
      unfold unmet_reference in Hu. by rewrite Hrows' in Hu.
Qed.

Lemma two_file_world_supported :
  archives_supported two_file_world ["a.warc"; "b.warc"].
Proof.
  apply Forall_cons_2; [| apply Forall_cons_2; [| apply Forall_nil_2]].
  - eexists. split; [reflexivity |].
    apply Forall_cons_2; [apply list_elem_of_here |].
    apply Forall_cons_2; [apply list_elem_of_further, list_elem_of_here |].
    apply Forall_nil_2.
  - eexists. split; [reflexivity |].
    apply Forall_cons_2; [| apply Forall_nil_2].
    do 2 apply list_elem_of_further. apply list_elem_of_here.
Qed.

Lemma import_processes_all_in_order_witness :
  archives_supported two_file_world ["a.warc"; "b.warc"] ∧
  ∃ σ' calls,
    import_ "a.warcdb" ["a.warc"; "b.warc"] 1000 two_file_world
      = (Return PyNone, σ') ∧
    w_log σ' = calls ∧
    ic_table <$> calls = ["warcinfo"; "request"; "response"].
Proof.
  split; [exact two_file_world_supported |].
  destruct (import_processes_all_in_order "a.warcdb" ["a.warc"; "b.warc"] 1000
              two_file_world two_file_world_supported)
    as (handled & o & σ' & calls & printed & Hrun & Hlog & Hcalls & _ & _ & Hend & _).
  assert ((import_ "a.warcdb" ["a.warc"; "b.warc"] 1000 two_file_world).1
          = Return PyNone) as Hfst by (vm_compute; reflexivity).
  rewrite Hrun in Hfst. simpl in Hfst. subst o.
  destruct Hend as [[_ ->] | (pre & raw & post & fk & _ & _ & Hraise & _)];
    [| discriminate Hraise].
  exists σ', calls. split_and!; [exact Hrun | exact Hlog |].
  clear -Hcalls. change (all_records two_file_world ["a.warc"; "b.warc"])
    with (clean_archive ++ [sample_raw "response" "<urn:uuid:4>" "HTTP/1.1 200 OK"])
    in Hcalls.
  apply Forall2_cons_inv_l in Hcalls as (c1 & calls1 & [_ H1] & Hcalls & ->).
  apply Forall2_cons_inv_l in Hcalls as (c2 & calls2 & [_ H2] & Hcalls & ->).
  apply Forall2_cons_inv_l in Hcalls as (c3 & calls3 & [_ H3] & Hcalls & ->).
  apply Forall2_nil_inv_l in Hcalls as ->.
  simpl. by rewrite H1, H2, H3.
Defined.

Lemma one_record_archive_supported :
  archives_supported
    (sample_world [sample_raw "warcinfo" "<urn:uuid:1>" "software: x"]) ["a.warc"].
Proof.
  constructor; [| constructor]. eexists. split; [reflexivity |].
  constructor; [| constructor]. simpl. apply list_elem_of_here.
Qed.

(** C8, counterexample.  On an archive of one warcinfo record the command
    returns [None], not the count 1. *)
Lemma import_returns_none_not_count : ¬ import_returns_count.
Proof.
  intros H.
  destruct (H "a.warcdb" ["a.warc"] 1000%Z
              (sample_world [sample_raw "warcinfo" "<urn:uuid:1>" "software: x"])
              one_record_archive_supported) as (σ' & Hrun).
  apply (f_equal fst) in Hrun. vm_compute in Hrun. discriminate Hrun.
Qed.

(** C9 (as amended).  The import command issues the warning that batching
    is disabled exactly once when --batch-size is not 0 (the default 1000
    included) and not at all when it is 0.  Apart from that warning the
    run is the same for every value: the same outcome, the same single-row
    insert calls in the same order, the same databases and the same
    output. *)
Theorem batch_size_only_warns (db_path : str) (warc_path : list str)
    (batch_size : Z) (σ : World) :
  w_warnings (import_ db_path warc_path batch_size σ).2
  = w_warnings σ ++
    (if bool_decide (batch_size ≠ 0%Z)
     then ["--batch-size has been temporarily disabled"] else []) ∧
  (import_ db_path warc_path batch_size σ).1
  = (import_ db_path warc_path 0 σ).1 ∧
  w_log (import_ db_path warc_path batch_size σ).2
  = w_log (import_ db_path warc_path 0 σ).2 ∧
  w_dbs (import_ db_path warc_path batch_size σ).2
  = w_dbs (import_ db_path warc_path 0 σ).2 ∧
  w_stdout (import_ db_path warc_path batch_size σ).2
  = w_stdout (import_ db_path warc_path 0 σ).2.
Proof.
  rewrite !import_unfold.
  set (d := opened db_path (Some batch_size)).
  set (d0 := opened db_path (Some 0%Z)).
  destruct (import_files_same_db d d0 warc_path σ eq_refl) as [Hr Hw].
  assert (after_warning 0 σ = σ) as -> by done.
  assert (∀ (o : outcome WarcDB) (σ' : World),
            (match o with
             | Return _ => (Return PyNone, σ')
             | Raise e => (Raise e, σ')
             end).2 = σ') as Hsnd by (by intros []).
  assert (∀ (o1 o2 : outcome WarcDB) (σ1 σ2 : World), raised o1 = raised o2 →
            (match o1 with
             | Return _ => (Return PyNone, σ1)
             | Raise e => (Raise e, σ1)
             end).1 =
            (match o2 with
             | Return _ => (Return PyNone, σ2)
             | Raise e => (Raise e, σ2)
             end).1) as Hfst.
  { intros [] [] ? ?; simpl; congruence. }
  unfold after_warning. case_bool_decide.
  - rewrite import_files_warnings.
    destruct (import_files d warc_path σ) as [o1 σ1] eqn:H1.
    destruct (import_files d0 warc_path σ) as [o2 σ2] eqn:H2.
    simpl in *. subst σ2.
    pose proof (import_files_keeps_warnings d warc_path σ) as Hkeep.
    rewrite H1 in Hkeep. simpl in Hkeep.
    rewrite !Hsnd. simpl. rewrite Hkeep.
    split_and!; try done. by apply Hfst.
  - destruct (import_files d warc_path σ) as [o1 σ1] eqn:H1.
    destruct (import_files d0 warc_path σ) as [o2 σ2] eqn:H2.
    simpl in *. subst σ2.
    pose proof (import_files_keeps_warnings d warc_path σ) as Hkeep.
    rewrite H1 in Hkeep. simpl in Hkeep.
    rewrite !Hsnd. rewrite Hkeep, app_nil_r.
    split_and!; try done. by apply Hfst.
Qed.

(** C9, counterexample.  With --batch-size 0 no warning is issued. *)
Lemma import_batch_size_zero_is_silent : ¬ import_always_warns.
Proof.
  intros H.
  specialize (H "a.warcdb" ["a.warc"] 0%Z
                (sample_world [sample_raw "warcinfo" "<urn:uuid:1>" "software: x"])).
  vm_compute in H. discriminate H.
Qed.

(** ** JSON round trip *)

Lemma chars_text l : chars (text l) = l.
Proof. reflexivity. Qed.

Lemma text_chars s : text (chars s) = s.
Proof. by destruct s. Qed.

Lemma all_from_spec fuel n P :
  all_from fuel n P = true → ∀ m, (n ≤ m < n + N.of_nat fuel)%N → P m = true.
Proof.
  revert n. induction fuel as [| fuel IH]; intros n H m Hm; [lia |].
  simpl in H. apply andb_true_iff in H as [Hn H].
  destruct (decide (m = n)) as [-> | Hne]; [done |].
  apply (IH _ H). lia.
Qed.

Lemma hex_digit_value d : (d < 16)%N → hex_value (hex_digit d) = Some d.
Proof.
  intros Hd.
  assert (all_from 16 0 (fun d => bool_decide (hex_value (hex_digit d) = Some d)) = true)
    as H by (vm_compute; reflexivity).
  pose proof (all_from_spec _ _ _ H d) as H'. simpl in H'.
  eapply bool_decide_eq_true_1, H'. lia.
Qed.

Lemma decode_hex4 n :
  (n < 65536)%N →
  decode_uXXXX (hex_digit (n / 4096 mod 16)) (hex_digit (n / 256 mod 16))
               (hex_digit (n / 16 mod 16)) (hex_digit (n mod 16)) = Some n.
Proof.
  intros Hn. unfold decode_uXXXX.
  rewrite !hex_digit_value by (apply N.mod_lt; lia).
  f_equal.
  zify. Z.to_euclidean_division_equations. lia.
Qed.

Lemma scanstring_plain c rest :
  (32 ≤ c)%N → c ≠ 34%N → c ≠ 92%N →
  scanstring (c :: rest) =
    match scanstring rest with
    | Some (s, tl) => Some (c :: s, tl)
    | None => None
    end.
Proof.
  intros H32 H34 H92. simpl.
  rewrite (proj2 (N.eqb_neq c 34) H34), (proj2 (N.eqb_neq c 92) H92).
  by rewrite (proj2 (N.ltb_ge c 32) H32).
Qed.

Lemma scanstring_short e ch rest :
  unescape e = Some ch →
  scanstring (92%N :: e :: rest) =
    match scanstring rest with
    | Some (s, tl) => Some (ch :: s, tl)
    | None => None
    end.
Proof.
  intros He. simpl.
  destruct (e =? 117)%N eqn:Hu.
  - apply N.eqb_eq in Hu as ->. discriminate He.
  - by rewrite He.
Qed.

Lemma scanstring_u_alone h1 h2 h3 h4 rest uni :
  decode_uXXXX h1 h2 h3 h4 = Some uni →
  (high_surrogate uni = true → starts_low rest = false) →
  scanstring (92%N :: 117%N :: h1 :: h2 :: h3 :: h4 :: rest) =
    match scanstring rest with
    | Some (s, tl) => Some (uni :: s, tl)
    | None => None
    end.
Proof.
  intros Hd Hlow. cbn [scanstring N.eqb Pos.eqb]. rewrite Hd.
  destruct (high_surrogate uni); [| done].
  specialize (Hlow eq_refl). unfold starts_low in Hlow.
  destruct rest as [| b [| u [| k1 [| k2 [| k3 [| k4 rest3]]]]]]; try done.
  destruct ((b =? 92) && (u =? 117))%N; [| done]. simpl in Hlow.
  destruct (decode_uXXXX k1 k2 k3 k4) as [uni2 |]; [| done].
  by rewrite Hlow.
Qed.

Lemma scanstring_u_pair h1 h2 h3 h4 k1 k2 k3 k4 rest uni uni2 :
  decode_uXXXX h1 h2 h3 h4 = Some uni → high_surrogate uni = true →
  decode_uXXXX k1 k2 k3 k4 = Some uni2 → low_surrogate uni2 = true →
  scanstring (92%N :: 117%N :: h1 :: h2 :: h3 :: h4 ::
              92%N :: 117%N :: k1 :: k2 :: k3 :: k4 :: rest) =
    match scanstring rest with
    | Some (s, tl) =>
        Some ((65536 + N.lor (N.shiftl (uni - 55296) 10) (uni2 - 56320))%N :: s, tl)
    | None => None
    end.
Proof.
  intros Hd Hh Hd2 Hl. cbn [scanstring N.eqb Pos.eqb andb]. by rewrite Hd, Hh, Hd2, Hl.
Qed.

Lemma lor_shiftl_small x k b :
  (b < 2 ^ k)%N → N.lor (N.shiftl x k) b = (x * 2 ^ k + b)%N.
Proof.
  intros Hb.
  assert (N.land (N.shiftl x k) b = 0%N) as Hland.
  { apply N.bits_inj. intros n. rewrite N.land_spec, N.bits_0.
    destruct (decide (n < k)%N) as [Hlt | Hge].
    - by rewrite N.shiftl_spec_low.
    - rewrite <- (N.mod_small b (2 ^ k)) by done.
      rewrite N.mod_pow2_bits_high by lia. apply andb_false_r. }
  rewrite <- N.lxor_lor by done. rewrite <- N.add_nocarry_lxor by done.
  by rewrite N.shiftl_mul_pow2.
Qed.

(** The two halves of the surrogate pair the encoder writes for a code
    point above [0xFFFF]. *)
Lemma surrogate_halves c :
  (65536 ≤ c < 1114112)%N →
  let n := (c - 65536)%N in
  N.lor 55296 (N.land (N.shiftr n 10) 1023) = (55296 + n / 1024)%N ∧
  N.lor 56320 (N.land n 1023) = (56320 + n mod 1024)%N ∧
  (n / 1024 < 1024)%N ∧ (n mod 1024 < 1024)%N ∧
  (65536 + N.lor (N.shiftl (n / 1024) 10) (n mod 1024))%N = c.
Proof.
  intros Hc n.
  assert (n < 1048576)%N as Hn by (unfold n; lia).
  assert (n / 1024 < 1024)%N as Hhi by (apply N.Div0.div_lt_upper_bound; lia).
  assert (n mod 1024 < 1024)%N as Hlo by (apply N.mod_lt; lia).
  assert (N.land (N.shiftr n 10) 1023 = n / 1024)%N as ->.
  { change 1023%N with (N.ones 10). rewrite N.land_ones, N.shiftr_div_pow2.
    change (2 ^ 10)%N with 1024%N. by apply N.mod_small. }
  assert (N.land n 1023 = n mod 1024)%N as ->.
  { change 1023%N with (N.ones 10). by rewrite N.land_ones. }
  change 55296%N with (N.shiftl 54 10). change 56320%N with (N.shiftl 55 10).
  rewrite !lor_shiftl_small by done.
  change (2 ^ 10)%N with 1024%N.
  split_and!; [done | done | done | done |].
  pose proof (N.div_mod n 1024). unfold n in *. lia.
Qed.

(** Scanning the escape of one character gives the character back, unless
    it is a high surrogate and the escape of a low surrogate follows. *)
Lemma scanstring_escape_char c rest :
  code_point c →
  (high_surrogate c = true → starts_low rest = false) →
  scanstring (escape_char c ++ rest) =
    match scanstring rest with
    | Some (s, tl) => Some (c :: s, tl)
    | None => None
    end.
Proof.
  intros Hc Hlow. unfold escape_char.
  destruct (c =? 34)%N eqn:H34; [apply N.eqb_eq in H34 as ->; by apply scanstring_short |].
  destruct (c =? 92)%N eqn:H92; [apply N.eqb_eq in H92 as ->; by apply scanstring_short |].
  destruct (c =? 8)%N eqn:H8; [apply N.eqb_eq in H8 as ->; by apply scanstring_short |].
  destruct (c =? 12)%N eqn:H12; [apply N.eqb_eq in H12 as ->; by apply scanstring_short |].
  destruct (c =? 10)%N eqn:H10; [apply N.eqb_eq in H10 as ->; by apply scanstring_short |].
  destruct (c =? 13)%N eqn:H13; [apply N.eqb_eq in H13 as ->; by apply scanstring_short |].
  destruct (c =? 9)%N eqn:H9; [apply N.eqb_eq in H9 as ->; by apply scanstring_short |].
  apply N.eqb_neq in H34, H92.
  destruct ((c <? 32) || (126 <? c))%N eqn:Hout.
  - destruct (c <? 65536)%N eqn:Hbmp.
    + apply N.ltb_lt in Hbmp. unfold u_escape, backslash. simpl app.
      apply scanstring_u_alone; [by apply decode_hex4 | done].
    + apply N.ltb_ge in Hbmp. unfold code_point in Hc.
      destruct (surrogate_halves c) as (Hhi & Hlo & Hhib & Hlob & Hjoin); [lia |].
      cbv zeta in *. rewrite Hhi, Hlo. clear Hhi Hlo. revert Hhib Hlob Hjoin.
      generalize ((c - 65536) / 1024)%N ((c - 65536) mod 1024)%N.
      intros a b Hhib Hlob Hjoin.
      unfold u_escape, backslash. simpl app.
      rewrite (scanstring_u_pair _ _ _ _ _ _ _ _ rest (55296 + a) (56320 + b)).
      * rewrite (N.add_comm 55296), N.add_sub, (N.add_comm 56320), N.add_sub.
        by rewrite Hjoin.
      * apply decode_hex4. lia.
      * unfold high_surrogate. apply andb_true_iff.
        split; apply N.leb_le; lia.
      * apply decode_hex4. lia.
      * unfold low_surrogate. apply andb_true_iff.
        split; apply N.leb_le; lia.
  - apply orb_false_iff in Hout as [H32 H126]. apply N.ltb_ge in H32.
    simpl app. by apply scanstring_plain.
Qed.

Lemma starts_low_first b rest : b ≠ 92%N → starts_low (b :: rest) = false.
Proof.
  intros Hb. unfold starts_low.
  destruct rest as [| u [| k1 [| k2 [| k3 [| k4 rest]]]]]; try done.
  by rewrite (proj2 (N.eqb_neq b 92) Hb).
Qed.

Lemma starts_low_second u rest : u ≠ 117%N → starts_low (92%N :: u :: rest) = false.
Proof.
  intros Hu. unfold starts_low.
  destruct rest as [| k1 [| k2 [| k3 [| k4 rest]]]]; try done.
  rewrite (proj2 (N.eqb_neq u 117) Hu). done.
Qed.

(** What follows the escape of a character in the text the encoder writes
    begins with the escape of a low surrogate only if the next character is
    one. *)
Lemma starts_low_escape l tl :
  Forall code_point l →
  starts_low (escape_chars l ++ dq :: tl) =
    match l with
    | c :: _ => low_surrogate c
    | [] => false
    end.
Proof.
  intros Hl. destruct l as [| c l]; [by apply starts_low_first |].
  apply Forall_cons_1 in Hl as [Hc _].
  unfold escape_chars. simpl flat_map. rewrite <- app_assoc.
  generalize (flat_map escape_char l ++ dq :: tl). intros rest.
  unfold escape_char.
  destruct (c =? 34)%N eqn:H34;
    [apply N.eqb_eq in H34 as ->; by apply starts_low_second |].
  destruct (c =? 92)%N eqn:H92;
    [apply N.eqb_eq in H92 as ->; by apply starts_low_second |].
  destruct (c =? 8)%N eqn:H8;
    [apply N.eqb_eq in H8 as ->; by apply starts_low_second |].
  destruct (c =? 12)%N eqn:H12;
    [apply N.eqb_eq in H12 as ->; by apply starts_low_second |].
  destruct (c =? 10)%N eqn:H10;
    [apply N.eqb_eq in H10 as ->; by apply starts_low_second |].
  destruct (c =? 13)%N eqn:H13;
    [apply N.eqb_eq in H13 as ->; by apply starts_low_second |].
  destruct (c =? 9)%N eqn:H9;
    [apply N.eqb_eq in H9 as ->; by apply starts_low_second |].
  apply N.eqb_neq in H34, H92.
  destruct ((c <? 32) || (126 <? c))%N eqn:Hout.
  - destruct (c <? 65536)%N eqn:Hbmp.
    + apply N.ltb_lt in Hbmp. unfold u_escape, backslash. simpl app.
      unfold starts_low. by rewrite decode_hex4.
    + apply N.ltb_ge in Hbmp. unfold code_point in Hc.
      destruct (surrogate_halves c) as (Hhi & Hlo & Hhib & Hlob & Hjoin); [lia |].
      cbv zeta in *. rewrite Hhi, Hlo. clear Hhi Hlo Hjoin. revert Hhib Hlob.
      generalize ((c - 65536) / 1024)%N ((c - 65536) mod 1024)%N.
      intros a b Hhib Hlob.
      unfold u_escape, backslash. simpl app.
      unfold starts_low. rewrite decode_hex4 by lia. simpl.
      unfold low_surrogate.
      rewrite (proj2 (N.leb_gt 56320 (55296 + a))) by lia.
      rewrite (proj2 (N.leb_gt c 57343)) by lia.
      by rewrite andb_false_r.
  - apply orb_false_iff in Hout as [H32 H126]. apply N.ltb_ge in H32, H126.
    simpl app. rewrite starts_low_first by done.
    unfold low_surrogate. rewrite (proj2 (N.leb_gt 56320 c)) by lia. done.
Qed.

(** Scanning what the encoder wrote for a string gives the string back. *)
Lemma scanstring_escape l tl :
  Forall code_point l → no_surrogate_pair l →
  scanstring (escape_chars l ++ dq :: tl) = Some (l, tl).
Proof.
  induction l as [| c l IH]; intros Hcp Hpair; [done |].
  apply Forall_cons_1 in Hcp as [Hc Hcp].
  change (escape_chars (c :: l)) with (escape_char c ++ escape_chars l).
  rewrite <- app_assoc, scanstring_escape_char.
  - rewrite IH; [done | done |]. destruct l; [done | by destruct Hpair].
  - done.
  - intros Hhigh. rewrite (starts_low_escape l tl Hcp).
    destruct l as [| c' l]; [done |]. destruct Hpair as [Hno _].
    destruct (low_surrogate c'); [| done]. by destruct Hno.
Qed.

Lemma encode_string_app s tl :
  encode_string s ++ tl = dq :: escape_chars (chars s) ++ dq :: tl.
Proof. unfold encode_string. simpl. by rewrite <- app_assoc. Qed.

Lemma parse_value_string n s tl :
  round_trips s →
  parse_value (S n) (encode_string s ++ tl) = Some (JString s, tl).
Proof.
  intros [Hcp Hpair]. rewrite encode_string_app.
  cbn [parse_value skip_ws dq is_ws N.eqb Pos.eqb orb].
  by rewrite scanstring_escape, text_chars.
Qed.

Lemma parse_value_space n s : parse_value n (32%N :: s) = parse_value n s.
Proof. by destruct n. Qed.

Lemma parse_items_space n s : parse_items n (32%N :: s) = parse_items n s.
Proof. destruct n; [done |]. simpl. by rewrite parse_value_space. Qed.

Lemma parse_members_space n s : parse_members n (32%N :: s) = parse_members n s.
Proof. by destruct n. Qed.

Lemma round_trips_header : round_trips "header".
Proof.
  split; [repeat (apply Forall_cons_2; [reflexivity |]); apply Forall_nil_2 |].
  simpl. repeat split; by intros [? ?].
Qed.

Lemma round_trips_value : round_trips "value".
Proof.
  split; [repeat (apply Forall_cons_2; [reflexivity |]); apply Forall_nil_2 |].
  simpl. repeat split; by intros [? ?].
Qed.

(** The text of one header object, followed by [tl]. *)
Lemma header_object_chars hv tl :
  dumps_chars (header_object hv) ++ tl =
    123%N :: encode_string "header" ++ 58%N :: 32%N ::
    encode_string hv.1 ++ 44%N :: 32%N ::
    encode_string "value" ++ 58%N :: 32%N ::
    encode_string hv.2 ++ 125%N :: tl.
Proof.
  unfold header_object. cbn [dumps_chars map join fst snd chars].
  rewrite <- !app_assoc. simpl. by rewrite <- !app_assoc.
Qed.

Lemma parse_members_S n s :
  parse_members (S n) s =
    match skip_ws s with
    | q :: rest =>
        if (q =? 34)%N then
          match scanstring rest with
          | Some (key, tl) =>
              match skip_ws tl with
              | c :: tl' =>
                  if (c =? 58)%N then
                    match parse_value n tl' with
                    | Some (v, tl'') =>
                        match skip_ws tl'' with
                        | d :: tl3 =>
                            if (d =? 44)%N then
                              match parse_members n tl3 with
                              | Some (ms, tl4) => Some ((text key, v) :: ms, tl4)
                              | None => None
                              end
                            else if (d =? 125)%N
                                 then Some ([(text key, v)], tl3)
                            else None
                        | [] => None
                        end
                    | None => None
                    end
                  else None
              | [] => None
              end
          | None => None
          end
        else None
    | [] => None
    end.
Proof. reflexivity. Qed.

(** Scanning one member [key: value] whose value is a string. *)
Lemma parse_member_prefix n kv rest :
  round_trips kv.1 → round_trips kv.2 →
  parse_members (S (S n))
    (encode_string kv.1 ++ 58%N :: 32%N :: encode_string kv.2 ++ rest) =
    match skip_ws rest with
    | d :: tl3 =>
        if (d =? 44)%N then
          match parse_members (S n) tl3 with
          | Some (ms, tl4) => Some ((kv.1, JString kv.2) :: ms, tl4)
          | None => None
          end
        else if (d =? 125)%N then Some ([(kv.1, JString kv.2)], tl3)
        else None
    | [] => None
    end.
Proof.
  intros [Hcp1 Hp1] Hrt2. rewrite parse_members_S, encode_string_app.
  cbn [skip_ws dq is_ws N.eqb Pos.eqb orb].
  rewrite scanstring_escape by done.
  cbn [skip_ws is_ws N.eqb Pos.eqb orb].
  rewrite parse_value_space, parse_value_string by done.
  by rewrite text_chars.
Qed.

Lemma parse_value_object_S n rest :
  parse_value (S n) (123%N :: dq :: rest) =
    match parse_members n (dq :: rest) with
    | Some (members, tl) => Some (JObject members, tl)
    | None => None
    end.
Proof. reflexivity. Qed.

Lemma parse_header_object n hv tl :
  round_trips hv.1 → round_trips hv.2 →
  parse_value (S (S (S (S n)))) (dumps_chars (header_object hv) ++ tl)
  = Some (header_object hv, tl).
Proof.
  intros H1 H2. rewrite header_object_chars.
  rewrite (encode_string_app "header"), parse_value_object_S, <- encode_string_app.
  rewrite (parse_member_prefix _ ("header", hv.1)) by (done || apply round_trips_header).
  cbn [skip_ws is_ws N.eqb Pos.eqb orb fst snd].
  rewrite parse_members_space.
  rewrite (parse_member_prefix _ ("value", hv.2)) by (done || apply round_trips_value).
  done.
Qed.

Lemma header_object_starts hv tl :
  ∃ rest, dumps_chars (header_object hv) ++ tl = 123%N :: dq :: rest.
Proof. rewrite header_object_chars. by eexists. Qed.

Lemma items_chars_one hv : items_chars [hv] = dumps_chars (header_object hv).
Proof. reflexivity. Qed.

Lemma items_chars_cons hv hv' hvs :
  items_chars (hv :: hv' :: hvs) =
    dumps_chars (header_object hv) ++ 44%N :: 32%N :: items_chars (hv' :: hvs).
Proof. reflexivity. Qed.

Lemma parse_items_S n s :
  parse_items (S n) s =
    match parse_value n s with
    | Some (v, tl) =>
        match skip_ws tl with
        | c :: tl' =>
            if (c =? 44)%N then
              match parse_items n tl' with
              | Some (vs, tl'') => Some (v :: vs, tl'')
              | None => None
              end
            else if (c =? 93)%N then Some ([v], tl')
            else None
        | [] => None
        end
    | None => None
    end.
Proof. reflexivity. Qed.

Lemma parse_header_object_fuel fuel hv tl :
  round_trips hv.1 → round_trips hv.2 → 4 ≤ fuel →
  parse_value fuel (dumps_chars (header_object hv) ++ tl)
  = Some (header_object hv, tl).
Proof.
  intros H1 H2 Hf. do 4 (destruct fuel as [| fuel]; [lia |]).
  by apply parse_header_object.
Qed.

Lemma parse_header_items hvs fuel tl :
  pairs_round_trip hvs →
  hvs ≠ [] → length hvs + 4 ≤ fuel →
  parse_items fuel (items_chars hvs ++ 93%N :: tl)
  = Some (map header_object hvs, tl).
Proof.
  intros Hrt. revert fuel.
  induction Hrt as [| hv hvs [H1 H2] Hrt IH]; [done |]. intros fuel _ Hf.
  destruct fuel as [| fuel]; [simpl in Hf; lia |].
  simpl in Hf. rewrite parse_items_S.
  destruct hvs as [| hv' hvs].
  - rewrite items_chars_one, parse_header_object_fuel by (done || lia). done.
  - rewrite items_chars_cons, <- app_assoc, parse_header_object_fuel
      by (done || simpl in Hf; lia).
    change (skip_ws ((44%N :: 32%N :: items_chars (hv' :: hvs)) ++ 93%N :: tl))
      with (44%N :: 32%N :: items_chars (hv' :: hvs) ++ 93%N :: tl).
    change (44 =? 44)%N with true. cbv iota.
    rewrite parse_items_space, IH by (simpl in *; done || lia). done.
Qed.

Lemma items_chars_length hvs : 3 * length hvs ≤ length (items_chars hvs).
Proof.
  induction hvs as [| hv hvs IH]; [done |].
  assert (3 ≤ length (dumps_chars (header_object hv))) as Hobj.
  { pose proof (header_object_chars hv []) as H. rewrite app_nil_r in H.
    rewrite H. simpl. lia. }
  destruct hvs as [| hv' hvs].
  - rewrite items_chars_one. simpl. lia.
  - rewrite items_chars_cons, length_app. simpl in *. lia.
Qed.

Lemma mapM_decode_pair hvs : mapM decode_pair (map header_object hvs) = Some hvs.
Proof.
  induction hvs as [| [h v] hvs IH]; [done |].
  simpl. rewrite IH. done.
Qed.

Lemma parse_value_array fuel rest :
  parse_value (S fuel) (91%N :: 123%N :: rest) =
    match parse_items fuel (123%N :: rest) with
    | Some (items, tl) => Some (JArray items, tl)
    | None => None
    end.
Proof. reflexivity. Qed.

(** [json.loads] reads the text [headers_to_json] wrote as the list of the
    header objects, in order. *)
Lemma loads_headers_to_json h :
  pairs_round_trip (headers h) →
  loads (headers_to_json h) = Some (JArray (map header_object (headers h))).
Proof.
  intros Hrt. unfold headers_to_json, loads, dumps.
  rewrite chars_text.
  change (map (fun hv => JObject [("header", JString hv.1); ("value", JString hv.2)])
              (headers h)) with (map header_object (headers h)).
  destruct (headers h) as [| hv hvs] eqn:Hh; [done |].
  rewrite <- Hh in *.
  assert (headers h ≠ []) as Hne by (by rewrite Hh).
  change (dumps_chars (JArray (map header_object (headers h))))
    with (91%N :: items_chars (headers h) ++ [93%N]).
  pose proof (items_chars_length (headers h)) as Hlen.
  assert (1 ≤ length (headers h)) as Hpos by (rewrite Hh; simpl; lia).
  assert (∃ rest, items_chars (headers h) ++ [93%N] = 123%N :: dq :: rest)
    as [rest Hrest].
  { rewrite Hh. destruct hvs.
    - rewrite items_chars_one. apply header_object_starts.
    - rewrite items_chars_cons, <- app_assoc. apply header_object_starts. }
  assert (length (headers h) + 4
          ≤ length (91%N :: items_chars (headers h) ++ [93%N])) as Hfuel.
  { simpl. rewrite length_app. simpl. lia. }
  revert Hfuel. generalize (length (91%N :: items_chars (headers h) ++ [93%N])).
  intros fuel Hfuel.
  rewrite Hrest, parse_value_array, <- Hrest.
  by rewrite parse_header_items.
Qed.

(** Decoding what [headers_to_json] wrote gives the header pairs back, in
    order. *)
Lemma decode_headers_to_json h :
  pairs_round_trip (headers h) →
  decode_headers (headers_to_json h) = Some (headers h).
Proof.
  intros Hrt. unfold decode_headers. rewrite loads_headers_to_json by done.
  apply mapM_decode_pair.
Qed.

Example decode_headers_to_json_example :
  decode_headers (headers_to_json
    {| statusline := "GET / HTTP/1.1";
       headers := [("User-Agent", "x"); ("Accept", "*/*")];
       protocol := "HTTP/1.1" |})
  = Some [("User-Agent", "x"); ("Accept", "*/*")].
Proof. vm_compute. reflexivity. Qed.

(** ** The HTTP headers of a row *)

(** C5 (as amended).  With the http-headers flag on, the row always has
    the key http_headers.  For a record whose HTTP envelope is not empty (it
    has a status line or at least one header) the value is the JSON text
    [headers_to_json] writes, which [json.loads] reads as the list of
    {header, value} objects, one per header pair, in the order of the
    envelope (provided the decoder gives every name and value back as it
    was).  For a record without an envelope, and for one whose envelope is
    empty, the value is [None]. *)
Theorem as_dict_http_headers (r : ArcWarcRecord) (a : CallArgs) (p : bool)
    (σ : World) :
  cache_sound σ →
  bind_args a = Some (true, p) →
  ∃ row σ',
    record_as_dict r a σ = (Return row, σ') ∧
    match http_headers r with
    | Some e =>
        if StatusAndHeaders_bool e then
          row !! "http_headers" = Some (VStr (headers_to_json e)) ∧
          (pairs_round_trip (headers e) →
           loads (headers_to_json e) =
             Some (JArray (map (fun hv => JObject [("header", JString hv.1);
                                                   ("value", JString hv.2)])
                               (headers e))))
        else row !! "http_headers" = Some VNone
    | None => row !! "http_headers" = Some VNone
    end.
Proof.
  intros Hs Hb.
  destruct (record_as_dict_sound r a σ true p Hs Hb) as (payload & σ' & Hrun & _).
  eexists _, σ'. split; [exact Hrun |].
  assert (row_of r true (if p then Some payload else None) !! "http_headers"
          = Some (match http_headers r with
                  | Some h => if StatusAndHeaders_bool h
                              then VStr (headers_to_json h) else VNone
                  | None => VNone
                  end)) as Hrow.
  { unfold row_of. destruct p.
    - rewrite lookup_insert_ne by discriminate. by rewrite lookup_insert_eq.
    - by rewrite lookup_insert_eq. }
  rewrite Hrow. destruct (http_headers r) as [e |]; [| done].
  destruct (StatusAndHeaders_bool e); [| done].
  split; [done |]. apply loads_headers_to_json.
Qed.

Lemma sample_request_round_trips :
  pairs_round_trip [("User-Agent", "x"); ("Accept", "*/*")].
Proof.
  repeat (apply Forall_cons_2;
          [split; (split; [repeat (apply Forall_cons_2; [reflexivity |]);
                           apply Forall_nil_2
                          | simpl; repeat split; by intros [? ?]]) |]).
  apply Forall_nil_2.
Qed.

Lemma as_dict_http_headers_witness :
  cache_sound empty_world ∧
  ∃ row σ' s,
    record_as_dict sample_request
      (kwargs [("with_payload", true); ("with_http_headers", true)]) empty_world
      = (Return row, σ') ∧
    row !! "http_headers" = Some (VStr s) ∧
    loads s = Some (JArray [JObject [("header", JString "User-Agent");
                                     ("value", JString "x")];
                            JObject [("header", JString "Accept");
                                     ("value", JString "*/*")]]).
Proof.
  split; [exact empty_world_sound |].
  destruct (as_dict_http_headers sample_request
              (kwargs [("with_payload", true); ("with_http_headers", true)]) true
              empty_world empty_world_sound eq_refl)
    as (row & σ' & Hrun & Hrow & Hloads).
  exists row, σ', (headers_to_json
                     {| statusline := "GET / HTTP/1.1";
                        headers := [("User-Agent", "x"); ("Accept", "*/*")];
                        protocol := "HTTP/1.1" |}).
  split_and!; [exact Hrun | exact Hrow |].
  exact (Hloads sample_request_round_trips).
Defined.

(** C5, counterexample.  A record whose HTTP envelope has an empty status
    line and no header: the object is false in Python, the test
    [if self.http_headers:] fails, and the row holds [None], not the
    serialisation of the envelope. *)
Lemma as_dict_empty_envelope_is_none : ¬ serialises_every_envelope.
Proof.
  intros H.
  specialize (H empty_envelope_record (kwargs [("with_http_headers", true)]) false
                empty_world _ _ _ empty_world_sound eq_refl eq_refl eq_refl).
  vm_compute in H. discriminate H.
Qed.

(** C6 (as amended).  Adding a request record whose HTTP envelope is not
    empty hands the store a row whose http_headers value is a text that
    decodes to exactly the header pairs of the envelope, in their order,
    provided no header name or value holds a high surrogate immediately
    before a low surrogate (text decoded from bytes never does).  When the
    engine accepts the insert and no row with the same WARC-Record-ID is in
    the request table, the table gains one row, which has that value. *)
Theorem request_http_headers_round_trip (self : WarcDB) (r : ArcWarcRecord)
    (e : StatusAndHeaders) (σ : World) :
  cache_sound σ →
  rec_type r = "request" →
  http_headers r = Some e →
  StatusAndHeaders_bool e = true →
  pairs_round_trip (headers e) →
  ∃ row s o σ',
    __iadd__ self r σ = (o, σ') ∧
    w_log σ' = w_log σ ++
      [insert_call self "request" row
         [("WARC-Warcinfo-ID", "warcinfo", "WARC-Record-ID")]] ∧
    row !! "http_headers" = Some (VStr s) ∧
    decode_headers s = Some (headers e) ∧
    (unmet_reference σ (_db self) "request" = None →
     pk_conflict "WARC-Record-ID" row
       (default [] (lookup_table σ (_db self) "request")) = false →
     o = Return self ∧
     ∃ stored,
       lookup_table σ' (_db self) "request"
       = Some (default [] (lookup_table σ (_db self) "request") ++ [stored]) ∧
       stored !! "http_headers" = Some (VStr s)).
Proof.
  intros Hs Ht Hh He Hrt.
  assert (rec_type r ∈ supported_types) as Hsup.
  { rewrite Ht. unfold supported_types. apply list_elem_of_further, list_elem_of_here. }
  destruct (iadd_supported_effect self r σ Hsup)
    as (row & o & σ' & Hrun & Hlog & _ & Hdest & _ & _ & _ & Hsound).
  destruct (Hsound Hs) as (_ & payload & Hrow).
  rewrite Ht in *.
  assert (row !! "http_headers" = Some (VStr (headers_to_json e))) as Hval.
  { rewrite Hrow. unfold row_of.
    change (dispatch_http "request") with true. cbv iota.
    rewrite lookup_insert_ne by discriminate.
    by rewrite lookup_insert_eq, Hh, He. }
  exists row, (headers_to_json e), o, σ'. split_and!.
  - done.
  - done.
  - done.
  - by apply decode_headers_to_json.
  - intros Hu Hc. rewrite Hu in Hdest. destruct Hdest as [-> Hdest].
    simpl in Hdest. rewrite Hc in Hdest. split; [done |]. by exists row.
Qed.

Lemma warcinfo_world_sound : cache_sound warcinfo_world.
Proof. apply iadd_sound, empty_world_sound. Qed.

Lemma request_http_headers_round_trip_witness :
  cache_sound warcinfo_world ∧
  rec_type sample_request = "request" ∧
  ∃ stored s σ',
    __iadd__ (opened "a.warcdb" None) sample_request warcinfo_world
      = (Return (opened "a.warcdb" None), σ') ∧
    stored !! "http_headers" = Some (VStr s) ∧
    decode_headers s = Some [("User-Agent", "x"); ("Accept", "*/*")] ∧
    lookup_table σ' "a.warcdb" "request" = Some [stored].
Proof.
  split; [exact warcinfo_world_sound |]. split; [reflexivity |].
  destruct (request_http_headers_round_trip (opened "a.warcdb" None)
              sample_request _ warcinfo_world warcinfo_world_sound eq_refl eq_refl
              eq_refl sample_request_round_trips)
    as (row & s & o & σ' & Hrun & Hlog & Hrow & Hdec & Hdest).
  destruct Hdest as [-> (stored & Htable & Hstored)].
  { vm_compute. reflexivity. }
  { change (default [] (lookup_table warcinfo_world
                          (_db (opened "a.warcdb" None)) "request"))
      with (@nil Row).
    apply pk_conflict_nil. }
  exists stored, s, σ'.
  split_and!; [exact Hrun | exact Hstored | exact Hdec | exact Htable].
Defined.

(** C6, counterexample.  A request whose header value is a high surrogate
    followed by a low surrogate: the encoder writes two \uXXXX escapes, the
    decoder joins them into the one code point [0x1F600], and the pairs
    decoded are not the pairs of the envelope. *)
Lemma surrogate_pair_does_not_round_trip : ¬ stored_headers_round_trip.
Proof.
  intros H.
  destruct (H (opened "a.warcdb" None) surrogate_request _ empty_world
              empty_world_sound eq_refl eq_refl) as (row & s & Hlog & Hrow & Hdec).
  assert (w_log (__iadd__ (opened "a.warcdb" None) surrogate_request empty_world).2
          = [insert_call (opened "a.warcdb" None) "request"
               (row_of surrogate_request true (Some ""%string))
               [("WARC-Warcinfo-ID", "warcinfo", "WARC-Record-ID")]]) as Hl
    by (vm_compute; reflexivity).
  remember (row_of surrogate_request true (Some ""%string)) as stored eqn:Hstored.
  rewrite Hl in Hlog. simpl in Hlog. injection Hlog as Heq.
  rewrite <- Heq, Hstored in Hrow.
  assert (row_of surrogate_request true (Some ""%string) !! "http_headers"
          = Some (VStr (headers_to_json
                          {| statusline := "GET / HTTP/1.1";
                             headers := [("X-Note", Str [55357%N; 56832%N])];
                             protocol := "HTTP/1.1" |}))) as Hv
    by (vm_compute; reflexivity).
  rewrite Hv in Hrow. injection Hrow as <-.
  vm_compute in Hdec. discriminate Hdec.
Qed.

Lemma ingest_twice_same_rows_witness :
  cache_sound empty_world ∧
  Forall (fun r => rec_type r ∈ supported_types ∧ has_record_id r)
         [sample_record 0 "warcinfo" "<urn:uuid:1>"; sample_request] ∧
  (add_all (opened "a.warcdb" None)
     [sample_record 0 "warcinfo" "<urn:uuid:1>"; sample_request]
     (add_all (opened "a.warcdb" None)
        [sample_record 0 "warcinfo" "<urn:uuid:1>"; sample_request]
        empty_world).2).1
  = Return (opened "a.warcdb" None) ∧
  w_dbs (add_all (opened "a.warcdb" None)
           [sample_record 0 "warcinfo" "<urn:uuid:1>"; sample_request]
           (add_all (opened "a.warcdb" None)
              [sample_record 0 "warcinfo" "<urn:uuid:1>"; sample_request]
              empty_world).2).2
  = w_dbs (add_all (opened "a.warcdb" None)
             [sample_record 0 "warcinfo" "<urn:uuid:1>"; sample_request]
             empty_world).2.
Proof.
  assert (Forall (fun r => rec_type r ∈ supported_types ∧ has_record_id r)
            [sample_record 0 "warcinfo" "<urn:uuid:1>"; sample_request]) as Hall.
  { apply Forall_cons_2; [| apply Forall_cons_2; [| apply Forall_nil_2]].
    - split; [apply list_elem_of_here | by eexists].
    - split; [apply list_elem_of_further, list_elem_of_here | by eexists]. }
  split; [exact empty_world_sound |]. split; [exact Hall |].
  destruct (proj1 (ingest_twice_same_rows (opened "a.warcdb" None)
                     [sample_record 0 "warcinfo" "<urn:uuid:1>"; sample_request]
                     [sample_record 0 "warcinfo" "<urn:uuid:1>"; sample_request]
                     empty_world empty_world_sound Hall
                     ltac:(repeat constructor))) as [Ho Hd].
  split; [| exact Hd]. rewrite Ho. vm_compute. reflexivity.
Defined.
(** ** Concrete runs *)

(** The run over [mixed_archive] stops at the revisit record: the warcinfo
    record is stored, the revisit record is printed but not stored, and the
    request record after it is never read. *)
Example import_halts_at_revisit :
  let run := import_ "a.warcdb" ["a.warc"] 1000 (sample_world mixed_archive) in
  run.1 = Raise (ValueError (unsupported_message "revisit")) ∧
  map ic_table (w_log run.2) = ["warcinfo"] ∧
  map rec_type (w_stdout run.2) = ["warcinfo"; "revisit"] ∧
  length <$> lookup_table run.2 "a.warcdb" "warcinfo" = Some 1 ∧
  lookup_table run.2 "a.warcdb" "request" = None.
Proof. vm_compute. by repeat split. Qed.

(** Importing [clean_archive] twice in one run makes four insert calls and
    leaves one row per record. *)
Example import_twice_one_row_each :
  let run := import_ "a.warcdb" ["a.warc"; "a.warc"] 0 (sample_world clean_archive) in
  run.1 = Return PyNone ∧
  map ic_table (w_log run.2) = ["warcinfo"; "request"; "warcinfo"; "request"] ∧
  length <$> lookup_table run.2 "a.warcdb" "warcinfo" = Some 1 ∧
  length <$> lookup_table run.2 "a.warcdb" "request" = Some 1 ∧
  w_warnings run.2 = [].
Proof. vm_compute. by repeat split. Qed.

(** [len(db)] on a store without a records table is an error before and
    after an import. *)
Example len_after_import :
  let db := opened "a.warcdb" None in
  let run := import_ "a.warcdb" ["a.warc"] 1000 (sample_world clean_archive) in
  (__len__ db run.2).1 = (__len__ db (sample_world clean_archive)).1.
Proof. vm_compute. reflexivity. Qed.


(** An archive in which a response comes before any request: the run stops
    at the response, whose table the engine cannot create because the
    request table that one of its foreign keys names does not exist. *)
Example import_stops_at_refused_insert :
  let run := import_ "a.warcdb" ["a.warc"] 1000
               (sample_world [sample_raw "warcinfo" "<urn:uuid:1>" "software: x";
                              sample_raw "response" "<urn:uuid:4>" "HTTP/1.1 200 OK";
                              sample_raw "request" "<urn:uuid:3>" "GET / HTTP/1.1"]) in
  run.1 = Raise (AlterError "request" "WARC-Record-ID") ∧
  map ic_table (w_log run.2) = ["warcinfo"; "response"] ∧
  map rec_type (w_stdout run.2) = ["warcinfo"; "response"] ∧
  length <$> lookup_table run.2 "a.warcdb" "warcinfo" = Some 1 ∧
  lookup_table run.2 "a.warcdb" "response" = None ∧
  lookup_table run.2 "a.warcdb" "request" = None.
Proof. vm_compute. by repeat split. Qed.

(** ** The adapter, the content stream and the shape of a row *)

(** X6.  The payload goes to the first conversion that asks for it.  A
    call with the payload flag that is not served from the memo table
    returns a row whose payload is everything still unread in the record's
    content stream, and leaves that stream empty; any later call on the
    same record with the payload flag that is again not served from the
    memo table gets an empty payload. *)
Theorem as_dict_payload_goes_to_first (r : ArcWarcRecord) (a : CallArgs)
    (h : bool) (σ : World) :
  w_cache σ !! (r, a) = None →
  bind_args a = Some (h, true) →
  ∃ row σ',
    record_as_dict r a σ = (Return row, σ') ∧
    row !! "payload" = Some (VBytes (default ""%string (w_streams σ !! rec_id r))) ∧
    w_streams σ' = <[rec_id r := ""%string]> (w_streams σ) ∧
    (∀ a2 h2,
       w_cache σ' !! (r, a2) = None → bind_args a2 = Some (h2, true) →
       ∃ row2 σ2,
         record_as_dict r a2 σ' = (Return row2, σ2) ∧
         row2 !! "payload" = Some (VBytes "")).
Proof.
  intros Hc Hb. eexists _, _. rewrite (record_as_dict_miss _ _ _ _ _ Hc Hb).
  split_and!; [done | | done |].
  - unfold row_of. by rewrite lookup_insert_eq.
  - intros a2 h2 Hc2 Hb2. eexists _, _.
    rewrite (record_as_dict_miss _ _ _ _ _ Hc2 Hb2). split; [done |].
    unfold row_of. rewrite lookup_insert_eq. simpl.
    by rewrite lookup_insert_eq.
Qed.

Lemma as_dict_payload_goes_to_first_witness :
  ∃ row σ',
    record_as_dict (sample_record 0 "warcinfo" "<urn:uuid:1>")
      (kwargs [("with_payload", true)]) one_stream_world = (Return row, σ') ∧
    row !! "payload" = Some (VBytes "abc") ∧
    w_streams σ' !! 0 = Some ""%string.
Proof.
  destruct (as_dict_payload_goes_to_first (sample_record 0 "warcinfo" "<urn:uuid:1>")
              (kwargs [("with_payload", true)]) false one_stream_world
              eq_refl eq_refl) as (row & σ' & Hrun & Hpay & Hstr & _).
  exists row, σ'. split_and!; [exact Hrun | exact Hpay |].
  rewrite Hstr. reflexivity.
Defined.

(** X7.  A call of [record_as_dict] never touches the content stream of
    another record, and touches that of its own record only when it is not
    served from the memo table and binds the payload flag to true: a call
    served from the memo table, a call without the payload flag and a call
    that fails all leave every stream as it was. *)
Theorem as_dict_reads_stream_only_for_payload (r : ArcWarcRecord)
    (a : CallArgs) (σ : World) :
  (∀ n, n ≠ rec_id r →
     w_streams (record_as_dict r a σ).2 !! n = w_streams σ !! n) ∧
  (is_Some (w_cache σ !! (r, a)) ∨ (∀ h, bind_args a ≠ Some (h, true)) →
     w_streams (record_as_dict r a σ).2 = w_streams σ).
Proof.
  destruct (w_cache σ !! (r, a)) as [row |] eqn:Hc.
  { rewrite (record_as_dict_hit _ _ _ _ Hc). by split. }
  destruct (bind_args a) as [[h p] |] eqn:Hb.
  - rewrite (record_as_dict_miss _ _ _ _ _ Hc Hb). simpl. destruct p; simpl.
    + split.
      * intros n Hn. by rewrite lookup_insert_ne.
      * intros [[? [=]] | Hno]. by destruct (Hno h).
    + by split.
  - unfold record_as_dict. rewrite Hc, Hb. by split.
Qed.

Lemma dict_of_pairs_union_empty pairs :
  dict_update ∅ (dict_of_pairs pairs) = dict_of_pairs pairs.
Proof. unfold dict_update. apply (right_id ∅ (∪)). Qed.

(** X8.  A row holds nothing but the record: every entry of a row that
    [record_as_dict] returns is the payload (bytes, only when the payload
    flag is on), the http_headers value (the JSON text of the envelope or
    [None] when the record has no envelope or an empty one, only when that
    flag is on), or a header name of the record with the string value of the
    last header of that name. *)
Theorem as_dict_entries_come_from_record (r : ArcWarcRecord) (a : CallArgs)
    (σ σ' : World) (row : Row) :
  cache_sound σ →
  record_as_dict r a σ = (Return row, σ') →
  ∃ h p, bind_args a = Some (h, p) ∧
    ∀ k v, row !! k = Some v →
      (p = true ∧ k = "payload" ∧ ∃ b, v = VBytes b) ∨
      (h = true ∧ k = "http_headers" ∧
       v = match http_headers r with
           | Some e =>
               if StatusAndHeaders_bool e then VStr (headers_to_json e)
               else VNone
           | None => VNone
           end) ∨
      (∃ s, v = VStr s ∧
            last_value k (headers (rec_headers r)) = Some s ∧
            (k, s) ∈ headers (rec_headers r)).
Proof.
  intros Hs Hrun.
  destruct (record_as_dict_inv r a σ row σ' Hs Hrun) as (h & p & payload & Hb & ->).
  exists h, p. split; [done |]. intros k v Hk.
  unfold row_of in Hk. rewrite dict_of_pairs_union_empty in Hk.
  assert (dict_of_pairs (headers (rec_headers r)) !! k = Some v →
          ∃ s, v = VStr s ∧ last_value k (headers (rec_headers r)) = Some s ∧
               (k, s) ∈ headers (rec_headers r)) as Hhdr.
  { rewrite dict_of_pairs_lookup.
    destruct (last_value k (headers (rec_headers r))) as [s |] eqn:Hl; [| done].
    intros [= <-]. exists s. split_and!; [done | done |].
    by apply last_value_elem. }
  destruct p, h; simpl in Hk.
  - apply lookup_insert_Some in Hk as [[<- <-] | [_ Hk]]; [left; eauto |].
    apply lookup_insert_Some in Hk as [[<- <-] | [_ Hk]]; [right; left; eauto |].
    right; right. by apply Hhdr.
  - apply lookup_insert_Some in Hk as [[<- <-] | [_ Hk]]; [left; eauto |].
    right; right. by apply Hhdr.
  - apply lookup_insert_Some in Hk as [[<- <-] | [_ Hk]]; [right; left; eauto |].
    right; right. by apply Hhdr.
  - right; right. by apply Hhdr.
Qed.

Lemma as_dict_entries_come_from_record_witness :
  cache_sound empty_world ∧
  ∃ row σ',
    record_as_dict sample_request (kwargs [("with_http_headers", true)])
      empty_world = (Return row, σ') ∧
    row !! "payload" = None.
Proof.
  split; [exact empty_world_sound |].
  eexists _, _. split; [reflexivity |].
  destruct (as_dict_entries_come_from_record sample_request
              (kwargs [("with_http_headers", true)]) empty_world
              _ _ empty_world_sound eq_refl) as (h & p & Hb & Hrow).
  injection Hb as <- <-.
  match goal with |- ?row !! _ = None => destruct (row !! "payload") as [v |] eqn:Hk end;
    [| reflexivity].
  destruct (Hrow "payload" v Hk) as [(Hp & _) | [(Hh & _) | (s & _ & Hl & _)]];
    discriminate.
Defined.

(** X9.  Errors of the adapter.  In a world with a sound memo table
    [record_as_dict] fails exactly when the arguments of the call do not
    bind to its two parameters; the failure is a [TypeError] and leaves the
    world, memo table and streams included, as it was.  Three or more
    positional arguments, a keyword that is not a parameter name, and a
    parameter given both by position and by keyword are such calls. *)
Theorem as_dict_fails_only_on_bad_call (r : ArcWarcRecord) (a : CallArgs)
    (σ : World) :
  cache_sound σ →
  (bind_args a = None →
     ∃ msg, record_as_dict r a σ = (Raise (TypeError msg), σ)) ∧
  (bind_args a ≠ None →
     ∃ row σ', record_as_dict r a σ = (Return row, σ')) ∧
  (∀ x y z rest kws,
     bind_args {| positional := x :: y :: z :: rest; keywords := kws |} = None) ∧
  (∀ pos k v kws,
     k ≠ "with_http_headers" → k ≠ "with_payload" →
     bind_args {| positional := pos; keywords := (k, v) :: kws |} = None) ∧
  (∀ x v kws,
     bind_args {| positional := [x];
                  keywords := ("with_http_headers", v) :: kws |} = None).
Proof.
  intros Hs. split_and!.
  - intros Hb. unfold record_as_dict.
    destruct (w_cache σ !! (r, a)) as [row |] eqn:Hc.
    + destruct (Hs _ _ _ Hc) as (h & p & _ & Hb' & _). congruence.
    + rewrite Hb. by eexists.
  - intros Hb. destruct (bind_args a) as [[h p] |] eqn:Hb'; [| done].
    destruct (record_as_dict_returns r a σ h p Hb') as (row & σ' & Hrun & _).
    by exists row, σ'.
  - done.
  - intros pos k v kws Hk1 Hk2. unfold bind_args. simpl.
    destruct pos as [| ? [| ? [| ? ?]]]; simpl; by repeat case_decide.
  - done.
Qed.

Lemma as_dict_fails_only_on_bad_call_witness :
  cache_sound empty_world ∧
  ∃ msg,
    record_as_dict sample_request (kwargs [("with_headers", true)]) empty_world
    = (Raise (TypeError msg), empty_world).
Proof.
  split; [exact empty_world_sound |].
  exact (proj1 (as_dict_fails_only_on_bad_call sample_request
                  (kwargs [("with_headers", true)]) empty_world empty_world_sound)
               eq_refl).
Defined.

(** ** The JSON text of HTTP headers *)

Lemma printableb_spec c : printableb c = true ↔ printable c.
Proof.
  unfold printableb, printable.
  rewrite andb_true_iff, !N.leb_le. done.
Qed.

Lemma hex_digit_printable d : (d < 16)%N → printableb (hex_digit d) = true.
Proof.
  intros Hd.
  assert (all_from 16 0 (fun d => printableb (hex_digit d)) = true) as H
    by (vm_compute; reflexivity).
  apply (all_from_spec _ _ _ H d). lia.
Qed.

Lemma u_escape_printable n : forallb printableb (u_escape n) = true.
Proof.
  unfold u_escape. cbn [forallb].
  rewrite !hex_digit_printable by (apply N.mod_lt; lia). done.
Qed.

Lemma escape_char_printable c : forallb printableb (escape_char c) = true.
Proof.
  unfold escape_char.
  repeat (match goal with
          | |- context [if (c =? ?n)%N then _ else _] =>
              destruct (c =? n)%N; [reflexivity |]
          end).
  destruct ((c <? 32) || (126 <? c))%N eqn:Hout.
  - destruct (c <? 65536)%N; [apply u_escape_printable |].
    rewrite forallb_app, !u_escape_printable. done.
  - apply orb_false_iff in Hout as [H32 H126]. apply N.ltb_ge in H32, H126.
    cbn [forallb]. rewrite andb_true_r. apply printableb_spec. split; lia.
Qed.

Lemma Forall_printable_forallb l : forallb printableb l = true → Forall printable l.
Proof.
  intros H. apply list.Forall_forall. intros c Hin.
  apply printableb_spec. apply (proj1 (forallb_forall _ _) H).
  by apply list_elem_of_In.
Qed.

Lemma escape_chars_printable l : Forall printable (escape_chars l).
Proof.
  induction l as [| c l IH]; [constructor |].
  unfold escape_chars in *. simpl. apply Forall_app. split; [| done].
  apply Forall_printable_forallb, escape_char_printable.
Qed.

Lemma encode_string_printable s : Forall printable (encode_string s).
Proof.
  unfold encode_string. constructor.
  - by apply printableb_spec.
  - apply Forall_app. split; [apply escape_chars_printable |].
    constructor; [by apply printableb_spec | constructor].
Qed.

Lemma header_object_printable hv : Forall printable (dumps_chars (header_object hv)).
Proof.
  pose proof (header_object_chars hv []) as H. rewrite app_nil_r in H. rewrite H.
  repeat first
    [ apply Forall_nil_2
    | apply Forall_app; split; [apply encode_string_printable |]
    | apply Forall_cons_2; [by apply printableb_spec |] ].
Qed.

Lemma items_chars_printable hvs : Forall printable (items_chars hvs).
Proof.
  induction hvs as [| hv hvs IH]; [constructor |].
  destruct hvs as [| hv' hvs].
  - rewrite items_chars_one. apply header_object_printable.
  - rewrite items_chars_cons. apply Forall_app. split; [apply header_object_printable |].
    do 2 (apply Forall_cons_2; [by apply printableb_spec |]). done.
Qed.

(** X10.  The text [headers_to_json] writes is plain ASCII: every
    character of it lies between space and tilde, whatever characters the
    header names and values contain (control characters, quotes,
    backslashes and characters above 126 are written as escapes). *)
Theorem headers_to_json_is_printable_ascii (h : StatusAndHeaders) :
  Forall printable (chars (headers_to_json h)).
Proof.
  unfold headers_to_json, dumps. rewrite chars_text.
  change (dumps_chars (JArray (map (fun hv => JObject [("header", JString hv.1);
                                                       ("value", JString hv.2)])
                                   (headers h))))
    with (91%N :: items_chars (headers h) ++ [93%N]).
  apply Forall_cons_2; [by apply printableb_spec |].
  apply Forall_app. split; [apply items_chars_printable |].
  apply Forall_cons_2; [by apply printableb_spec | constructor].
Qed.

(** X11.  The stored text determines the headers: two envelopes whose
    [headers_to_json] texts are equal have the same header pairs in the
    same order, provided no header name or value of either holds a high
    surrogate immediately before a low surrogate. *)
Theorem headers_to_json_injective (h1 h2 : StatusAndHeaders) :
  pairs_round_trip (headers h1) → pairs_round_trip (headers h2) →
  headers_to_json h1 = headers_to_json h2 → headers h1 = headers h2.
Proof.
  intros H1 H2 Heq. apply (f_equal decode_headers) in Heq.
  rewrite !decode_headers_to_json in Heq by done. by injection Heq.
Qed.

Lemma headers_to_json_injective_witness :
  pairs_round_trip [("User-Agent", "x"); ("Accept", "*/*")] ∧
  headers_to_json {| statusline := "GET / HTTP/1.1";
                     headers := [("User-Agent", "x"); ("Accept", "*/*")];
                     protocol := "HTTP/1.1" |}
  = headers_to_json {| statusline := "HTTP/1.1 200 OK";
                       headers := [("User-Agent", "x"); ("Accept", "*/*")];
                       protocol := "HTTP/1.1" |} ∧
  headers {| statusline := "GET / HTTP/1.1";
             headers := [("User-Agent", "x"); ("Accept", "*/*")];
             protocol := "HTTP/1.1" |}
  = headers {| statusline := "HTTP/1.1 200 OK";
               headers := [("User-Agent", "x"); ("Accept", "*/*")];
               protocol := "HTTP/1.1" |}.
Proof.
  assert (headers_to_json {| statusline := "GET / HTTP/1.1";
                             headers := [("User-Agent", "x"); ("Accept", "*/*")];
                             protocol := "HTTP/1.1" |}
          = headers_to_json {| statusline := "HTTP/1.1 200 OK";
                               headers := [("User-Agent", "x"); ("Accept", "*/*")];
                               protocol := "HTTP/1.1" |}) as Heq by reflexivity.
  split; [exact sample_request_round_trips |]. split; [exact Heq |].
  exact (headers_to_json_injective
           {| statusline := "GET / HTTP/1.1";
              headers := [("User-Agent", "x"); ("Accept", "*/*")];
              protocol := "HTTP/1.1" |}
           {| statusline := "HTTP/1.1 200 OK";
              headers := [("User-Agent", "x"); ("Accept", "*/*")];
              protocol := "HTTP/1.1" |}
           sample_request_round_trips sample_request_round_trips Heq).
Defined.

(** Without that proviso two different header lists can have the same
    text: a surrogate pair and the code point it encodes are written
    alike. *)
Example headers_to_json_surrogate_clash :
  headers_to_json {| statusline := ""; headers := [("X-Note", Str [55357%N; 56832%N])];
                     protocol := "" |}
  = headers_to_json {| statusline := ""; headers := [("X-Note", Str [128512%N])];
                       protocol := "" |}.
Proof. vm_compute. reflexivity. Qed.
(** ** The JSON text of a record *)

Lemma last_value_is_Some k pairs :
  is_Some (last_value k pairs) ↔ k ∈ pairs.*1.
Proof.
  induction pairs as [| [k' v] pairs IH]; simpl.
  - split; [by intros [? ?] | by intros ?%elem_of_nil].
  - rewrite elem_of_cons, <- IH. destruct (last_value k pairs) as [s |].
    + split; [intros _; right; by eexists | by eexists].
    + case_decide as Hk.
      * split; [by left | by eexists].
      * split; [by intros [? ?] | intros [-> | [? ?]]; done].
Qed.

Lemma dict_keys_elem k pairs : k ∈ dict_keys pairs ↔ k ∈ pairs.*1.
Proof.
  induction pairs as [| [k' v] pairs IH]; simpl; [done |].
  rewrite !elem_of_cons, list_elem_of_filter, IH.
  destruct (decide (k = k')) as [-> | Hne].
  - split; intros _; by left.
  - split; (intros [? | H]; [done | right]); [by destruct H | by split].
Qed.

Lemma dict_keys_NoDup pairs : NoDup (dict_keys pairs).
Proof.
  induction pairs as [| [k v] pairs IH]; simpl; [constructor |].
  apply list.NoDup_cons. split.
  - rewrite list_elem_of_filter. by intros [? _].
  - by apply list.NoDup_filter.
Qed.

Lemma omap_items_values (pairs : list (str * str)) (ks : list str) :
  omap (fun k => pair k <$> (VStr <$> last_value k pairs)) ks
  = (fun kv => (kv.1, VStr kv.2)) <$>
      omap (fun k => pair k <$> last_value k pairs) ks.
Proof.
  rewrite list_fmap_omap. apply list_omap_ext, Forall2_same_length_lookup_2; [done |].
  intros i k k' Hk Hk'. rewrite Hk in Hk'. injection Hk' as <-.
  by destruct (last_value k pairs).
Qed.

Lemma row_items_headers r :
  row_items r (dict_of_pairs (headers (rec_headers r)))
  = (fun kv => (kv.1, VStr kv.2)) <$> dict_items (headers (rec_headers r)).
Proof.
  unfold row_items, key_order, dict_items.
  rewrite omap_app.
  assert (omap (fun k => pair k <$> dict_of_pairs (headers (rec_headers r)) !! k)
               (filter (fun k => k ∉ dict_keys (headers (rec_headers r)))
                       ["http_headers"; "payload"]) = []) as ->.
  { induction ["http_headers"; "payload"] as [| k ks IH]; [done |].
    rewrite filter_cons. case_decide as Hk; [| done].
    simpl. rewrite dict_of_pairs_lookup.
    destruct (last_value k (headers (rec_headers r))) as [s |] eqn:Hl; [| done].
    exfalso. apply Hk, dict_keys_elem, last_value_is_Some. by eexists. }
  rewrite app_nil_r, <- omap_items_values.
  apply list_omap_ext, Forall2_same_length_lookup_2; [done |].
  intros i k k' Hk Hk'. rewrite Hk in Hk'. injection Hk' as <-.
  by rewrite dict_of_pairs_lookup.
Qed.

Lemma mapM_json_of_strings (kvs : list (str * str)) :
  mapM (fun kv : str * value => pair kv.1 <$> json_of_value kv.2)
       ((fun kv => (kv.1, VStr kv.2)) <$> kvs)
  = Some (string_member <$> kvs).
Proof.
  apply mapM_Some. apply Forall2_fmap, Forall_Forall2_diag, Forall_forall.
  by intros [k v] _.
Qed.

Lemma dict_items_keys pairs : (dict_items pairs).*1 = dict_keys pairs.
Proof.
  unfold dict_items.
  assert (∀ ks, Forall (fun k => k ∈ dict_keys pairs) ks →
            (omap (fun k => pair k <$> last_value k pairs) ks).*1 = ks) as H.
  { induction ks as [| k ks IH]; [done |]. intros [Hk Hks]%Forall_cons_1.
    apply dict_keys_elem, last_value_is_Some in Hk as [s Hs].
    change (omap (fun k => pair k <$> last_value k pairs) (k :: ks))
      with (match pair k <$> last_value k pairs with
            | Some y => y :: omap (fun k => pair k <$> last_value k pairs) ks
            | None => omap (fun k => pair k <$> last_value k pairs) ks
            end).
    rewrite Hs. cbn [fmap option_fmap option_map]. rewrite fmap_cons.
    by rewrite (IH Hks). }
  apply H, list.Forall_forall. auto.
Qed.
Lemma members_chars_one kv :
  members_chars [kv] = encode_string kv.1 ++ 58%N :: 32%N :: encode_string kv.2.
Proof. reflexivity. Qed.

Lemma members_chars_cons kv kv' kvs :
  members_chars (kv :: kv' :: kvs) =
    (encode_string kv.1 ++ 58%N :: 32%N :: encode_string kv.2) ++
    44%N :: 32%N :: members_chars (kv' :: kvs).
Proof. reflexivity. Qed.

Lemma parse_string_members kvs fuel tl :
  pairs_round_trip kvs →
  kvs ≠ [] → length kvs + 1 ≤ fuel →
  parse_members fuel (members_chars kvs ++ 125%N :: tl)
  = Some (string_member <$> kvs, tl).
Proof.
  revert fuel. induction kvs as [| kv kvs IH]; [done |].
  intros fuel [[Hk Hv] Hrt]%Forall_cons_1 _ Hf.
  simpl in Hf. do 2 (destruct fuel as [| fuel]; [lia |]).
  destruct kvs as [| kv' kvs].
  - rewrite members_chars_one, <- ?app_assoc, <- ?app_comm_cons, <- ?app_assoc.
    rewrite parse_member_prefix by done. done.
  - rewrite members_chars_cons, <- ?app_assoc, <- ?app_comm_cons, <- ?app_assoc.
    rewrite parse_member_prefix by done.
    cbn [app skip_ws is_ws N.eqb Pos.eqb orb].
    rewrite parse_members_space, IH by (simpl in *; done || lia). done.
Qed.

Lemma object_chars kvs :
  dumps_chars (JObject (string_member <$> kvs))
  = 123%N :: members_chars kvs ++ [125%N].
Proof.
  unfold members_chars. cbn [dumps_chars chars app].
  do 3 f_equal. induction kvs as [| kv kvs IH]; [done |].
  rewrite fmap_cons. cbn [map]. by rewrite IH.
Qed.

Lemma members_chars_length kvs : length kvs ≤ length (members_chars kvs).
Proof.
  induction kvs as [| kv kvs IH]; [done |].
  destruct kvs as [| kv' kvs].
  - rewrite members_chars_one, encode_string_app. simpl. lia.
  - rewrite members_chars_cons, length_app. cbn [length] in *. lia.
Qed.

(** Reading back an object of string members that [dumps] wrote. *)
Lemma loads_dumps_string_object kvs :
  pairs_round_trip kvs →
  loads (dumps (JObject (string_member <$> kvs)))
  = Some (JObject (string_member <$> kvs)).
Proof.
  intros Hrt. unfold loads, dumps. rewrite chars_text, object_chars.
  destruct kvs as [| kv kvs]; [done |].
  pose proof (members_chars_length (kv :: kvs)) as Hlen.
  assert (length (kv :: kvs) + 1
          ≤ length (123%N :: members_chars (kv :: kvs) ++ [125%N])) as Hfuel.
  { simpl in *. rewrite length_app. simpl. lia. }
  revert Hfuel.
  generalize (length (123%N :: members_chars (kv :: kvs) ++ [125%N])).
  intros fuel Hfuel.
  assert (∃ rest, members_chars (kv :: kvs) ++ [125%N] = dq :: rest) as [rest Hrest].
  { destruct kvs.
    - rewrite members_chars_one, encode_string_app. by eexists.
    - rewrite members_chars_cons, <- app_assoc, encode_string_app. by eexists. }
  destruct fuel as [| fuel]; [simpl in Hfuel; lia |].
  rewrite Hrest, parse_value_object_S, <- Hrest.
  by rewrite parse_string_members by (done || simpl in *; lia).
Qed.

Lemma dict_get_cons k' (v : json) rest k :
  dict_get ((k', v) :: rest) k =
    match dict_get rest k with
    | Some v' => Some v'
    | None => if decide (k' = k) then Some v else None
    end.
Proof. reflexivity. Qed.

Lemma dict_get_absent (kvs : list (str * str)) k :
  k ∉ kvs.*1 → dict_get (string_member <$> kvs) k = None.
Proof.
  induction kvs as [| [k' v'] kvs IH]; [done |].
  rewrite !fmap_cons, not_elem_of_cons. intros [Hne Hk].
  change (string_member (k', v')) with (k', JString v').
  rewrite dict_get_cons, (IH Hk). simpl in Hne. by case_decide.
Qed.

Lemma dict_get_present (kvs : list (str * str)) k v :
  NoDup kvs.*1 → (k, v) ∈ kvs →
  dict_get (string_member <$> kvs) k = Some (JString v).
Proof.
  induction kvs as [| [k' v'] kvs IH]; [by intros _ ?%elem_of_nil |].
  rewrite !fmap_cons.
  change (string_member (k', v')) with (k', JString v').
  intros [Hfresh Hnd]%list.NoDup_cons [[= -> ->] | Hin]%elem_of_cons;
    rewrite dict_get_cons.
  - simpl in Hfresh. rewrite (dict_get_absent _ _ Hfresh). by case_decide.
  - by rewrite (IH Hnd Hin).
Qed.

Lemma record_as_dict_no_payload_streams r a h σ :
  bind_args a = Some (h, false) →
  w_streams (record_as_dict r a σ).2 = w_streams σ.
Proof.
  intros Hb. destruct (w_cache σ !! (r, a)) as [row |] eqn:Hc.
  - by rewrite (record_as_dict_hit _ _ _ _ Hc).
  - by rewrite (record_as_dict_miss _ _ _ _ _ Hc Hb).
Qed.

Lemma dict_get_items pairs k :
  dict_get (string_member <$> dict_items pairs) k = JString <$> last_value k pairs.
Proof.
  destruct (last_value k pairs) as [v |] eqn:Hl.
  - apply dict_get_present.
    + rewrite dict_items_keys. apply dict_keys_NoDup.
    + unfold dict_items. apply list_elem_of_omap. exists k. split.
      * apply dict_keys_elem, last_value_is_Some. by eexists.
      * by rewrite Hl.
  - apply dict_get_absent. rewrite dict_items_keys, dict_keys_elem.
    intros [v Hv]%last_value_is_Some. congruence.
Qed.

Lemma dict_items_round_trip pairs :
  pairs_round_trip pairs → pairs_round_trip (dict_items pairs).
Proof.
  intros Hrt. apply list.Forall_forall. intros [k v] Hin.
  unfold dict_items in Hin. apply list_elem_of_omap in Hin as (k' & _ & Hkv).
  destruct (last_value k' pairs) as [v' |] eqn:Hl; [| done].
  injection Hkv as <- <-.
  assert ((k', v') ∈ pairs) as Hin.
  { clear Hrt. induction pairs as [| [k0 v0] pairs IH]; [done |].
    simpl in Hl. destruct (last_value k' pairs) as [s |].
    - injection Hl as ->. right. by apply IH.
    - case_decide as Hk; [| done]. injection Hl as ->. subst. by left. }
  by apply (proj1 (list.Forall_forall _ _) Hrt (k', v')).
Qed.

(** X12.  [record_to_json] gives the WARC header fields of a record as a
    JSON object, without reading the content stream.  In a world with a
    sound memo table, for a record whose header names and values are
    sequences of code points with no high surrogate directly followed by
    a low one, it returns a text that decodes to an object with one
    member per header name, in the order of the first occurrence of each
    name, whose value for a name is the value of the last header of that
    name. *)
Theorem record_to_json_round_trip (r : ArcWarcRecord) (σ : World) :
  cache_sound σ →
  pairs_round_trip (headers (rec_headers r)) →
  ∃ s σ' members,
    record_to_json r σ = (Return s, σ') ∧
    w_streams σ' = w_streams σ ∧
    loads s = Some (JObject members) ∧
    members.*1 = dict_keys (headers (rec_headers r)) ∧
    ∀ k, dict_get members k
         = JString <$> last_value k (headers (rec_headers r)).
Proof.
  intros Hs Hrt.
  destruct (record_as_dict_sound r (kwargs []) σ false false Hs eq_refl)
    as (payload & σ' & Hrun & _ & _ & _).
  pose proof (record_as_dict_no_payload_streams r (kwargs []) false σ eq_refl) as Hstr.
  exists (dumps (JObject (string_member <$> dict_items (headers (rec_headers r))))),
         σ', (string_member <$> dict_items (headers (rec_headers r))).
  unfold record_to_json. run. rewrite Hrun in *. simpl in *.
  unfold row_of. rewrite dict_of_pairs_union_empty, row_items_headers.
  rewrite mapM_json_of_strings. split_and!.
  - done.
  - done.
  - by apply loads_dumps_string_object, dict_items_round_trip.
  - rewrite <- list_fmap_compose. apply dict_items_keys.
  - intros k. apply dict_get_items.
Qed.

Lemma repeated_headers_round_trip :
  pairs_round_trip (headers (rec_headers repeated_headers_record)).
Proof.
  unfold pairs_round_trip, round_trips.
  repeat (apply Forall_cons_2 || apply Forall_nil_2 || split);
    (by vm_compute) || (cbv; intros; lia) || idtac.
Qed.

Lemma record_to_json_round_trip_witness :
  cache_sound empty_world ∧
  pairs_round_trip (headers (rec_headers repeated_headers_record)) ∧
  ∃ s σ' members,
    record_to_json repeated_headers_record empty_world = (Return s, σ') ∧
    loads s = Some (JObject members) ∧
    dict_get members "WARC-Concurrent-To" = Some (JString "<urn:uuid:4>").
Proof.
  split; [exact empty_world_sound |].
  split; [exact repeated_headers_round_trip |].
  destruct (record_to_json_round_trip repeated_headers_record empty_world
              empty_world_sound repeated_headers_round_trip)
    as (s & σ' & members & Hrun & _ & Hl & _ & Hget).
  exists s, σ', members. split_and!; [exact Hrun | exact Hl |].
  rewrite Hget. reflexivity.
Defined.
(** ** How imports compose *)

Lemma import_files_returns_self db fs σ db' σ' :
  import_files db fs σ = (Return db', σ') → db' = db.
Proof.
  revert σ. induction fs as [| f fs IH]; intros σ.
  - by intros [= <- _].
  - rewrite import_files_cons. destruct (w_files σ !! f) as [raws |]; [| done].
    destruct (import_records db raws σ) as [[db1 | e] σ1] eqn:Hrun; [| done].
    apply import_records_returns_self in Hrun as ->. apply IH.
Qed.

Lemma import_keeps_files db_path warc_path batch_size σ :
  w_files (import_ db_path warc_path batch_size σ).2 = w_files σ.
Proof.
  apply (import_rel (fun σ1 σ2 => w_files σ2 = w_files σ1) db_path).
  - done.
  - intros σ1 σ2 σ3 H12 H23. by rewrite H23.
  - done.
  - intros bs σ0. by destruct (after_warning_frame bs σ0) as (_ & _ & -> & _).
  - intros self r σ0 _. apply iadd_files.
Qed.

(** One run over [fs1 ++ fs2] is a run over [fs1] followed, if that
    succeeds, by a run over [fs2] that issues no warning of its own. *)
Lemma import_app db_path fs1 fs2 batch_size σ :
  import_ db_path (fs1 ++ fs2) batch_size σ =
    match import_ db_path fs1 batch_size σ with
    | (Return _, σ1) => import_ db_path fs2 0 σ1
    | (Raise e, σ1) => (Raise e, σ1)
    end.
Proof.
  rewrite !import_unfold, import_files_app.
  destruct (import_files _ fs1 _) as [[db1 | e] σ1] eqn:Hrun; [| done].
  apply import_files_returns_self in Hrun as ->.
  rewrite import_unfold.
  assert (after_warning 0 σ1 = σ1) as -> by done.
  destruct (import_files_same_db (opened db_path (Some batch_size))
              (opened db_path (Some 0%Z)) fs2 σ1 eq_refl) as [Hr Hw].
  destruct (import_files (opened db_path (Some batch_size)) fs2 σ1)
    as [[d | e] σ2];
    destruct (import_files (opened db_path (Some 0%Z)) fs2 σ1)
      as [[d' | e'] σ2']; simpl in *; try discriminate; subst; try done.
  by injection Hr as ->.
Qed.

(** X13.  Importing several archives in one run is the same as importing
    them in consecutive runs: a run over [fs1 ++ fs2] ends in the same
    outcome and the same world as a run over [fs1] followed, when it
    succeeds, by a run over [fs2] with --batch-size 0 (which adds no second
    warning); when the first part fails, the second is not started. *)
Theorem import_of_concatenation (db_path : str) (fs1 fs2 : list str)
    (batch_size : Z) (σ : World) :
  import_ db_path (fs1 ++ fs2) batch_size σ =
    match import_ db_path fs1 batch_size σ with
    | (Return _, σ1) => import_ db_path fs2 0 σ1
    | (Raise e, σ1) => (Raise e, σ1)
    end.
Proof. apply import_app. Qed.

(** X14.  An archive that cannot be opened ends the run with
    [FileNotFoundError] at the moment its turn comes: the archives before
    it have been ingested in full and their rows stay, and the archives
    after it are not opened.  (The command line checks that each path
    exists before the body runs, so the body meets a missing archive only
    when the file has gone since, or when the function is called
    directly.) *)
Theorem import_missing_archive (db_path : str) (fs1 fs2 : list str)
    (f : str) (batch_size : Z) (σ σ1 : World) :
  import_ db_path fs1 batch_size σ = (Return PyNone, σ1) →
  w_files σ !! f = None →
  import_ db_path (fs1 ++ f :: fs2) batch_size σ
  = (Raise (FileNotFoundError f), σ1).
Proof.
  intros Hrun Hf. rewrite import_app, Hrun, import_unfold.
  assert (after_warning 0 σ1 = σ1) as -> by done.
  rewrite import_files_cons.
  pose proof (import_keeps_files db_path fs1 batch_size σ) as Hfiles.
  rewrite Hrun in Hfiles. simpl in Hfiles. by rewrite Hfiles, Hf.
Qed.

Lemma import_missing_archive_witness :
  (import_ "a.warcdb" ["a.warc"] 1000 (sample_world clean_archive)).1
    = Return PyNone ∧
  import_ "a.warcdb" ["a.warc"; "b.warc"; "a.warc"] 1000 (sample_world clean_archive)
    = (Raise (FileNotFoundError "b.warc"),
       (import_ "a.warcdb" ["a.warc"] 1000 (sample_world clean_archive)).2).
Proof.
  assert ((import_ "a.warcdb" ["a.warc"] 1000 (sample_world clean_archive)).1
          = Return PyNone) as Hfst by (vm_compute; reflexivity).
  split; [exact Hfst |].
  apply (import_missing_archive "a.warcdb" ["a.warc"] ["a.warc"] "b.warc" 1000
           (sample_world clean_archive)).
  - rewrite <- Hfst. apply surjective_pairing.
  - vm_compute. reflexivity.
Defined.
(** ** What an import hands to the store *)

(** Adding a record that the memo table does not know converts it on the
    spot. *)
Lemma iadd_miss_effect self r σ :
  rec_type r ∈ supported_types →
  w_cache σ !! (r, dispatch_args (rec_type r)) = None →
  let row := row_of r (dispatch_http (rec_type r))
                    (Some (default ""%string (w_streams σ !! rec_id r))) in
  ∃ o σ', __iadd__ self r σ = (o, σ') ∧
    w_log σ' = w_log σ ++
      [insert_call self (rec_type r) row (dispatch_edges (rec_type r))] ∧
    w_cache σ' = <[(r, dispatch_args (rec_type r)) := row]> (w_cache σ) ∧
    w_next σ' = w_next σ ∧ w_stdout σ' = w_stdout σ ∧ w_files σ' = w_files σ ∧
    match unmet_reference σ (_db self) (rec_type r) with
    | Some fk => o = Raise (AlterError fk.1.2 fk.2)
    | None => o = Return self
    end.
Proof.
  intros Hsup Hc row.
  destruct (iadd_supported_effect self r σ Hsup)
    as (row' & o & σ' & Hrun & Hlog & _ & Hdest & _ & _ & _ & _).
  exists o, σ'. split; [done |].
  revert Hrun Hlog. rewrite (iadd_supported _ _ Hsup). run.
  rewrite (record_as_dict_miss _ _ _ _ _ Hc (bind_args_dispatch (rec_type r))).
  fold row.
  destruct (table_insert_ignore
              (insert_call self (rec_type r) row (dispatch_edges (rec_type r)))
              (set_cache <[(r, dispatch_args (rec_type r)) := row]>
                 (set_streams <[rec_id r := ""%string]> σ)) eq_refl)
    as (o2 & σ2 & Hins & Hlog2 & Hcache & _ & Hf & Hn & Ho & _).
  rewrite Hins. intros Hrun Hlog.
  assert (σ' = σ2) as -> by (destruct o2; by injection Hrun).
  split_and!; try done.
  destruct (unmet_reference σ (_db self) (rec_type r)); by destruct Hdest.
Qed.

(** A pass over supported records that the memo table has not seen: the
    insert calls and the output, record by record. *)
Lemma import_records_exact db raws σ :
  ids_fresh σ →
  Forall (fun raw => raw_type raw ∈ supported_types) raws →
  ∃ handled o σ', import_records db raws σ = (o, σ') ∧
    w_log σ' = w_log σ ++ (import_call db <$> handled) ∧
    w_stdout σ' = w_stdout σ ++ imap (fun i raw => mk_record (w_next σ + i) raw) handled ∧
    w_next σ' = w_next σ + length handled ∧
    w_files σ' = w_files σ ∧ ids_fresh σ' ∧
    ((o = Return db ∧ handled = raws) ∨
     (∃ pre raw post fk,
        raws = pre ++ raw :: post ∧ handled = pre ++ [raw] ∧
        o = Raise (AlterError fk.1.2 fk.2) ∧
        unmet_reference σ' (_db db) (raw_type raw) = Some fk)).
Proof.
  intros Hfresh Hall. revert σ Hfresh.
  induction Hall as [| raw raws Hsup Hall IH]; intros σ Hfresh.
  - exists [], (Return db), σ. rewrite !app_nil_r, Nat.add_0_r.
    split_and!; try done. by left.
  - rewrite import_records_cons.
    set (r := mk_record (w_next σ) raw).
    assert (w_cache (after_yield raw σ) !! (r, dispatch_args (rec_type r)) = None)
      as Hmiss.
    { destruct (w_cache (after_yield raw σ) !! _) as [row |] eqn:Hc; [| done].
      assert (rec_id r < w_next σ) as Hlt
        by (apply (Hfresh r (dispatch_args (rec_type r))); by eexists).
      simpl in Hlt. lia. }
    destruct (iadd_miss_effect db r (after_yield raw σ) Hsup Hmiss)
      as (o1 & σ1 & Hrun & Hlog & Hcache & Hnext & Hout & Hfiles & Hres).
    rewrite Hrun.
    assert (default ""%string (w_streams (after_yield raw σ) !! rec_id r)
            = raw_payload raw)
      as Hpay by (simpl; by rewrite lookup_insert_eq).
    rewrite Hpay in Hlog, Hcache.
    assert (ids_fresh σ1) as Hfresh1.
    { intros r' a' Hsome. rewrite Hnext, Hcache in *. simpl.
      destruct (decide ((r, dispatch_args (rec_type r)) = (r', a'))) as [[= <- <-] | Hne].
      - simpl. lia.
      - rewrite lookup_insert_ne in Hsome by done.
        pose proof (Hfresh r' a' Hsome). lia. }
    change (w_next (after_yield raw σ)) with (S (w_next σ)) in Hnext.
    assert (w_dbs σ1 = w_dbs (after_yield raw σ) ∨ o1 = Return db) as Hdbs.
    { destruct (iadd_supported_effect db r (after_yield raw σ) Hsup)
        as (row' & o' & σ'' & Hrun' & _ & _ & Hdest & _).
      rewrite Hrun in Hrun'. injection Hrun' as <- <-.
      destruct (unmet_reference _ _ _); [left | right]; by destruct Hdest. }
    destruct (unmet_reference (after_yield raw σ) (_db db) (rec_type r))
      as [fk |] eqn:Hu.
    + subst o1. exists [raw], (Raise (AlterError fk.1.2 fk.2)), σ1.
      split_and!; try done.
      * simpl. by rewrite Hout, Nat.add_0_r.
      * simpl. rewrite Hnext. lia.
      * right. exists [], raw, raws, fk. split_and!; try done.
        destruct Hdbs as [Hdbs | ?]; [| done].
        by rewrite (unmet_reference_dbs _ _ _ _ Hdbs).
    + subst o1.
      destruct (IH σ1 Hfresh1)
        as (handled & o & σ' & Hrun' & Hlog' & Hout' & Hnext' & Hfiles' & Hfresh' & Hend).
      exists (raw :: handled), o, σ'. rewrite imap_cons, fmap_cons. split_and!.
      * done.
      * by rewrite Hlog', Hlog, <- app_assoc.
      * rewrite Hout', Hout, Hnext. simpl w_stdout. rewrite <- app_assoc. f_equal.
        change ([?x] ++ ?l) with (x :: l). f_equal.
        -- by rewrite Nat.add_0_r.
        -- apply imap_ext. intros i raw' _. simpl.
           by replace (S (w_next σ + i)) with (w_next σ + S i) by lia.
      * rewrite Hnext', Hnext. simpl. lia.
      * by rewrite Hfiles', Hfiles.
      * done.
      * destruct Hend as [[-> ->] | (pre & raw' & post & fk & -> & -> & -> & Hu')].
        -- by left.
        -- right. by exists (raw :: pre), raw', post, fk.
Qed.

Lemma import_files_exact db warc_path σ :
  ids_fresh σ → archives_supported σ warc_path →
  ∃ handled o σ', import_files db warc_path σ = (o, σ') ∧
    w_log σ' = w_log σ ++ (import_call db <$> handled) ∧
    w_stdout σ' = w_stdout σ ++
      imap (fun i raw => mk_record (w_next σ + i) raw) handled ∧
    w_next σ' = w_next σ + length handled ∧
    w_files σ' = w_files σ ∧ ids_fresh σ' ∧
    ((o = Return db ∧ handled = all_records σ warc_path) ∨
     (∃ pre raw post fk,
        all_records σ warc_path = pre ++ raw :: post ∧ handled = pre ++ [raw] ∧
        o = Raise (AlterError fk.1.2 fk.2) ∧
        unmet_reference σ' (_db db) (raw_type raw) = Some fk)).
Proof.
  intros Hfresh Hok. revert σ Hfresh Hok.
  induction warc_path as [| f fs IH]; intros σ Hfresh Hok.
  - exists [], (Return db), σ. simpl. rewrite !app_nil_r, Nat.add_0_r.
    split_and!; try done. by left.
  - apply Forall_cons_1 in Hok as [(raws & Hf & Hraws) Hok].
    rewrite import_files_cons, Hf.
    assert (all_records σ (f :: fs) = raws ++ all_records σ fs) as ->
      by (unfold all_records; simpl; by rewrite Hf).
    destruct (import_records_exact db raws σ Hfresh Hraws)
      as (handled1 & o1 & σ1 & Hrun1 & Hlog1 & Hout1 & Hnext1 & Hfiles1 & Hfresh1 & Hend1).
    rewrite Hrun1.
    destruct Hend1 as [[-> ->] | (pre & raw & post & fk & -> & -> & -> & Hu)].
    + destruct (IH σ1 Hfresh1)
        as (handled & o & σ' & Hrun' & Hlog' & Hout' & Hnext' & Hfiles' & Hfresh' & Hend).
      { unfold archives_supported. by rewrite Hfiles1. }
      assert (all_records σ1 fs = all_records σ fs) as Hall
        by (unfold all_records; by rewrite Hfiles1).
      rewrite Hall in *.
      exists (raws ++ handled), o, σ'. rewrite imap_app, fmap_app, length_app.
      split_and!.
      * done.
      * by rewrite Hlog', Hlog1, <- app_assoc.
      * rewrite Hout', Hout1, <- app_assoc. do 2 f_equal.
        apply imap_ext. intros i raw _. simpl. by rewrite Hnext1, Nat.add_assoc.
      * lia.
      * congruence.
      * done.
      * destruct Hend as [[-> ->] | (pre & raw & post & fk & -> & -> & -> & Hu)].
        -- by left.
        -- right. exists (raws ++ pre), raw, post, fk. by rewrite <- !app_assoc.
    + exists (pre ++ [raw]), (Raise (AlterError fk.1.2 fk.2)), σ1.
      split_and!; try done.
      right. exists pre, raw, (post ++ all_records σ fs), fk.
      by rewrite <- app_assoc.
Qed.

(** X15.  An import hands every record it reaches to the store whole.
    Started in a world where no memo entry is about an object yet to be
    made, on archives that exist and hold only supported records, the
    command makes a new record object for each record it reaches
    (consecutive identities), prints it, and issues for it one insert call
    whose row holds the record's header fields, the JSON text of its HTTP
    headers when the type is request or response and the envelope is not
    empty, and the whole content stream of the record.  It reaches every
    record of every archive and returns [None], unless the engine refuses
    an insert; the run then ends with the engine's [AlterError] at the
    record refused, which was printed and handed over like the others. *)
Theorem import_hands_over_whole_records (db_path : str)
    (warc_path : list str) (batch_size : Z) (σ : World) :
  ids_fresh σ →
  archives_supported σ warc_path →
  ∃ handled o σ',
    import_ db_path warc_path batch_size σ = (o, σ') ∧
    w_log σ' = w_log σ ++
      (import_call (opened db_path (Some batch_size)) <$> handled) ∧
    w_stdout σ' = w_stdout σ ++
      imap (fun i raw => mk_record (w_next σ + i) raw) handled ∧
    w_next σ' = w_next σ + length handled ∧
    ids_fresh σ' ∧
    ((o = Return PyNone ∧ handled = all_records σ warc_path) ∨
     (∃ pre raw post fk,
        all_records σ warc_path = pre ++ raw :: post ∧ handled = pre ++ [raw] ∧
        o = Raise (AlterError fk.1.2 fk.2) ∧
        unmet_reference σ' db_path (raw_type raw) = Some fk)).
Proof.
  intros Hfresh Hok. rewrite import_unfold.
  destruct (after_warning_frame batch_size σ) as (Hc & _ & Hf & Hl & Ho & Hn).
  destruct (import_files_exact (opened db_path (Some batch_size)) warc_path
              (after_warning batch_size σ))
    as (handled & o & σ' & Hrun & Hlog & Hout & Hnext & _ & Hfresh' & Hend).
  { intros r a. rewrite Hc, Hn. apply Hfresh. }
  { unfold archives_supported. by rewrite Hf. }
  assert (all_records (after_warning batch_size σ) warc_path
          = all_records σ warc_path) as Hall
    by (unfold all_records; by rewrite Hf).
  rewrite Hall, Hn in *.
  exists handled,
    (match o with Return _ => Return PyNone | Raise e => Raise e end), σ'.
  rewrite Hrun. simpl in *.
  destruct Hend as [[-> ->] | (pre & raw & post & fk & Hsplit & -> & -> & Hu)].
  - split_and!; [done | congruence | congruence | done | done | by left].
  - split_and!; [done | congruence | congruence | done | done |].
    right. by exists pre, raw, post, fk.
Qed.

Lemma sample_world_fresh raws : ids_fresh (sample_world raws).
Proof. intros r a [row Hrow]. simpl in Hrow. by rewrite lookup_empty in Hrow. Qed.

Lemma clean_archive_supported :
  archives_supported (sample_world clean_archive) ["a.warc"].
Proof.
  apply Forall_cons_2; [| apply Forall_nil_2]. eexists. split; [reflexivity |].
  apply Forall_cons_2; [apply list_elem_of_here |].
  apply Forall_cons_2; [apply list_elem_of_further, list_elem_of_here |].
  apply Forall_nil_2.
Qed.

Lemma import_hands_over_whole_records_witness :
  ids_fresh (sample_world clean_archive) ∧
  archives_supported (sample_world clean_archive) ["a.warc"] ∧
  ∃ σ',
    import_ "a.warcdb" ["a.warc"] 1000 (sample_world clean_archive)
      = (Return PyNone, σ') ∧
    w_log σ' = import_call (opened "a.warcdb" (Some 1000%Z)) <$> clean_archive.
Proof.
  split; [exact (sample_world_fresh clean_archive) |].
  split; [exact clean_archive_supported |].
  destruct (import_hands_over_whole_records "a.warcdb" ["a.warc"] 1000
              (sample_world clean_archive) (sample_world_fresh clean_archive)
              clean_archive_supported)
    as (handled & o & σ' & Hrun & Hlog & _ & _ & _ & Hend).
  assert ((import_ "a.warcdb" ["a.warc"] 1000 (sample_world clean_archive)).1
          = Return PyNone) as Hfst by (vm_compute; reflexivity).
  rewrite Hrun in Hfst. simpl in Hfst. subst o.
  exists σ'. split; [exact Hrun |].
  destruct Hend as [[_ ->] | (pre & raw & post & fk & _ & _ & Hraise & _)].
  - exact Hlog.
  - discriminate Hraise.
Defined.

(** ** The row of each record type *)

(** X16.  What [__iadd__] hands to the store of a record depends on its
    type as the code has it.  The row of the insert call always has the
    payload, as bytes; for a request or a response it has the key
    http_headers, set to the JSON text of the HTTP envelope, or to [None]
    when there is no envelope or an empty one; for a warcinfo, metadata or
    resource record the HTTP envelope is not handed over at all, and the
    key http_headers is there only if the record has a WARC header of that
    name.  Every other key is a WARC header name with the value of its last
    occurrence.  This holds whether the engine accepts the insert or
    refuses it. *)
Theorem iadd_row_by_type (self : WarcDB) (r : ArcWarcRecord) (σ : World) :
  cache_sound σ →
  rec_type r ∈ supported_types →
  ∃ row payload o σ',
    __iadd__ self r σ = (o, σ') ∧
    w_log σ' = w_log σ ++
      [insert_call self (rec_type r) row (dispatch_edges (rec_type r))] ∧
    row !! "payload" = Some (VBytes payload) ∧
    (rec_type r = "request" ∨ rec_type r = "response" →
       row !! "http_headers" =
         Some (match http_headers r with
               | Some e => if StatusAndHeaders_bool e
                           then VStr (headers_to_json e) else VNone
               | None => VNone
               end)) ∧
    (rec_type r ≠ "request" → rec_type r ≠ "response" →
       row !! "http_headers"
       = VStr <$> last_value "http_headers" (headers (rec_headers r))) ∧
    (∀ k, k ≠ "payload" → k ≠ "http_headers" →
       row !! k = VStr <$> last_value k (headers (rec_headers r))).
Proof.
  intros Hs Hsup.
  destruct (iadd_supported_effect self r σ Hsup)
    as (row & o & σ' & Hrun & Hlog & _ & _ & _ & _ & _ & Hsound).
  destruct (Hsound Hs) as (_ & payload & ->).
  eexists _, payload, o, σ'. split_and!; [done | done | | | |].
  - unfold row_of. by rewrite lookup_insert_eq.
  - intros Ht. assert (dispatch_http (rec_type r) = true) as ->.
    { unfold dispatch_http. by apply bool_decide_eq_true. }
    unfold row_of. rewrite lookup_insert_ne by discriminate.
    by rewrite lookup_insert_eq.
  - intros Ht1 Ht2. assert (dispatch_http (rec_type r) = false) as ->.
    { unfold dispatch_http. apply bool_decide_eq_false. by intros [? | ?]. }
    apply row_of_lookup; [discriminate | by intros _].
  - intros k Hk1 Hk2. apply row_of_lookup; by intros _.
Qed.

Lemma iadd_row_by_type_witness :
  cache_sound one_stream_world ∧
  rec_type (sample_record 0 "metadata" "<urn:uuid:1>") ∈ supported_types ∧
  ∃ row o σ',
    __iadd__ (opened "a.warcdb" None)
             (sample_record 0 "metadata" "<urn:uuid:1>") one_stream_world
      = (o, σ') ∧
    (ic_row <$> w_log σ') = [row] ∧
    row !! "http_headers" = None.
Proof.
  assert (cache_sound one_stream_world) as Hs.
  { intros r a row Hl. simpl in Hl. by rewrite lookup_empty in Hl. }
  assert (rec_type (sample_record 0 "metadata" "<urn:uuid:1>") ∈ supported_types)
    as Hsup by (do 3 apply list_elem_of_further; apply list_elem_of_here).
  split; [exact Hs |]. split; [exact Hsup |].
  destruct (iadd_row_by_type (opened "a.warcdb" None)
              (sample_record 0 "metadata" "<urn:uuid:1>") one_stream_world Hs Hsup)
    as (row & payload & o & σ' & Hrun & Hlog & _ & _ & Hnone & _).
  exists row, o, σ'. split_and!; [exact Hrun | by rewrite Hlog |].
  rewrite Hnone; [reflexivity | discriminate | discriminate].
Defined.

(** X17.  Ingestion reads nothing of a store object but its database: two
    store objects open on the same database file, whatever their batch size
    and records table, add a record with the same outcome and the same
    effect on the world, each returning itself. *)
Theorem iadd_depends_only_on_db (d1 d2 : WarcDB) (r : ArcWarcRecord) (σ : World) :
  _db d1 = _db d2 →
  (__iadd__ d1 r σ).2 = (__iadd__ d2 r σ).2 ∧
  raised (__iadd__ d1 r σ).1 = raised (__iadd__ d2 r σ).1 ∧
  (∀ d, (__iadd__ d1 r σ).1 = Return d → d = d1) ∧
  (∀ d, (__iadd__ d2 r σ).1 = Return d → d = d2).
Proof.
  intros Hdb. rewrite (iadd_same_db d1 d2 r σ Hdb).
  destruct (__iadd__ d2 r σ) as [[d | e] σ'] eqn:Hrun; simpl.
  - apply iadd_returns_self in Hrun as ->.
    split_and!; [done | done | by intros ? [= <-] | by intros ? [= <-]].
  - by split_and!.
Qed.

Lemma iadd_depends_only_on_db_witness :
  _db (opened "a.warcdb" (Some 5%Z)) = _db (opened "a.warcdb" None) ∧
  (__iadd__ (opened "a.warcdb" (Some 5%Z)) sample_request empty_world).2
  = (__iadd__ (opened "a.warcdb" None) sample_request empty_world).2.
Proof.
  split; [reflexivity |].
  exact (proj1 (iadd_depends_only_on_db (opened "a.warcdb" (Some 5%Z))
                  (opened "a.warcdb" None) sample_request empty_world
                  eq_refl)).
Defined.



(** ** Running an import again *)

(** X18.  Running an import again is harmless, whether the first run
    succeeded or failed.  When the memo table is sound and every supported
    record of the archives carries a WARC-Record-ID, a second run of the
    command over the same archives (with any batch size) ends exactly as the
    first did (it returns, or raises the same error) and leaves every
    database as the first run left it. *)
Theorem import_again_changes_nothing (db_path : str)
    (warc_path : list str) (batch_size batch_size' : Z) (σ : World) :
  cache_sound σ →
  archives_identified σ warc_path →
  (import_ db_path warc_path batch_size'
     (import_ db_path warc_path batch_size σ).2).1
  = (import_ db_path warc_path batch_size σ).1 ∧
  w_dbs (import_ db_path warc_path batch_size'
           (import_ db_path warc_path batch_size σ).2).2
  = w_dbs (import_ db_path warc_path batch_size σ).2.
Proof. intros Hs Hid. by apply import_again. Qed.

Lemma mixed_archive_identified :
  archives_identified (sample_world mixed_archive) ["a.warc"].
Proof.
  apply Forall_cons_2; [| apply Forall_nil_2].
  intros raws [= <-].
  repeat (apply Forall_cons_2; [intros _; by eexists |]). apply Forall_nil_2.
Qed.

Lemma import_again_changes_nothing_witness :
  cache_sound (sample_world mixed_archive) ∧
  archives_identified (sample_world mixed_archive) ["a.warc"] ∧
  (import_ "a.warcdb" ["a.warc"] 1000
     (import_ "a.warcdb" ["a.warc"] 1000 (sample_world mixed_archive)).2).1
  = Raise (ValueError (unsupported_message "revisit")).
Proof.
  assert (cache_sound (sample_world mixed_archive)) as Hs.
  { intros r a row Hl. simpl in Hl. by rewrite lookup_empty in Hl. }
  split; [exact Hs |]. split; [exact mixed_archive_identified |].
  rewrite (proj1 (import_again_changes_nothing "a.warcdb" ["a.warc"] 1000 1000
                    (sample_world mixed_archive) Hs mixed_archive_identified)).
  vm_compute. reflexivity.
Defined.
